(** * UNION-AUTO_BOT launcher: a shallow embedding of [index.js]

    The launcher is a console menu that spawns transfer scripts and a
    self-update routine.  The embedding follows the source function by
    function.  JavaScript strings are lists of UTF-16 code units, JSON
    values are an inductive type, and the effectful code runs in a state
    and exception monad over a [world] that carries the console trace, the
    lines typed by the user, the local files and the answers of the
    network, the file system and the child processes. *)

From Stdlib Require Import ZArith NArith String Ascii Lia.
From Stdlib Require Import Sorting.Sorted Sorting.Permutation.
From stdpp Require Import base option list gmap.

Local Open Scope Z_scope.
Set Warnings "-register-all".

(** ** JavaScript strings *)

Module JsString.

(** A JavaScript string is a sequence of UTF-16 code units. *)
Abbreviation jsstring := (list N).

(** [js "abc"] is the JavaScript string with the same (ASCII) characters. *)
Fixpoint js (s : string) : jsstring :=
  match s with
  | EmptyString => []
  | String c rest => N_of_ascii c :: js rest
  end.

(** The code units matched by the regular expression class [\s], which
    are also the ones removed by [String.prototype.trim]: WhiteSpace and
    LineTerminator of ECMAScript. *)
Definition is_space (c : N) : bool :=
  ((9 <=? c) && (c <=? 13) || (c =? 32) || (c =? 160) || (c =? 5760)
   || (8192 <=? c) && (c <=? 8202) || (c =? 8232) || (c =? 8233)
   || (c =? 8239) || (c =? 8287) || (c =? 12288) || (c =? 65279))%N.

Fixpoint trim_start (s : jsstring) : jsstring :=
  match s with
  | c :: rest => if is_space c then trim_start rest else s
  | [] => []
  end.

(** [s.trim()] *)
Definition trim (s : jsstring) : jsstring :=
  rev (trim_start (rev (trim_start s))).

(** [s.toLowerCase()] on the letters A-Z.  Other code units are kept:
    JavaScript also lowers non-ASCII letters, none of them to an ASCII
    letter, so comparisons with ASCII literals are unaffected. *)
Definition lower_unit (c : N) : N :=
  if ((65 <=? c) && (c <=? 90))%N then (c + 32)%N else c.

Definition toLowerCase (s : jsstring) : jsstring := map lower_unit s.

(** [s.split('.')]: the pieces between the separators, at least one. *)
Fixpoint split_on (sep : N) (s : jsstring) : list jsstring :=
  match s with
  | [] => [[]]
  | c :: rest =>
      if (c =? sep)%N then [] :: split_on sep rest
      else match split_on sep rest with
           | piece :: pieces => (c :: piece) :: pieces
           | [] => [[c]]
           end
  end.

Definition dot : N := 46.

(** [jsq] writes a literal that contains double quotes with single
    quotes in their place: [jsq "{'a':1}"] is the text [{"a":1}]. *)
Definition jsq (s : string) : jsstring :=
  map (fun c => if (c =? 39)%N then 34%N else c) (js s).

End JsString.
Export JsString.

(** ** Paths, as Node's [path] module joins them on POSIX systems *)

Module Path.

Definition slash : N := 47.

(** [normalizeString]: the segments of a path are taken left to right.
    Empty segments and [.] are dropped, [..] removes the segment before
    it, and where there is none to remove it is kept when
    [allowAboveRoot] and dropped otherwise.  [res] holds the segments
    kept so far, last one first. *)
Fixpoint normalize_segments (allowAboveRoot : bool) (res segments : list jsstring)
  : list jsstring :=
  match segments with
  | [] => rev res
  | segment :: rest =>
      if bool_decide (segment = [] \/ segment = js ".") then
        normalize_segments allowAboveRoot res rest
      else if bool_decide (segment = js "..") then
        match res with
        | last_segment :: before =>
            if bool_decide (last_segment = js "..") then
              normalize_segments allowAboveRoot
                (if allowAboveRoot then js ".." :: res else res) rest
            else normalize_segments allowAboveRoot before rest
        | [] =>
            normalize_segments allowAboveRoot
              (if allowAboveRoot then [js ".."] else []) rest
        end
      else normalize_segments allowAboveRoot (segment :: res) rest
  end.

(** The segments with a slash between them. *)
Fixpoint join_segments (segments : list jsstring) : jsstring :=
  match segments with
  | [] => []
  | [segment] => segment
  | segment :: rest => segment ++ slash :: join_segments rest
  end.

(** [path.normalize(p)] *)
Definition normalize (p : jsstring) : jsstring :=
  match p with
  | [] => js "."
  | first :: _ =>
      let isAbsolute := (first =? slash)%N in
      let trailingSeparator := (List.last p 0%N =? slash)%N in
      match join_segments (normalize_segments (negb isAbsolute) [] (split_on slash p)) with
      | [] => if isAbsolute then js "/" else if trailingSeparator then js "./" else js "."
      | res =>
          (if isAbsolute then [slash] else [])
          ++ res ++ (if trailingSeparator then [slash] else [])
      end
  end.

(** [path.join(a, b)] for two strings: the arguments that are not empty
    with a slash between them, normalized. *)
Definition join (a b : jsstring) : jsstring :=
  normalize match a, b with
            | [], _ => b
            | _, [] => a
            | _, _ => a ++ slash :: b
            end.

End Path.

(** ** JavaScript numbers, as far as version components need them *)

Module JsNumber.

(** The value of [Number(part)].  Finite values are kept exact. *)
Inductive jsnum : Type :=
| NaN
| Num (z : Z).

Definition is_digit (c : N) : bool := ((48 <=? c) && (c <=? 57))%N.

Definition digit_value (c : N) : Z := Z.of_N c - 48.

(** Value of a string of decimal digits, most significant first. *)
Definition decimal_value (s : jsstring) : Z :=
  fold_left (fun acc c => 10 * acc + digit_value c) s 0.

(** [Number(s)] for a string: surrounding white space is ignored, the
    empty string is 0, a string of decimal digits is its value, and
    anything else is read as NaN.  JavaScript also accepts signs,
    exponents, radix prefixes and [Infinity]; those forms are outside
    the version data model and the statements below never rely on
    them. Values are exact integers, as doubles are up to 2^53. *)
Definition Number (s : jsstring) : jsnum :=
  let t := trim s in
  match t with
  | [] => Num 0
  | _ => if forallb is_digit t then Num (decimal_value t) else NaN
  end.

(** [x !== y] on array elements; [None] is [undefined]. *)
Definition strict_neq (x y : option jsnum) : bool :=
  match x, y with
  | None, None => false
  | Some (Num a), Some (Num b) => negb (a =? b)
  | _, _ => true
  end.

(** [x - y]: [undefined] and NaN give NaN. *)
Definition minus (x y : option jsnum) : jsnum :=
  match x, y with
  | Some (Num a), Some (Num b) => Num (a - b)
  | _, _ => NaN
  end.

(** [x < y]: false as soon as one side is [undefined] or NaN. *)
Definition less (x y : option jsnum) : bool :=
  match x, y with
  | Some (Num a), Some (Num b) => a <? b
  | _, _ => false
  end.

End JsNumber.
Export JsNumber.

(** ** JSON values and [JSON.parse] *)

Module Json.

(** The values [JSON.parse] builds, and [undefined] for missing
    properties.  A number keeps its source text: the launcher never
    calculates with one. *)
Inductive jsval : Type :=
| VUndefined
| VNull
| VBool (b : bool)
| VNumber (lexeme : jsstring)
| VString (s : jsstring)
| VArray (items : list jsval)
| VObject (fields : list (jsstring * jsval)).

(** JSON white space: tab, line feed, carriage return, space. *)
Definition json_ws (c : N) : bool :=
  ((c =? 9) || (c =? 10) || (c =? 13) || (c =? 32))%N.

Fixpoint skip_ws (s : jsstring) : jsstring :=
  match s with
  | c :: rest => if json_ws c then skip_ws rest else s
  | [] => []
  end.

Definition hex_value (c : N) : option N :=
  if ((48 <=? c) && (c <=? 57))%N then Some (c - 48)%N
  else if ((65 <=? c) && (c <=? 70))%N then Some (c - 55)%N
  else if ((97 <=? c) && (c <=? 102))%N then Some (c - 87)%N
  else None.

(** The single-character escapes of a JSON string. *)
Definition escape_value (c : N) : option N :=
  if (c =? 34)%N then Some 34%N          (* quote *)
  else if (c =? 92)%N then Some 92%N     (* backslash *)
  else if (c =? 47)%N then Some 47%N     (* slash *)
  else if (c =? 98)%N then Some 8%N      (* b: backspace *)
  else if (c =? 102)%N then Some 12%N    (* f: form feed *)
  else if (c =? 110)%N then Some 10%N    (* n: line feed *)
  else if (c =? 114)%N then Some 13%N    (* r: carriage return *)
  else if (c =? 116)%N then Some 9%N     (* t: tab *)
  else None.

(** The characters of a string literal after its opening quote, up to
    and including the closing quote. *)
Fixpoint parse_string_body (s : jsstring) : option (jsstring * jsstring) :=
  match s with
  | [] => None
  | c :: rest =>
      if (c =? 34)%N then Some ([], rest)
      else if (c =? 92)%N then
        match rest with
        | e :: rest1 =>
            if (e =? 117)%N then
              match rest1 with
              | h1 :: h2 :: h3 :: h4 :: rest2 =>
                  match hex_value h1, hex_value h2, hex_value h3, hex_value h4 with
                  | Some a, Some b, Some c', Some d =>
                      match parse_string_body rest2 with
                      | Some (str, rest3) =>
                          Some ((((a * 16 + b) * 16 + c') * 16 + d)%N :: str, rest3)
                      | None => None
                      end
                  | _, _, _, _ => None
                  end
              | _ => None
              end
            else
              match escape_value e with
              | Some v =>
                  match parse_string_body rest1 with
                  | Some (str, rest2) => Some (v :: str, rest2)
                  | None => None
                  end
              | None => None
              end
        | [] => None
        end
      else if (c <? 32)%N then None
      else
        match parse_string_body rest with
        | Some (str, rest1) => Some (c :: str, rest1)
        | None => None
        end
  end.

Fixpoint take_digits (s : jsstring) : jsstring * jsstring :=
  match s with
  | c :: rest =>
      if is_digit c then let '(ds, r) := take_digits rest in (c :: ds, r)
      else ([], s)
  | [] => ([], [])
  end.

(** At least one digit. *)
Definition take_digits1 (s : jsstring) : option (jsstring * jsstring) :=
  match take_digits s with
  | ([], _) => None
  | (ds, r) => Some (ds, r)
  end.

(** The integer part: a single 0, or a non-zero digit and more digits. *)
Definition scan_int (s : jsstring) : option (jsstring * jsstring) :=
  match s with
  | c :: rest =>
      if (c =? 48)%N then Some ([c], rest)
      else if is_digit c then let '(ds, r) := take_digits rest in Some (c :: ds, r)
      else None
  | [] => None
  end.

Definition scan_frac (s : jsstring) : option (jsstring * jsstring) :=
  match s with
  | c :: rest =>
      if (c =? 46)%N then
        match take_digits1 rest with
        | Some (ds, r) => Some (c :: ds, r)
        | None => None
        end
      else Some ([], s)
  | [] => Some ([], [])
  end.

Definition scan_exp (s : jsstring) : option (jsstring * jsstring) :=
  match s with
  | c :: rest =>
      if ((c =? 101) || (c =? 69))%N then
        match rest with
        | sg :: rest1 =>
            if ((sg =? 43) || (sg =? 45))%N then
              match take_digits1 rest1 with
              | Some (ds, r) => Some (c :: sg :: ds, r)
              | None => None
              end
            else
              match take_digits1 rest with
              | Some (ds, r) => Some (c :: ds, r)
              | None => None
              end
        | [] => None
        end
      else Some ([], s)
  | [] => Some ([], [])
  end.

(** A JSON number: optional minus, integer part, optional fraction,
    optional exponent.  The result is its source text. *)
Definition scan_number (s : jsstring) : option (jsstring * jsstring) :=
  let '(sign, s1) :=
    match s with
    | c :: rest => if (c =? 45)%N then ([c], rest) else ([], s)
    | [] => ([], [])
    end in
  match scan_int s1 with
  | Some (i, s2) =>
      match scan_frac s2 with
      | Some (f, s3) =>
          match scan_exp s3 with
          | Some (e, s4) => Some (sign ++ i ++ f ++ e, s4)
          | None => None
          end
      | None => None
      end
  | None => None
  end.

(** [expect "true" s] removes the keyword from the front of [s]. *)
Fixpoint expect (word s : jsstring) : option jsstring :=
  match word with
  | [] => Some s
  | w :: word' =>
      match s with
      | c :: rest => if (c =? w)%N then expect word' rest else None
      | [] => None
      end
  end.

(** Recursive descent over the JSON grammar.  Every call consumes a
    character before it recurses or is made right after one that did,
    so twice the length of the text is enough depth. *)
Fixpoint parse_value (depth : nat) (s : jsstring) : option (jsval * jsstring) :=
  match depth with
  | O => None
  | S d =>
      match skip_ws s with
      | [] => None
      | c :: rest =>
          if (c =? 34)%N then
            match parse_string_body rest with
            | Some (str, r) => Some (VString str, r)
            | None => None
            end
          else if (c =? 91)%N then
            match skip_ws rest with
            | c1 :: r1 =>
                if (c1 =? 93)%N then Some (VArray [], r1)
                else
                  match parse_elements d rest with
                  | Some (items, r) => Some (VArray items, r)
                  | None => None
                  end
            | [] => None
            end
          else if (c =? 123)%N then
            match skip_ws rest with
            | c1 :: r1 =>
                if (c1 =? 125)%N then Some (VObject [], r1)
                else
                  match parse_members d rest with
                  | Some (fields, r) => Some (VObject fields, r)
                  | None => None
                  end
            | [] => None
            end
          else if (c =? 116)%N then
            match expect (js "true") (c :: rest) with
            | Some r => Some (VBool true, r)
            | None => None
            end
          else if (c =? 102)%N then
            match expect (js "false") (c :: rest) with
            | Some r => Some (VBool false, r)
            | None => None
            end
          else if (c =? 110)%N then
            match expect (js "null") (c :: rest) with
            | Some r => Some (VNull, r)
            | None => None
            end
          else
            match scan_number (c :: rest) with
            | Some (lexeme, r) => Some (VNumber lexeme, r)
            | None => None
            end
      end
  end

(** One or more values separated by commas, then the closing bracket. *)
with parse_elements (depth : nat) (s : jsstring) : option (list jsval * jsstring) :=
  match depth with
  | O => None
  | S d =>
      match parse_value d s with
      | Some (v, r) =>
          match skip_ws r with
          | c :: r1 =>
              if (c =? 44)%N then
                match parse_elements d r1 with
                | Some (vs, r2) => Some (v :: vs, r2)
                | None => None
                end
              else if (c =? 93)%N then Some ([v], r1)
              else None
          | [] => None
          end
      | None => None
      end
  end

(** One or more [key : value] members, then the closing brace. *)
with parse_members (depth : nat) (s : jsstring)
  : option (list (jsstring * jsval) * jsstring) :=
  match depth with
  | O => None
  | S d =>
      match skip_ws s with
      | q :: r0 =>
          if (q =? 34)%N then
            match parse_string_body r0 with
            | Some (key, r1) =>
                match skip_ws r1 with
                | colon :: r2 =>
                    if (colon =? 58)%N then
                      match parse_value d r2 with
                      | Some (v, r3) =>
                          match skip_ws r3 with
                          | c :: r4 =>
                              if (c =? 44)%N then
                                match parse_members d r4 with
                                | Some (fs, r5) => Some ((key, v) :: fs, r5)
                                | None => None
                                end
                              else if (c =? 125)%N then Some ([(key, v)], r4)
                              else None
                          | [] => None
                          end
                      | None => None
                      end
                    else None
                | [] => None
                end
            | None => None
            end
          else None
      | [] => None
      end
  end.

(** [JSON.parse(text)]: one value, white space around it, nothing else.
    [None] stands for the SyntaxError. *)
Definition JSON_parse (text : jsstring) : option jsval :=
  match parse_value (2 * length text + 2) text with
  | Some (v, rest) =>
      match skip_ws rest with
      | [] => Some v
      | _ :: _ => None
      end
  | None => None
  end.

(** [replace(/\s+/g, ' ')]: every maximal run of white space becomes one
    space.  [in_run] tells that the previous unit was white space. *)
Fixpoint collapse_spaces (in_run : bool) (s : jsstring) : jsstring :=
  match s with
  | [] => []
  | c :: rest =>
      if is_space c then
        if in_run then collapse_spaces true rest
        else 32%N :: collapse_spaces true rest
      else c :: collapse_spaces false rest
  end.

(** [replace(/,]/g, ']')] and [replace(/,}/g, '}')]: left to right, a
    comma directly followed by [close] is dropped, and the scan goes on
    after the pair. *)
Fixpoint drop_comma_before (close : N) (s : jsstring) : jsstring :=
  match s with
  | [] => []
  | c :: rest =>
      match rest with
      | d :: rest' =>
          if ((c =? 44) && (d =? close))%N
          then close :: drop_comma_before close rest'
          else c :: drop_comma_before close rest
      | [] => [c]
      end
  end.

(** The clean-up of line 39 of [fetchVersionsJson]. *)
Definition cleanup (data : jsstring) : jsstring :=
  drop_comma_before 125 (drop_comma_before 93 (collapse_spaces false data)).

End Json.
Export Json.

(** ** The world around the launcher and the monad its code runs in *)

Module Runtime.

(** A thrown JavaScript error, as the catch blocks read it:
    [error.message] and [error.code]. *)
Record jserror : Type := JsError {
  err_message : jsstring;
  err_code : option jsstring
}.

(** The TypeError of a property read on [undefined] or [null], or of a
    call of something that is not a function. *)
Definition TypeError (what : string) : jserror :=
  {| err_message := js what; err_code := None |}.

(** The SyntaxError of [JSON.parse]. *)
Definition SyntaxError : jserror :=
  {| err_message := js "Unexpected token in JSON"; err_code := None |}.

(** What [rl.question] throws once the interface is closed. *)
Definition ERR_USE_AFTER_CLOSE : jserror :=
  {| err_message := js "readline was closed";
     err_code := Some (js "ERR_USE_AFTER_CLOSE") |}.

(** An axios response: [response.status] and [response.data]. *)
Record response : Type := Response {
  status : Z;
  data : jsval
}.

(** [axios.get] either resolves with a response or rejects. *)
Inductive http_outcome : Type :=
| Responded (r : response)
| Rejected (e : jserror).

(** What becomes of [spawn('node', [scriptPath], ...)]: the call itself
    throws, the child emits ['error'] (it could not be launched), or it
    emits ['exit'] with its status ([None] is the [null] of a child
    ended by a signal). *)
Inductive child_event : Type :=
| ChildError (e : jserror)
| ChildExit (code : option Z).

Inductive spawn_outcome : Type :=
| SpawnThrows (e : jserror)
| Spawned (ev : child_event).

(** One release as [fetchVersionsJson] returns it.  [update_date] is the
    text moment renders from the raw date; it is kept symbolic. *)
Inductive date_text : Type :=
| moment_format (raw : jsval).

Record descriptor : Type := Descriptor {
  version : jsval;
  update_date : date_text;
  changes : jsval
}.

(** One entry of the repository listing as [fetchRepoFiles] returns it. *)
Record file_entry : Type := FileEntry {
  name : jsval;
  download_url : jsval
}.

(** A row of the change table: version, date, one bullet per change. *)
Definition table_row : Type := jsval * date_text * list jsval.

(** The texts written with [console.log] and [console.error], one
    constructor per call in the source, with the interpolated values. *)
Inductive message : Type :=
| MsgFetchVersionsFailed (st : Z)      (* Failed to fetch versions from GitHub (Status: ..) *)
| MsgRateLimit                         (* GitHub API rate limit exceeded *)
| MsgVersionFileNotFound               (* Version file (versions.json) not found *)
| MsgFetchVersionsError (m : jsstring) (* Error fetching versions: .. *)
| MsgCheckNetwork                      (* Check your network connection. *)
| MsgFetchFilesFailed (st : Z)         (* Failed to fetch repository files (Status: ..) *)
| MsgFetchFilesError (m : jsstring)    (* Error fetching repository files: .. *)
| MsgSkipping (file : jsval)           (* Skipping .. (excluded file) *)
| MsgDownloaded (file : jsval)         (* Downloaded .. *)
| MsgDownloadFailed (file : jsval) (st : Z)        (* Failed to download .. (Status: ..) *)
| MsgDownloadError (file : jsval) (m : jsstring)   (* Error downloading ..: .. *)
| MsgNoFiles                           (* No files found to update. *)
| MsgDownloading                       (* Downloading updated files... *)
| MsgUpdateComplete                    (* Update complete. *)
| MsgNoVersionInfo                     (* No version information available. *)
| MsgAvailableUpdates                  (* Available Updates: *)
| MsgTable (rows : list table_row)     (* table.toString() *)
| MsgBlank                             (* console.log() *)
| MsgChecking                          (* Checking for updates... *)
| MsgUnableToCheck                     (* Unable to check for updates. Continuing with current version. *)
| MsgPressEnterMain                    (* Press Enter to return to the main menu... *)
| MsgNewVersion (v : jsval)            (* New version available: .. *)
| MsgPleaseRestart                     (* Please restart the application to use the updated version. *)
| MsgUpdateSkipped                     (* Update skipped. *)
| MsgLatest (v : jsstring)             (* You are running the latest version (..) *)
| MsgCheckError (m : jsstring)         (* Error checking version: .. *)
| MsgBannerRule                        (* the two rules of the banner *)
| MsgBannerTitle                       (* UNION Cross-Chain Automation *)
| MsgSelectOption                      (* Select an Option: *)
| MsgMainOption (n : nat)              (* the four options of the main menu *)
| MsgRunError (script m : jsstring)    (* Error running ..: .. *)
| MsgPressEnterMenu                    (* Press Enter to return to the menu... *)
| MsgExitedWith (script : jsstring) (code : option Z)  (* .. exited with code .. *)
| MsgScriptMissing (script m : jsstring)  (* Script .. not found or inaccessible: .. *)
| MsgGoodbye                           (* Goodbye! *)
| MsgInvalidChoice                     (* Invalid choice. Please try again. *)
| MsgSepoliaTitle                      (* Sepolia -> Holesky: Select Token *)
| MsgHoleskyTitle                      (* Holesky -> Sepolia: Select Token *)
| MsgTokenOption (n : nat)             (* ETH, LINK, EURC, USDC, Back *)
| MsgStarting                          (* Starting Sepolia to Holesky Cross-Chain Transfer Hub... *)
| MsgFatal (e : jserror).              (* Fatal error: .. *)

(** The queries passed to [rl.question]. *)
Inductive prompt : Type :=
| PromptMain      (* Enter your choice (1-4): *)
| PromptToken     (* Enter your choice (1-5): *)
| PromptUpdate    (* Do you want to update to the latest version? (y/n): *)
| PromptEnter.    (* the empty query of the Press Enter pauses *)

(** What the launcher does to the outside, in order. *)
Inductive event : Type :=
| Clear                                   (* console.clear() *)
| Log (m : message)                       (* console.log *)
| LogError (m : message)                  (* console.error *)
| Question (p : prompt)                   (* rl.question writes its query *)
| HttpGet (url : jsval)                   (* axios.get *)
| Access (path : jsstring)                (* fs.access *)
| Spawn (script : jsstring)               (* spawn('node', [scriptPath]) *)
| WriteFile (path : jsstring) (content : jsval)   (* fs.writeFile *)
| Timeout (ms : N)                        (* setTimeout(.., ms) *)
| RlClose.                                (* rl.close() *)

(** The world.  [stdin] holds the lines the user types, one per
    question, in order.  When they are used up, [stdin_ended] tells
    whether the input stream has ended, so that readline is closed and
    the next question throws, or the user simply types nothing more and
    the question stays pending.  [dirname] is [__dirname], the
    directory of [index.js], and [files] are the local files by the
    path [path.join] gives them.  [http], [access], [write] and [child]
    are the answers of the network, the file system and the spawned
    scripts; the first argument is [asked], the number of answers taken
    so far, so that the same request can be answered differently later
    on.  The eight scripts of the menus are told apart by their names,
    which [path.join(__dirname, name)] maps one to one to their
    paths. *)
Record world : Type := World {
  stdin : list jsstring;
  stdin_ended : bool;
  dirname : jsstring;
  files : gmap jsstring jsval;
  asked : nat;
  http : nat -> jsval -> http_outcome;
  access : nat -> jsstring -> option jserror;
  write : nat -> jsstring -> option jserror;
  child : nat -> jsstring -> spawn_outcome;
  trace : list event
}.

Definition emit (e : event) (w : world) : world :=
  {| stdin := stdin w; stdin_ended := stdin_ended w; dirname := dirname w;
     files := files w;
     asked := asked w; http := http w; access := access w;
     write := write w; child := child w; trace := trace w ++ [e] |}.

Definition answered (w : world) : world :=
  {| stdin := stdin w; stdin_ended := stdin_ended w; dirname := dirname w;
     files := files w;
     asked := S (asked w); http := http w; access := access w;
     write := write w; child := child w; trace := trace w |}.

Definition with_stdin (lines : list jsstring) (w : world) : world :=
  {| stdin := lines; stdin_ended := stdin_ended w; dirname := dirname w;
     files := files w;
     asked := asked w; http := http w; access := access w;
     write := write w; child := child w; trace := trace w |}.

Definition with_files (fs : gmap jsstring jsval) (w : world) : world :=
  {| stdin := stdin w; stdin_ended := stdin_ended w; dirname := dirname w;
     files := fs;
     asked := asked w; http := http w; access := access w;
     write := write w; child := child w; trace := trace w |}.

(** Why a run stops for good: a question nobody answers, [process.exit],
    a rejected promise nobody handles, or the recursion budget of the
    embedding. *)
Inductive halt : Type :=
| Blocked
| Exited (status : Z)
| UnhandledRejection (e : jserror)
| OutOfFuel.

(** How a piece of code ends: with a value, with a thrown error that a
    surrounding [try] can catch, or with a halt that nothing catches. *)
Inductive result (A : Type) : Type :=
| Val (a : A)
| Throw (e : jserror)
| Halt (h : halt).
Arguments Val {A} a.
Arguments Throw {A} e.
Arguments Halt {A} h.

Definition M (A : Type) : Type := world -> result A * world.

#[export] Instance M_ret : MRet M := fun A a w => (Val a, w).

#[export] Instance M_bind : MBind M := fun A B f m w =>
  match m w with
  | (Val a, w1) => f a w1
  | (Throw e, w1) => (Throw e, w1)
  | (Halt h, w1) => (Halt h, w1)
  end.

Definition throw {A} (e : jserror) : M A := fun w => (Throw e, w).

Definition stop {A} (h : halt) : M A := fun w => (Halt h, w).

(** [try { body } catch (error) { handler }] *)
Definition try_catch {A} (body : M A) (handler : jserror -> M A) : M A :=
  fun w =>
    match body w with
    | (Throw e, w1) => handler e w1
    | other => other
    end.

(** A call of an async function whose promise is dropped, as in a bare
    [mainMenu();], a [.then] callback or a timer: the caller cannot catch
    what it throws, a rejection is unhandled. *)
Definition detach {A} (m : M A) : M unit :=
  fun w =>
    match m w with
    | (Val _, w1) => (Val tt, w1)
    | (Throw e, w1) => (Halt (UnhandledRejection e), w1)
    | (Halt h, w1) => (Halt h, w1)
    end.

Definition console_log (m : message) : M unit :=
  fun w => (Val tt, emit (Log m) w).

Definition console_error (m : message) : M unit :=
  fun w => (Val tt, emit (LogError m) w).

Definition console_clear : M unit :=
  fun w => (Val tt, emit Clear w).

(** [process.exit(code)] *)
Definition process_exit {A} (code : Z) : M A := stop (Exited code).

(** [rl.close()] *)
Definition rl_close : M unit :=
  fun w => (Val tt, emit RlClose w).

(** [setTimeout(callback, ms)]: the delay is recorded, then the callback
    runs detached. *)
Definition setTimeout {A} (callback : M A) (ms : N) : M unit :=
  fun w => detach callback (emit (Timeout ms) w).

(** [await axios.get(url, ...)] *)
Definition axios_get (url : jsval) : M response :=
  fun w =>
    let w1 := answered (emit (HttpGet url) w) in
    match http w (asked w) url with
    | Responded r => (Val r, w1)
    | Rejected e => (Throw e, w1)
    end.

(** [await fs.access(path)] *)
Definition fs_access (path : jsstring) : M unit :=
  fun w =>
    let w1 := answered (emit (Access path) w) in
    match access w (asked w) path with
    | None => (Val tt, w1)
    | Some e => (Throw e, w1)
    end.

(** [await fs.writeFile(path, content)]: the file is created or
    overwritten, unless the file system reports an error. *)
Definition fs_writeFile (path : jsstring) (content : jsval) : M unit :=
  fun w =>
    let w1 := answered (emit (WriteFile path content) w) in
    match write w (asked w) path with
    | None => (Val tt, with_files (<[path := content]> (files w1)) w1)
    | Some e => (Throw e, w1)
    end.

(** [spawn('node', [scriptPath], { stdio: 'inherit' })] together with the
    event the child later emits.  The launcher asks nothing and prints
    nothing between the spawn and that event. *)
Definition spawn_node (scriptPath : jsstring) : M child_event :=
  fun w =>
    match child w (asked w) scriptPath with
    | SpawnThrows e => (Throw e, answered w)
    | Spawned ev => (Val ev, answered (emit (Spawn scriptPath) w))
    end.

(** Reading a property the launcher uses ([VERSION], [name], ...):
    a TypeError on [undefined] and [null], the last member of that name
    on an object, [undefined] on anything else. *)
Definition lookup_field (key : jsstring) (fields : list (jsstring * jsval)) : jsval :=
  match find (fun member => bool_decide (fst member = key)) (rev fields) with
  | Some (_, v) => v
  | None => VUndefined
  end.

Definition get_prop (v : jsval) (key : string) : M jsval :=
  match v with
  | VUndefined | VNull => throw (TypeError "Cannot read properties of undefined or null")
  | VObject fields => mret (lookup_field (js key) fields)
  | _ => mret VUndefined
  end.

(** Whether a value has a string conversion, as a template literal
    needs one for [${v}].  A primitive has one.  An array is joined
    from the conversions of its elements, [null] and [undefined] among
    them giving the empty string.  An object parsed from JSON is
    converted by the [toString] it inherits unless it has a member of
    that name: no JSON value is callable, and the inherited [valueOf]
    returns the object itself, so that the conversion ends in a
    TypeError. *)
Fixpoint printable (v : jsval) : bool :=
  match v with
  | VArray items => forallb printable items
  | VObject fields =>
      negb (existsb (fun member => bool_decide (fst member = js "toString")) fields)
  | _ => true
  end.

(** The value of [${v}] in a template literal.  The text is kept
    symbolic: it is the value itself, once it is known to have a string
    conversion. *)
Definition no_string_conversion : jserror :=
  TypeError "Cannot convert object to primitive value".

Definition interpolate (v : jsval) : M jsval :=
  if printable v then mret v else throw no_string_conversion.

(** [v === 'literal'] *)
Definition is_string (literal : jsstring) (v : jsval) : bool :=
  match v with
  | VString s => bool_decide (s = literal)
  | _ => false
  end.

(** [array.map(f)] with a callback that may throw: a TypeError unless the
    receiver is an array. *)
Fixpoint each {A B} (f : A -> M B) (l : list A) : M (list B) :=
  match l with
  | [] => mret []
  | x :: rest => y ← f x; ys ← each f rest; mret (y :: ys)
  end.

Definition array_map {B} (receiver : jsval) (f : jsval -> M B) : M (list B) :=
  match receiver with
  | VArray items => each f items
  | _ => throw (TypeError "map is not a function")
  end.

(** [array.filter(p)] *)
Fixpoint keep (p : jsval -> M bool) (l : list jsval) : M (list jsval) :=
  match l with
  | [] => mret []
  | x :: rest =>
      b ← p x; ys ← keep p rest;
      mret (if b : bool then x :: ys else ys)
  end.

Definition array_filter (receiver : jsval) (p : jsval -> M bool) : M (list jsval) :=
  match receiver with
  | VArray items => keep p items
  | _ => throw (TypeError "filter is not a function")
  end.

(** Lines 229-235: [rl.question(prompt, answer => resolve(answer.trim()))].
    The user's next line answers the question.  Without a next line the
    promise stays pending, or [rl.question] throws if the input has
    ended. *)
Definition getUserInput (p : prompt) : M jsstring :=
  fun w =>
    match stdin w with
    | answer :: later => (Val (trim answer), with_stdin later (emit (Question p) w))
    | [] =>
        if stdin_ended w then (Throw ERR_USE_AFTER_CLOSE, w)
        else (Halt Blocked, emit (Question p) w)
    end.

(** Code that throws but has no other effect. *)
Definition lift {A} (r : jserror + A) : M A :=
  match r with
  | inl e => throw e
  | inr a => mret a
  end.

End Runtime.
Export Runtime.

(** ** The update checker *)

Module UpdateChecker.

Definition CURRENT_VERSION : jsstring := js "1.0.0".
Definition REPO_OWNER : jsstring := js "Ansh7473".
Definition REPO_NAME : jsstring := js "UNION-AUTO_BOT".
Definition VERSION_FILE : jsstring := js "versions.json".
Definition EXCLUDED_FILES : list jsstring := [js "private_keys.txt"].

Definition versions_url : jsval :=
  VString (js "https://raw.githubusercontent.com/" ++ REPO_OWNER ++ js "/"
           ++ REPO_NAME ++ js "/main/" ++ VERSION_FILE).

Definition contents_url : jsval :=
  VString (js "https://api.github.com/repos/" ++ REPO_OWNER ++ js "/"
           ++ REPO_NAME ++ js "/contents/").

(** The callback of lines 42-46: one entry of the feed as a descriptor. *)
Definition version_entry (version : jsval) : M descriptor :=
  VERSION ← get_prop version "VERSION";
  UPDATE_DATE ← get_prop version "UPDATE_DATE";
  CHANGES ← get_prop version "CHANGES";
  mret {| Runtime.version := VERSION;
          update_date := moment_format UPDATE_DATE;
          changes := CHANGES |}.

(** Lines 27-60. *)
Definition fetchVersionsJson : M (list descriptor) :=
  try_catch
    (response ← axios_get versions_url;
     if status response =? 200 then
       data ← match data response with
              | VString text =>
                  match JSON_parse (cleanup text) with
                  | Some parsed => mret parsed
                  | None => throw SyntaxError
                  end
              | other => mret other
              end;
       array_map data version_entry
     else
       console_log (MsgFetchVersionsFailed (status response));;
       (if status response =? 403 then console_log MsgRateLimit else mret tt);;
       (if status response =? 404 then console_log MsgVersionFileNotFound else mret tt);;
       mret [])
    (fun error =>
       console_log (MsgFetchVersionsError (err_message error));;
       (if bool_decide (err_code error = Some (js "ECONNREFUSED")
                        ∨ err_code error = Some (js "ETIMEDOUT"))
        then console_log MsgCheckNetwork else mret tt);;
       mret []).

(** Lines 62-84. *)
Definition fetchRepoFiles : M (list file_entry) :=
  try_catch
    (response ← axios_get contents_url;
     if status response =? 200 then
       items ← array_filter (data response) (fun item =>
                 type ← get_prop item "type";
                 mret (is_string (js "file") type));
       each (fun item =>
               item_name ← get_prop item "name";
               item_url ← get_prop item "download_url";
               mret {| name := item_name; download_url := item_url |})
            items
     else
       console_log (MsgFetchFilesFailed (status response));;
       mret [])
    (fun error =>
       console_log (MsgFetchFilesError (err_message error));;
       mret []).

(** [EXCLUDED_FILES.includes(file.name)] *)
Definition excluded (file_name : jsval) : bool :=
  match file_name with
  | VString s => bool_decide (s ∈ EXCLUDED_FILES)
  | _ => false
  end.

(** [path.join(__dirname, file.name)]: a TypeError unless the name is a
    string. *)
Definition path_join (file_name : jsval) : M jsstring :=
  fun w =>
    match file_name with
    | VString s => (Val (Path.join (dirname w) s), w)
    | _ => (Throw (TypeError "The path argument must be of type string"), w)
    end.

(** Lines 86-106.  The name of the file is converted to a string for
    every message, also for the one of the catch block. *)
Definition downloadFile (file : file_entry) : M unit :=
  if excluded (name file) then
    shown ← interpolate (name file);
    console_log (MsgSkipping shown)
  else
    try_catch
      (response ← axios_get (download_url file);
       if status response =? 200 then
         path ← path_join (name file);
         fs_writeFile path (data response);;
         shown ← interpolate (name file);
         console_log (MsgDownloaded shown)
       else
         shown ← interpolate (name file);
         console_log (MsgDownloadFailed shown (status response)))
      (fun error =>
         shown ← interpolate (name file);
         console_log (MsgDownloadError shown (err_message error))).

(** Lines 108-121. *)
Definition updateFiles : M bool :=
  files ← fetchRepoFiles;
  if bool_decide (length files = 0%nat) then
    console_log MsgNoFiles;;
    mret false
  else
    console_log MsgDownloading;;
    each downloadFile files;;
    console_log MsgUpdateComplete;;
    mret true.

(** Lines 123-147.  The rows are pushed in order; the separator rows
    between them are part of the rendering of [MsgTable].  Every change
    and every version is converted to a string for its cell; the date is
    one already. *)
Definition formatVersionChanges (versions : list descriptor) : M unit :=
  if bool_decide (length versions = 0%nat) then
    console_log MsgNoVersionInfo
  else
    rows ← each (fun v =>
                   changesStr ← array_map (changes v) interpolate;
                   shown ← interpolate (version v);
                   mret (shown, update_date v, changesStr))
                versions;
    console_log MsgAvailableUpdates;;
    console_log (MsgTable rows);;
    console_log MsgBlank.

(** [v.split('.').map(Number)]: a TypeError unless [v] is a string. *)
Definition version_parts (v : jsval) : jserror + list jsnum :=
  match v with
  | VString s => inr (map Number (split_on dot s))
  | _ => inl (TypeError "split is not a function")
  end.

(** The loop of lines 163-166, from index [i], [steps] rounds to go. *)
Fixpoint compare_loop (i steps : nat) (aParts bParts : list jsnum) : jsnum :=
  match steps with
  | O => Num 0
  | S more =>
      if strict_neq (aParts !! i) (bParts !! i)
      then minus (bParts !! i) (aParts !! i)
      else compare_loop (S i) more aParts bParts
  end.

(** The comparator of lines 160-167. *)
Definition compare_versions (a b : descriptor) : jserror + jsnum :=
  match version_parts (version a) with
  | inl e => inl e
  | inr aParts =>
      match version_parts (version b) with
      | inl e => inl e
      | inr bParts => inr (compare_loop 0 3 aParts bParts)
      end
  end.

(** A comparator result asks for a swap when it is positive; NaN counts
    as 0. *)
Definition positive (c : jsnum) : bool :=
  match c with
  | Num z => 0 <? z
  | NaN => false
  end.

(** [array.sort(comparator)]: a stable sort, here by insertion from the
    right.  For a comparator that is a consistent ordering the result
    of a stable sort does not depend on the algorithm. *)
Fixpoint insert_sorted {A} (comparator : A -> A -> jserror + jsnum)
    (x : A) (sorted : list A) : jserror + list A :=
  match sorted with
  | [] => inr [x]
  | y :: rest =>
      match comparator x y with
      | inl e => inl e
      | inr c =>
          if positive c then
            match insert_sorted comparator x rest with
            | inl e => inl e
            | inr placed => inr (y :: placed)
            end
          else inr (x :: y :: rest)
      end
  end.

Fixpoint array_sort {A} (comparator : A -> A -> jserror + jsnum)
    (l : list A) : jserror + list A :=
  match l with
  | [] => inr []
  | x :: rest =>
      match array_sort comparator rest with
      | inl e => inl e
      | inr sorted => insert_sorted comparator x sorted
      end
  end.

(** The loop of lines 173-181, from index [i], [steps] rounds to go:
    the final value of [isLatest]. *)
Fixpoint isLatest_loop (i steps : nat)
    (currentVersionParts latestVersionParts : list jsnum) : bool :=
  match steps with
  | O => true
  | S more =>
      if less (currentVersionParts !! i) (latestVersionParts !! i) then false
      else if less (latestVersionParts !! i) (currentVersionParts !! i) then true
      else isLatest_loop (S i) more currentVersionParts latestVersionParts
  end.

Definition isLatest (currentVersionParts latestVersionParts : list jsnum) : bool :=
  isLatest_loop 0 3 currentVersionParts latestVersionParts.

(** [versions[0]] followed by a property read. *)
Definition first_version (versions : list descriptor) : M descriptor :=
  match versions with
  | latest :: _ => mret latest
  | [] => throw (TypeError "Cannot read properties of undefined")
  end.

(** Lines 184-198 of [checkVersion]: the update offer. *)
Definition offer_update (versions : list descriptor) (latestVersion : descriptor)
  : M bool :=
  shown ← interpolate (version latestVersion);
  console_log (MsgNewVersion shown);;
  formatVersionChanges versions;;
  answer ← getUserInput PromptUpdate;
  if bool_decide (toLowerCase answer = js "y") then
    updateFiles;;
    console_log MsgPleaseRestart;;
    console_log MsgPressEnterMain;;
    getUserInput PromptEnter;;
    mret false
  else
    console_log MsgUpdateSkipped;;
    console_log MsgPressEnterMain;;
    getUserInput PromptEnter;;
    mret false.

(** Lines 201-204 of [checkVersion]: nothing newer. *)
Definition report_latest : M bool :=
  console_log (MsgLatest CURRENT_VERSION);;
  console_log MsgPressEnterMain;;
  getUserInput PromptEnter;;
  mret true.

(** Lines 154-157 of [checkVersion]: no version list. *)
Definition report_unable : M bool :=
  console_log MsgUnableToCheck;;
  console_log MsgPressEnterMain;;
  getUserInput PromptEnter;;
  mret true.

(** Lines 205-210 of [checkVersion]: the catch block. *)
Definition report_check_error (error : jserror) : M bool :=
  console_log (MsgCheckError (err_message error));;
  console_log MsgPressEnterMain;;
  getUserInput PromptEnter;;
  mret true.

(** Lines 149-211. *)
Definition checkVersion : M bool :=
  console_log MsgChecking;;
  try_catch
    (fetched ← fetchVersionsJson;
     if bool_decide (length fetched = 0%nat) then
       report_unable
     else
       versions ← lift (array_sort compare_versions fetched);
       latestVersion ← first_version versions;
       currentVersionParts ← lift (version_parts (VString CURRENT_VERSION));
       latestVersionParts ← lift (version_parts (version latestVersion));
       if negb (isLatest currentVersionParts latestVersionParts) then
         offer_update versions latestVersion
       else
         report_latest)
    report_check_error.

End UpdateChecker.
Export UpdateChecker.

(** ** The menus *)

Module Menu.

(** Lines 214-219. *)
Definition displayBanner : M unit :=
  console_clear;;
  console_log MsgBannerRule;;
  console_log MsgBannerTitle;;
  console_log MsgBannerRule.

(** Lines 221-227. *)
Definition displayMainMenu : M unit :=
  console_log MsgSelectOption;;
  console_log (MsgMainOption 1);;
  console_log (MsgMainOption 2);;
  console_log (MsgMainOption 3);;
  console_log (MsgMainOption 4).

(** Lines 237-264.  [mainMenu] is the menu the handlers return to.  The
    two event handlers run when the child is done; what they start is
    detached from the caller of [runScript]. *)
Definition runScript (mainMenu : M unit) (scriptName : jsstring) : M unit :=
  let scriptPath := scriptName in
  try_catch
    (fs_access scriptPath;;
     child_event ← spawn_node scriptPath;
     match child_event with
     | ChildError error =>
         console_log (MsgRunError scriptName (err_message error));;
         console_log MsgPressEnterMenu;;
         detach (getUserInput PromptEnter;; mainMenu)
     | ChildExit code =>
         if bool_decide (code ≠ Some 0) then
           console_log (MsgExitedWith scriptName code);;
           console_log MsgPressEnterMenu;;
           detach (getUserInput PromptEnter;; mainMenu)
         else
           detach mainMenu
     end)
    (fun error =>
       console_log (MsgScriptMissing scriptName (err_message error));;
       console_log MsgPressEnterMenu;;
       getUserInput PromptEnter;;
       detach mainMenu).

(** The five option lines of a token menu. *)
Definition displayTokens (title : message) : M unit :=
  console_clear;;
  console_log title;;
  console_log (MsgTokenOption 1);;
  console_log (MsgTokenOption 2);;
  console_log (MsgTokenOption 3);;
  console_log (MsgTokenOption 4);;
  console_log (MsgTokenOption 5).

(** Lines 272-286: what [mainMenu] does with the choice.  The three
    menus it calls are parameters. *)
Definition mainMenu_choice
    (mainMenu sepoliaToHoleskyMenu holeskyToSepoliaMenu : M unit)
    (choice : jsstring) : M unit :=
  if bool_decide (choice = js "1") then
    sepoliaToHoleskyMenu
  else if bool_decide (choice = js "2") then
    holeskyToSepoliaMenu
  else if bool_decide (choice = js "3") then
    checkVersion;;
    detach mainMenu
  else if bool_decide (choice = js "4") then
    console_log MsgGoodbye;;
    rl_close;;
    process_exit 0
  else
    console_log MsgInvalidChoice;;
    setTimeout mainMenu 1500.

(** Lines 267-287. *)
Definition mainMenu_body
    (mainMenu sepoliaToHoleskyMenu holeskyToSepoliaMenu : M unit) : M unit :=
  displayBanner;;
  displayMainMenu;;
  choice ← getUserInput PromptMain;
  mainMenu_choice mainMenu sepoliaToHoleskyMenu holeskyToSepoliaMenu choice.

(** Lines 298-317: the switch of [sepoliaToHoleskyMenu]. *)
Definition sepoliaToHoleskyMenu_choice
    (mainMenu sepoliaToHoleskyMenu : M unit) (token : jsstring) : M unit :=
  if bool_decide (token = js "1") then
    runScript mainMenu (js "SepoliaToHoleskyEth.js")
  else if bool_decide (token = js "2") then
    runScript mainMenu (js "SepoliaToHoleskyLinkTransfer.js")
  else if bool_decide (token = js "3") then
    runScript mainMenu (js "SepoliaToHoleskyEurcTransfer.js")
  else if bool_decide (token = js "4") then
    runScript mainMenu (js "SepoliaToHoleskyUsdcTransfer.js")
  else if bool_decide (token = js "5") then
    detach mainMenu
  else
    console_log MsgInvalidChoice;;
    setTimeout sepoliaToHoleskyMenu 1500.

(** Lines 289-318. *)
Definition sepoliaToHoleskyMenu_body
    (mainMenu sepoliaToHoleskyMenu : M unit) : M unit :=
  displayTokens MsgSepoliaTitle;;
  token ← getUserInput PromptToken;
  sepoliaToHoleskyMenu_choice mainMenu sepoliaToHoleskyMenu token.

(** Lines 329-348: the switch of [holeskyToSepoliaMenu]. *)
Definition holeskyToSepoliaMenu_choice
    (mainMenu holeskyToSepoliaMenu : M unit) (token : jsstring) : M unit :=
  if bool_decide (token = js "1") then
    runScript mainMenu (js "HoleskyToSepoliaETH.js")
  else if bool_decide (token = js "2") then
    runScript mainMenu (js "HoleskyToSepoliaLink.js")
  else if bool_decide (token = js "3") then
    runScript mainMenu (js "HoleskyToSepoliaEurc.js")
  else if bool_decide (token = js "4") then
    runScript mainMenu (js "HoleskyToSepoliaUsdc.js")
  else if bool_decide (token = js "5") then
    detach mainMenu
  else
    console_log MsgInvalidChoice;;
    setTimeout holeskyToSepoliaMenu 1500.

(** Lines 320-349. *)
Definition holeskyToSepoliaMenu_body
    (mainMenu holeskyToSepoliaMenu : M unit) : M unit :=
  displayTokens MsgHoleskyTitle;;
  token ← getUserInput PromptToken;
  holeskyToSepoliaMenu_choice mainMenu holeskyToSepoliaMenu token.

(** The three menu functions call each other without end; [fuel] bounds
    the number of menus shown. *)
Inductive menu_node : Type :=
| Root
| SepoliaToHolesky
| HoleskyToSepolia.

Fixpoint show (fuel : nat) (node : menu_node) : M unit :=
  match fuel with
  | O => stop OutOfFuel
  | S less_fuel =>
      match node with
      | Root =>
          mainMenu_body (show less_fuel Root) (show less_fuel SepoliaToHolesky)
                        (show less_fuel HoleskyToSepolia)
      | SepoliaToHolesky =>
          sepoliaToHoleskyMenu_body (show less_fuel Root)
                                    (show less_fuel SepoliaToHolesky)
      | HoleskyToSepolia =>
          holeskyToSepoliaMenu_body (show less_fuel Root)
                                    (show less_fuel HoleskyToSepolia)
      end
  end.

Definition mainMenu (fuel : nat) : M unit := show fuel Root.
Definition sepoliaToHoleskyMenu (fuel : nat) : M unit := show fuel SepoliaToHolesky.
Definition holeskyToSepoliaMenu (fuel : nat) : M unit := show fuel HoleskyToSepolia.

(** Every menu shown asks a question, and every question takes a line,
    so one menu more than there are lines is budget enough. *)
Definition enough_fuel (w : world) : nat := S (length (stdin w)).

(** Lines 351-356: the program.  [.catch] handles a rejection of the
    promise of the first [mainMenu()] call. *)
Definition main : M unit :=
  fun w =>
    (console_log MsgStarting;;
     try_catch (mainMenu (enough_fuel w))
               (fun err => console_error (MsgFatal err);; process_exit 1)) w.

End Menu.
Export Menu.



(** ** Notions used to state what the launcher does *)

Module Properties.

(** The world after a list of events. *)
Definition emit_all (evs : list event) (w : world) : world :=
  fold_left (fun w' e => emit e w') evs w.

(** What a run added to the trace. *)
Definition new_events {A} (m : M A) (w : world) : list event :=
  drop (length (trace w)) (trace (snd (m w))).

(** [m] relates every world to the one it leaves behind by [R]. *)
Definition preserves (R : world -> world -> Prop) {A} (m : M A) : Prop :=
  forall w, R w (snd (m w)).

(** The trace only grows, and by events that satisfy [P]. *)
Definition extends_by (P : event -> Prop) (w w' : world) : Prop :=
  exists evs, trace w' = trace w ++ evs /\ Forall P evs.

(** Lines are only taken from the front of the input, and whether the
    input has ended does not change. *)
Definition reads_on (w w' : world) : Prop :=
  (exists taken, stdin w = taken ++ stdin w') /\ stdin_ended w' = stdin_ended w.

(** The first three components of a version, when all are numbers. *)
Definition version_triple (v : jsval) : option (Z * Z * Z) :=
  match version_parts v with
  | inr (Num major :: Num minor :: Num patch :: _) => Some (major, minor, patch)
  | _ => None
  end.

(** (major, minor, patch) compared left to right. *)
Definition lex_lt (p q : Z * Z * Z) : Prop :=
  let '(x1, y1, z1) := p in
  let '(x2, y2, z2) := q in
  x1 < x2 \/ (x1 = x2 /\ (y1 < y2 \/ (y1 = y2 /\ z1 < z2))).

Definition lex_le (p q : Z * Z * Z) : Prop := lex_lt p q \/ p = q.

(** Integers that a JavaScript number holds exactly. *)
Definition safe (t : Z * Z * Z) : Prop :=
  let '(x, y, z) := t in x < 2 ^ 53 /\ y < 2 ^ 53 /\ z < 2 ^ 53.

(** A version descriptor of the data model: the version starts with
    three integer components and the changes are a list of values that
    have a string conversion, as strings do. *)
Definition well_formed (d : descriptor) : Prop :=
  (exists t, version_triple (version d) = Some t /\ safe t)
  /\ (exists items, changes d = VArray items /\ forallb printable items = true).

(** Whether the cells of the table row of a descriptor can be written:
    the changes are a list of values that have a string conversion, and
    the version has one. *)
Definition presentable (d : descriptor) : bool :=
  match changes d with
  | VArray items => forallb printable items
  | _ => false
  end && printable (version d).

(** [a] is at least as recent as [b]. *)
Definition newer_or_same (a b : descriptor) : Prop :=
  exists ta tb, version_triple (version a) = Some ta
                /\ version_triple (version b) = Some tb
                /\ lex_le tb ta.

Definition current_triple : Z * Z * Z := (1, 0, 0).

(** What a menu writes before it waits for the choice. *)
Definition screen (node : menu_node) : list event :=
  match node with
  | Root =>
      [Clear; Log MsgBannerRule; Log MsgBannerTitle; Log MsgBannerRule;
       Log MsgSelectOption; Log (MsgMainOption 1); Log (MsgMainOption 2);
       Log (MsgMainOption 3); Log (MsgMainOption 4); Question PromptMain]
  | SepoliaToHolesky =>
      [Clear; Log MsgSepoliaTitle; Log (MsgTokenOption 1); Log (MsgTokenOption 2);
       Log (MsgTokenOption 3); Log (MsgTokenOption 4); Log (MsgTokenOption 5);
       Question PromptToken]
  | HoleskyToSepolia =>
      [Clear; Log MsgHoleskyTitle; Log (MsgTokenOption 1); Log (MsgTokenOption 2);
       Log (MsgTokenOption 3); Log (MsgTokenOption 4); Log (MsgTokenOption 5);
       Question PromptToken]
  end.

(** The digit strings a menu acts on. *)
Definition choices (node : menu_node) : list jsstring :=
  match node with
  | Root => [js "1"; js "2"; js "3"; js "4"]
  | _ => [js "1"; js "2"; js "3"; js "4"; js "5"]
  end.

(** What the menu [node] does with a choice when [fuel] menus are left. *)
Definition choose (fuel : nat) (node : menu_node) (choice : jsstring) : M unit :=
  match node with
  | Root =>
      mainMenu_choice (show fuel Root) (show fuel SepoliaToHolesky)
                      (show fuel HoleskyToSepolia) choice
  | SepoliaToHolesky =>
      sepoliaToHoleskyMenu_choice (show fuel Root) (show fuel SepoliaToHolesky) choice
  | HoleskyToSepolia =>
      holeskyToSepoliaMenu_choice (show fuel Root) (show fuel HoleskyToSepolia) choice
  end.

(** A line that is none of the choices of the menu, once trimmed. *)
Definition invalid_for (node : menu_node) (line : jsstring) : Prop :=
  trim line ∉ choices node.

Definition is_spawn (e : event) : Prop :=
  match e with Spawn _ => True | _ => False end.

Definition is_write (e : event) : Prop :=
  match e with WriteFile _ _ => True | _ => False end.

Definition is_log (e : event) : Prop :=
  match e with Log _ => True | _ => False end.

(** Every event but the three that single out a path through the update
    check: the report that the version is the latest, the update offer,
    and a file write. *)
Definition routine (e : event) : Prop :=
  match e with
  | Log (MsgLatest _) => False
  | Question PromptUpdate => False
  | WriteFile _ _ => False
  | _ => True
  end.

(** What [fetchVersionsJson] prints when the request fails or the status
    is not 200, with the hint it adds for a refused or timed-out
    connection, for a rate limit (403) and for a missing file (404). *)
Definition fetch_report (o : http_outcome) : list event :=
  match o with
  | Rejected e =>
      Log (MsgFetchVersionsError (err_message e))
      :: (if bool_decide (err_code e = Some (js "ECONNREFUSED")
                          \/ err_code e = Some (js "ETIMEDOUT"))
          then [Log MsgCheckNetwork] else [])
  | Responded r =>
      Log (MsgFetchVersionsFailed (status r))
      :: (if status r =? 403 then [Log MsgRateLimit] else [])
      ++ (if status r =? 404 then [Log MsgVersionFileNotFound] else [])
  end.

(** The request was rejected or answered with another status than 200. *)
Definition fetch_failed (o : http_outcome) : Prop :=
  match o with
  | Rejected _ => True
  | Responded r => status r <> 200
  end.

(** The value [.map] is called on for a 200 response: the data, parsed
    after the clean-up when it is a string.  [None]: [JSON.parse] threw. *)
Definition received (d : jsval) : option jsval :=
  match d with
  | VString text => JSON_parse (cleanup text)
  | other => Some other
  end.

Definition is_array (v : jsval) : Prop :=
  match v with VArray _ => True | _ => False end.

(** The pause of the update check and the pause of [runScript]: the
    request to press Enter and the empty question. *)
Definition pause_main : list event := [Log MsgPressEnterMain; Question PromptEnter].
Definition pause_menu : list event := [Log MsgPressEnterMenu; Question PromptEnter].


(** What axios hands over as [response.data] for a body: the parsed JSON
    when the body is JSON, the body itself as a string otherwise. *)
Definition axios_data (body : jsstring) : jsval :=
  match JSON_parse body with
  | Some parsed => parsed
  | None => VString body
  end.

(** A network that answers every request with status 200 and [body]. *)
Definition serving (body : jsstring) : nat -> jsval -> http_outcome :=
  fun _ _ => Responded {| status := 200; data := axios_data body |}.

(** A network that is down. *)
Definition offline : nat -> jsval -> http_outcome :=
  fun _ _ => Rejected {| err_message := js "connect ECONNREFUSED";
                         err_code := Some (js "ECONNREFUSED") |}.

(** The directory the launcher is installed in, in the sessions below. *)
Definition app_dir : jsstring := js "/srv/union".

(** An interactive session: the user types [lines]; every script is
    present, starts and ends with status 0; every write succeeds. *)
Definition session (lines : list jsstring) (net : nat -> jsval -> http_outcome)
  : world :=
  {| stdin := lines; stdin_ended := false; dirname := app_dir; files := ∅;
     asked := 0;
     http := net;
     access := fun _ _ => None;
     write := fun _ _ => None;
     child := fun _ _ => Spawned (ChildExit (Some 0));
     trace := [] |}.

(** Two version feeds: one whose newest release is 1.0.0, one with 1.2.0. *)
Definition feed_current : jsstring :=
  jsq "[{'VERSION':'0.9.0','UPDATE_DATE':'2025-05-01','CHANGES':['first release']},
        {'VERSION':'1.0.0','UPDATE_DATE':'2025-06-11','CHANGES':['token menus']}]".

Definition feed_newer : jsstring :=
  jsq "[{'VERSION':'1.0.0','UPDATE_DATE':'2025-06-11','CHANGES':['token menus']},
        {'VERSION':'1.2.0','UPDATE_DATE':'2025-07-02','CHANGES':['usdc','fixes']}]".

Definition release (v date : string) (notes : list string) : descriptor :=
  {| version := VString (js v);
     update_date := moment_format (VString (js date));
     changes := VArray (map (fun note => VString (js note)) notes) |}.

(** A feed whose only release has a fourth component. *)
Definition feed_patched : jsstring :=
  jsq "[{'VERSION':'1.0.0.5','UPDATE_DATE':'2025-06-20','CHANGES':['hotfix']}]".

(** A session whose input ends after the choice 3 while the network is
    down: the pause of the update check throws, and so does the pause of
    its catch block. *)
Definition ended_after_check : world :=
  {| stdin := [js "3"]; stdin_ended := true; dirname := app_dir; files := ∅;
     asked := 0;
     http := offline;
     access := fun _ _ => None; write := fun _ _ => None;
     child := fun _ _ => Spawned (ChildExit (Some 0)); trace := [] |}.

(** What an invalid line adds: the complaint and the timer. *)
Definition complaint : list event := [Log MsgInvalidChoice; Timeout 1500].

(** What the callback of [fetchVersionsJson] throws on an entry that is
    [undefined] or [null]. *)
Definition null_read : jserror :=
  TypeError "Cannot read properties of undefined or null".

(** A listing with the excluded file between two others, on a network
    that answers every request. *)
Definition listing_with_keys : list file_entry :=
  [ {| name := VString (js "index.js");
       download_url := VString (js "https://raw.example/index.js") |};
    {| name := VString (js "private_keys.txt");
       download_url := VString (js "https://raw.example/private_keys.txt") |};
    {| name := VString (js "README.md");
       download_url := VString (js "https://raw.example/README.md") |} ].

(** The local file an entry of the listing is written to: the path
    [path.join] makes of its name, when the name is a string. *)
Definition target (w : world) (file : file_entry) : option jsstring :=
  match name file with
  | VString s => Some (Path.join (dirname w) s)
  | _ => None
  end.

(** The launcher is installed in the same directory in both worlds. *)
Definition same_dirname (w w' : world) : Prop := dirname w' = dirname w.

(** The path of the excluded file in the sessions below. *)
Definition keys_path : jsstring := js "/srv/union/private_keys.txt".

(** The repository listing of [listing_with_keys]. *)
Definition listing_with_keys_body : jsstring :=
  jsq "[{'name':'index.js','type':'file','download_url':'https://raw.example/index.js'},
        {'name':'private_keys.txt','type':'file',
         'download_url':'https://raw.example/private_keys.txt'},
        {'name':'README.md','type':'file','download_url':'https://raw.example/README.md'}]".


(** A listing whose first entry has an object with a member [toString]
    for a name. *)
Definition listing_unprintable : jsstring :=
  jsq "[{'name':{'toString':1},'type':'file','download_url':'https://raw.example/a'},
        {'name':'README.md','type':'file','download_url':'https://raw.example/README.md'}]".

(** The world after a report of [runScript] and its pause, when the
    line that acknowledges it leaves [later] to read. *)
Definition paused (later : list jsstring) (report : list event) (w : world) : world :=
  with_stdin later (emit_all (report ++ pause_menu) w).


Definition link_script : jsstring := js "SepoliaToHoleskyLinkTransfer.js".

(** The scenario of the end-to-end test and the one in which 5 is the
    back choice. *)
Definition scenario : list jsstring := [js "1"; js "2"; js "5"; js "4"].
Definition back_scenario : list jsstring := [js "1"; js "5"; js "4"].

(** What the launcher does between the token menu and the farewell in the
    scenario, by what becomes of the LINK script: the line 5 acknowledges
    the pause after a report, or is an invalid choice at the root menu
    after a clean run. *)
Definition link_dispatch (found : option jserror) (spawned : spawn_outcome)
  : list event :=
  match found, spawned with
  | Some e, _ | None, SpawnThrows e =>
      [Access link_script; Log (MsgScriptMissing link_script (err_message e))]
      ++ pause_menu ++ screen Root
  | None, Spawned (ChildError e) =>
      [Access link_script; Spawn link_script;
       Log (MsgRunError link_script (err_message e))]
      ++ pause_menu ++ screen Root
  | None, Spawned (ChildExit code) =>
      if bool_decide (code = Some 0) then
        [Access link_script; Spawn link_script]
        ++ screen Root ++ complaint ++ screen Root
      else
        [Access link_script; Spawn link_script;
         Log (MsgExitedWith link_script code)]
        ++ pause_menu ++ screen Root
  end.

(** Whether a child process was spawned. *)
Definition spawns (evs : list event) : bool :=
  existsb (fun e => match e with Spawn _ => true | _ => false end) evs.


(** A version file as an editor leaves it: one release, indented, with a
    trailing comma after the last element of every list and object. *)
Definition feed_trailing : jsstring :=
  jsq "[
  {
    'VERSION': '1.2.0',
    'UPDATE_DATE': '2025-07-02',
    'CHANGES': ['usdc', 'fixes',],
  },
]".

(** The same file with the three trailing commas taken out. *)
Definition feed_trailing_repaired : jsstring :=
  jsq "[
  {
    'VERSION': '1.2.0',
    'UPDATE_DATE': '2025-07-02',
    'CHANGES': ['usdc', 'fixes']
  }
]".

(** The same release with nothing between a trailing comma and the
    bracket that follows it. *)
Definition feed_tight : jsstring :=
  jsq "[{'VERSION':'1.2.0','UPDATE_DATE':'2025-07-02','CHANGES':['usdc','fixes',],},]".

(** A descriptor whose version has three integer components. *)
Definition has_triple (d : descriptor) : Prop :=
  exists t, version_triple (version d) = Some t.

(** [m] never stops for lack of fuel. *)
Definition within_budget {A} (m : M A) : Prop :=
  forall w, fst (m w) <> Halt OutOfFuel.

(** [m] does not stop for lack of fuel when it starts with fewer than [n]
    lines to read, and it leaves no more lines than it found. *)
Definition fueled (n : nat) {A} (m : M A) : Prop :=
  forall w, (length (stdin w) < n)%nat ->
    fst (m w) <> Halt OutOfFuel
    /\ (length (stdin (snd (m w))) <= length (stdin w))%nat.

(** *** Notions for the rest of the launcher *)

(** Whether an item of the repository listing passes the filter of
    line 72: its [type] is the string [file]. *)
Definition is_file (item : jsval) : bool :=
  match item with
  | VObject fields => is_string (js "file") (lookup_field (js "type") fields)
  | _ => false
  end.

(** The entry lines 72-75 make of an item that passed the filter. *)
Definition entry_of (item : jsval) : file_entry :=
  match item with
  | VObject fields =>
      {| name := lookup_field (js "name") fields;
         download_url := lookup_field (js "download_url") fields |}
  | _ => {| name := VUndefined; download_url := VUndefined |}
  end.

(** A value whose properties can be read: neither [null] nor
    [undefined]. *)
Definition readable (item : jsval) : Prop :=
  item <> VNull /\ item <> VUndefined.

(** A repository listing with a directory between two files. *)
Definition listing_body : jsstring :=
  jsq "[{'name':'index.js','type':'file','download_url':'https://raw.example/index.js'},
        {'name':'docs','type':'dir','download_url':null},
        {'name':'README.md','type':'file','download_url':'https://raw.example/README.md'}]".

(** The items of that listing. *)
Definition listing_items : list jsval :=
  [ VObject [(js "name", VString (js "index.js")); (js "type", VString (js "file"));
             (js "download_url", VString (js "https://raw.example/index.js"))];
    VObject [(js "name", VString (js "docs")); (js "type", VString (js "dir"));
             (js "download_url", VNull)];
    VObject [(js "name", VString (js "README.md")); (js "type", VString (js "file"));
             (js "download_url", VString (js "https://raw.example/README.md"))] ].

(** A network that answers every request with the given status and no
    data. *)
Definition refusing (st : Z) : nat -> jsval -> http_outcome :=
  fun _ _ => Responded {| status := st; data := VNull |}.

(** A network that serves the repository listing [listing] and answers
    every other request with [st] and [content]. *)
Definition repository (listing : jsstring) (st : Z) (content : jsval)
  : nat -> jsval -> http_outcome :=
  fun _ url =>
    if is_string (js "https://api.github.com/repos/Ansh7473/UNION-AUTO_BOT/contents/") url
    then Responded {| status := 200; data := axios_data listing |}
    else Responded {| status := st; data := content |}.

(** The items of a list of changes. *)
Definition change_items (c : jsval) : list jsval :=
  match c with
  | VArray items => items
  | _ => []
  end.

(** The table row lines 137-138 make of a descriptor. *)
Definition row_of (d : descriptor) : table_row :=
  (version d, update_date d, change_items (changes d)).

(** What [formatVersionChanges] prints for descriptors with lists of
    changes. *)
Definition table_of (versions : list descriptor) : list event :=
  [Log MsgAvailableUpdates; Log (MsgTable (map row_of versions)); Log MsgBlank].

(** The announcement of a new version down to the question. *)
Definition offer (versions : list descriptor) (latest : descriptor) : list event :=
  Log (MsgNewVersion (version latest)) :: table_of versions ++ [Question PromptUpdate].

(** A descriptor whose version is not a string: the feed entry had no
    [VERSION], or one of another type. *)
Definition unversioned (d : descriptor) : Prop :=
  forall s, version d <> VString s.

(** A descriptor whose version starts with three integers that a
    JavaScript number holds exactly. *)
Definition numbered (d : descriptor) : Prop :=
  exists t, version_triple (version d) = Some t /\ safe t.

(** Whether [latest] is newer than [current], compared left to right on
    the components both have. *)
Fixpoint newer_on_common (current latest : list Z) : bool :=
  match current, latest with
  | c :: cs, l :: ls =>
      if c <? l then true
      else if l <? c then false
      else newer_on_common cs ls
  | _, _ => false
  end.

(** A feed whose first entry has no [VERSION]. *)
Definition feed_unversioned : jsstring :=
  jsq "[{'UPDATE_DATE':'2025-07-02','CHANGES':['usdc']},
        {'VERSION':'1.2.0','UPDATE_DATE':'2025-07-02','CHANGES':['fixes']}]".

(** A feed whose newest release has no [CHANGES]. *)
Definition feed_unchanged : jsstring :=
  jsq "[{'VERSION':'1.2.0','UPDATE_DATE':'2025-07-02'},
        {'VERSION':'1.0.0','UPDATE_DATE':'2025-06-11','CHANGES':['token menus']}]".

(** A feed whose only release is version 1. *)
Definition feed_short : jsstring :=
  jsq "[{'VERSION':'1','UPDATE_DATE':'2025-06-11','CHANGES':['token menus']}]".

(** The script a token menu launches for a choice; [None] for the
    choices that launch nothing. *)
Definition script_of (node : menu_node) (choice : jsstring) : option jsstring :=
  match node with
  | Root => None
  | SepoliaToHolesky =>
      if bool_decide (choice = js "1") then Some (js "SepoliaToHoleskyEth.js")
      else if bool_decide (choice = js "2") then Some (js "SepoliaToHoleskyLinkTransfer.js")
      else if bool_decide (choice = js "3") then Some (js "SepoliaToHoleskyEurcTransfer.js")
      else if bool_decide (choice = js "4") then Some (js "SepoliaToHoleskyUsdcTransfer.js")
      else None
  | HoleskyToSepolia =>
      if bool_decide (choice = js "1") then Some (js "HoleskyToSepoliaETH.js")
      else if bool_decide (choice = js "2") then Some (js "HoleskyToSepoliaLink.js")
      else if bool_decide (choice = js "3") then Some (js "HoleskyToSepoliaEurc.js")
      else if bool_decide (choice = js "4") then Some (js "HoleskyToSepoliaUsdc.js")
      else None
  end.

(** The eight transfer scripts the menus name. *)
Definition known_scripts : list jsstring :=
  [js "SepoliaToHoleskyEth.js"; js "SepoliaToHoleskyLinkTransfer.js";
   js "SepoliaToHoleskyEurcTransfer.js"; js "SepoliaToHoleskyUsdcTransfer.js";
   js "HoleskyToSepoliaETH.js"; js "HoleskyToSepoliaLink.js";
   js "HoleskyToSepoliaEurc.js"; js "HoleskyToSepoliaUsdc.js"].

(** Console output, questions and timers: the events that reach neither
    the network, nor the files, nor another process. *)
Definition is_print (e : event) : Prop :=
  match e with
  | Clear | Log _ | LogError _ | Question _ | Timeout _ | RlClose => True
  | _ => False
  end.

Definition is_request (e : event) : Prop :=
  match e with HttpGet _ => True | _ => False end.

(** Every child process in [evs] runs a known script and is spawned
    right after the access check of that script. *)
Definition orderly (evs : list event) : Prop :=
  forall before script after,
    evs = before ++ Spawn script :: after ->
    script ∈ known_scripts /\ exists earlier, before = earlier ++ [Access script].

(** The trace grows by events that are [orderly]. *)
Definition launches_orderly (w w' : world) : Prop :=
  exists evs, trace w' = trace w ++ evs /\ orderly evs.

(** [R] as long as every line still to be read satisfies [P], which
    then also holds of the lines left. *)
Definition unless (P : jsstring -> Prop) (R : world -> world -> Prop)
    (w w' : world) : Prop :=
  Forall P (stdin w) -> Forall P (stdin w') /\ R w w'.

(** The trace grows by events that satisfy [P] and no local file
    changes. *)
Definition quietly (P : event -> Prop) (w w' : world) : Prop :=
  extends_by P w w' /\ files w' = files w.

(** A line that does not ask for the update check, and one that does not
    accept the update. *)
Definition not_three (line : jsstring) : Prop := trim line <> js "3".
Definition not_yes (line : jsstring) : Prop :=
  trim line <> js "y" /\ trim line <> js "Y".

(** Events that stay on this machine, and events that at most read the
    version file. *)
Definition local_event (e : event) : Prop := ~ is_request e /\ ~ is_write e.
Definition reads_versions_only (e : event) : Prop :=
  ~ is_write e /\ forall url, e = HttpGet url -> url = versions_url.

(** The last two things the launcher does before it exits with
    status 0. *)
Definition farewell : list event := [Log MsgGoodbye; RlClose].

(** An end that is in order for code started in the world [w]: a value,
    a question that waits for its answer, or status 0 right after the
    farewell.  A thrown error is in order inside a [try] ([may_throw]);
    outside of one it is, like an unhandled rejection, only possible
    when the input has ended. *)
Definition outcome_ok {A} (may_throw : bool) (w : world) (r : result A) (w' : world)
  : Prop :=
  match r with
  | Val _ => True
  | Throw _ => may_throw = true \/ stdin_ended w = true
  | Halt Blocked => True
  | Halt OutOfFuel => True
  | Halt (UnhandledRejection _) => stdin_ended w = true
  | Halt (Exited code) => code = 0 /\ exists evs, trace w' = evs ++ farewell
  end.

(** [m] ends in order and leaves the state of the input stream as it
    is. *)
Definition tame (may_throw : bool) {A} (m : M A) : Prop :=
  forall w,
    stdin_ended (snd (m w)) = stdin_ended w
    /\ outcome_ok may_throw w (fst (m w)) (snd (m w)).

(** [m] never comes back with a value. *)
Definition never_returns {A} (m : M A) : Prop :=
  forall w a, fst (m w) <> Val a.

(** The descriptor lines 42-46 make of an entry of the feed; a missing
    property is [undefined]. *)
Definition descriptor_of (item : jsval) : descriptor :=
  match item with
  | VObject fields =>
      {| version := lookup_field (js "VERSION") fields;
         update_date := moment_format (lookup_field (js "UPDATE_DATE") fields);
         changes := lookup_field (js "CHANGES") fields |}
  | _ => {| version := VUndefined; update_date := moment_format VUndefined;
            changes := VUndefined |}
  end.

(** The answers of the network, the file system and the scripts are the
    same in both worlds. *)
Definition same_answers (w w' : world) : Prop :=
  http w' = http w /\ access w' = access w /\ write w' = write w /\ child w' = child w.

(** White space in [s] is normalized: the only white space is the
    space, and no two follow each other.  [prev] is the unit before
    [s]. *)
Fixpoint spaced_from (prev : N) (s : jsstring) : bool :=
  match s with
  | [] => true
  | c :: rest =>
      (if is_space c then (c =? 32)%N && negb (is_space prev) else true)
      && spaced_from c rest
  end.

Definition spaced (s : jsstring) : bool := spaced_from 0 s.

(** No comma in [s] stands directly before a closing bracket or
    brace. *)
Fixpoint no_comma_before_close_from (prev : N) (s : jsstring) : bool :=
  match s with
  | [] => true
  | c :: rest =>
      negb ((prev =? 44)%N && ((c =? 93)%N || (c =? 125)%N))
      && no_comma_before_close_from c rest
  end.

Definition no_comma_before_close (s : jsstring) : bool :=
  no_comma_before_close_from 0 s.

End Properties.
Export Properties.

(** ** Version comparison and sorting *)

Section Comparison.

Lemma compare_loop_triple x1 y1 z1 ra x2 y2 z2 rb :
  let c := compare_loop 0 3 (Num x1 :: Num y1 :: Num z1 :: ra)
                            (Num x2 :: Num y2 :: Num z2 :: rb) in
  (positive c = true <-> lex_lt (x1, y1, z1) (x2, y2, z2))
  /\ (c = Num 0 <-> (x1, y1, z1) = (x2, y2, z2)).
Proof.
  cbn.
  destruct (Z.eqb_spec x1 x2) as [->|Hx]; cbn.
  - destruct (Z.eqb_spec y1 y2) as [->|Hy]; cbn.
    + destruct (Z.eqb_spec z1 z2) as [->|Hz]; cbn.
      * split; [split; [discriminate | lia] | split; auto].
      * rewrite Z.ltb_lt. split; [lia|]. split; intros H; inversion H; lia.
    + rewrite Z.ltb_lt. split; [lia|]. split; intros H; inversion H; lia.
  - rewrite Z.ltb_lt. split; [lia|]. split; intros H; inversion H; lia.
Qed.

Lemma isLatest_triple x1 y1 z1 ra x2 y2 z2 rb :
  isLatest (Num x1 :: Num y1 :: Num z1 :: ra) (Num x2 :: Num y2 :: Num z2 :: rb) = true
  <-> lex_le (x2, y2, z2) (x1, y1, z1).
Proof.
  unfold isLatest, lex_le. cbn.
  destruct (Z.ltb_spec x1 x2); [split; [discriminate | intros [?|[=]]; lia]|].
  destruct (Z.ltb_spec x2 x1); [split; [left; lia | auto]|].
  destruct (Z.ltb_spec y1 y2); [split; [discriminate | intros [?|[=]]; lia]|].
  destruct (Z.ltb_spec y2 y1); [split; [left; lia | auto]|].
  destruct (Z.ltb_spec z1 z2); [split; [discriminate | intros [?|[=]]; lia]|].
  destruct (Z.ltb_spec z2 z1); [split; [left; lia | auto]|].
  split; auto. intros _. right. f_equal; [f_equal|]; lia.
Qed.

Lemma lex_le_trans p q r : lex_le p q -> lex_le q r -> lex_le p r.
Proof.
  destruct p as [[x1 y1] z1], q as [[x2 y2] z2], r as [[x3 y3] z3].
  unfold lex_le, lex_lt.
  intros [Hpq|Hpq] [Hqr|Hqr]; try injection Hpq as -> -> ->;
    try injection Hqr as -> -> ->; auto; left; lia.
Qed.

Lemma lex_total p q : lex_lt p q \/ lex_le q p.
Proof.
  destruct p as [[x1 y1] z1], q as [[x2 y2] z2]. unfold lex_le, lex_lt.
  destruct (Z.lt_trichotomy x1 x2) as [?|[->|?]]; [lia| |lia].
  destruct (Z.lt_trichotomy y1 y2) as [?|[->|?]]; [lia| |lia].
  destruct (Z.lt_trichotomy z1 z2) as [?|[->|?]]; [lia| |lia].
  right. right. reflexivity.
Qed.

Lemma lex_lt_not_le p q : lex_lt p q -> ~ lex_le q p.
Proof.
  destruct p as [[x1 y1] z1], q as [[x2 y2] z2]. unfold lex_le, lex_lt.
  intros H [H'|[=]]; lia.
Qed.

(** The parts of a version whose triple is known. *)
Lemma version_triple_parts v t :
  version_triple v = Some t ->
  exists x y z more,
    t = (x, y, z) /\ version_parts v = inr (Num x :: Num y :: Num z :: more).
Proof.
  unfold version_triple. destruct (version_parts v) as [e|parts]; [discriminate|].
  destruct parts as [|[|x] [|[|y] [|[|z] more]]]; try discriminate.
  intros [= <-]. eauto 6.
Qed.

(** On descriptors with a triple the comparator asks for a swap exactly
    when its first argument is the older one. *)
Lemma compare_versions_triple a b ta tb :
  version_triple (version a) = Some ta ->
  version_triple (version b) = Some tb ->
  exists c, compare_versions a b = inr c
            /\ (positive c = true <-> lex_lt ta tb)
            /\ (c = Num 0 <-> ta = tb).
Proof.
  intros Ha Hb.
  destruct (version_triple_parts _ _ Ha) as (x1 & y1 & z1 & ra & -> & Hpa).
  destruct (version_triple_parts _ _ Hb) as (x2 & y2 & z2 & rb & -> & Hpb).
  unfold compare_versions. rewrite Hpa, Hpb.
  eexists. split; [reflexivity|]. apply compare_loop_triple.
Qed.

Lemma insert_sorted_correct x sorted :
  has_triple x -> Forall has_triple sorted ->
  StronglySorted newer_or_same sorted ->
  exists placed,
    insert_sorted compare_versions x sorted = inr placed
    /\ Permutation (x :: sorted) placed
    /\ StronglySorted newer_or_same placed.
Proof.
  intros [tx Hx] Hall Hsorted.
  induction sorted as [|y rest IH]; cbn [insert_sorted].
  - exists [x]. repeat split; auto. repeat constructor.
  - inversion Hall as [|? ? Hty Hrest]; subst. destruct Hty as [ty Hy].
    inversion Hsorted as [|? ? Hsrest Hyrest]; subst.
    destruct (compare_versions_triple x y tx ty Hx Hy) as (c & -> & Hpos & _).
    destruct (positive c) eqn:Hc.
    + destruct (IH Hrest Hsrest) as (placed & -> & Hperm & Hsp).
      exists (y :: placed). split; [reflexivity|]. split.
      * rewrite perm_swap. constructor. exact Hperm.
      * constructor; [exact Hsp|].
        eapply Permutation_Forall; [exact Hperm|].
        constructor; [|exact Hyrest].
        exists ty, tx. repeat split; auto. left. apply Hpos. reflexivity.
    + exists (x :: y :: rest). split; [reflexivity|]. split; [reflexivity|].
      assert (Hxy : lex_le ty tx).
      { destruct (lex_total tx ty) as [Hlt|Hle]; [|exact Hle].
        apply Hpos in Hlt. congruence. }
      constructor; [exact Hsorted|].
      constructor.
      * exists tx, ty. auto.
      * eapply Forall_impl; [exact Hyrest|].
        intros r (ty' & tr & Hy' & Hr & Hle). exists tx, tr.
        repeat split; auto. rewrite Hy in Hy'. injection Hy' as <-.
        eapply lex_le_trans; eassumption.
Qed.

Lemma array_sort_correct l :
  Forall has_triple l ->
  exists sorted,
    array_sort compare_versions l = inr sorted
    /\ Permutation l sorted
    /\ StronglySorted newer_or_same sorted.
Proof.
  induction l as [|x rest IH]; intros Hall; cbn [array_sort].
  - exists []. repeat split; auto. constructor.
  - inversion Hall as [|? ? Hx Hrest]; subst.
    destruct (IH Hrest) as (sorted & -> & Hperm & Hs).
    destruct (insert_sorted_correct x sorted Hx) as (placed & Hp & Hperm' & Hs'); auto.
    + eapply Permutation_Forall; eassumption.
    + exists placed. split; [exact Hp|]. split; [|exact Hs'].
      etransitivity; [|exact Hperm']. constructor. exact Hperm.
Qed.

End Comparison.

(** ** Relations that every step of the launcher respects *)

(** [R] is closed under the four ways in which the code changes the world:
    an event that is [allowed], an answer taken from the environment, a
    line read, and a write to a [writable] file. *)
Class Stepwise (R : world -> world -> Prop)
    (allowed : event -> Prop) (writable : jsstring -> Prop) : Prop := {
  stepwise_refl : forall w, R w w;
  stepwise_trans : forall w1 w2 w3, R w1 w2 -> R w2 w3 -> R w1 w3;
  stepwise_emit : forall e w, allowed e -> R w (emit e w);
  stepwise_answered : forall w, R w (answered w);
  stepwise_read : forall w line later,
    stdin w = line :: later -> R w (with_stdin later w);
  stepwise_write : forall w path content,
    writable path -> R w (with_files (<[path := content]> (files w)) w)
}.

#[export] Instance extends_by_stepwise (P : event -> Prop) :
  Stepwise (extends_by P) P (fun _ => True).
Proof.
  split; unfold extends_by.
  - intros w. exists []. rewrite app_nil_r. auto.
  - intros w1 w2 w3 (e1 & H1 & F1) (e2 & H2 & F2). exists (e1 ++ e2).
    rewrite H2, H1, app_assoc. split; [reflexivity|]. apply Forall_app; auto.
  - intros e w He. exists [e]. split; [reflexivity|]. repeat constructor; auto.
  - intros w. exists []. cbn. rewrite app_nil_r. auto.
  - intros w line later _. exists []. cbn. rewrite app_nil_r. auto.
  - intros w path content _. exists []. cbn. rewrite app_nil_r. auto.
Qed.

#[export] Instance reads_on_stepwise :
  Stepwise reads_on (fun _ => True) (fun _ => True).
Proof.
  split; unfold reads_on; cbn.
  - intros w. split; [exists []|]; reflexivity.
  - intros w1 w2 w3 [[t1 H1] E1] [[t2 H2] E2]. split; [|congruence].
    exists (t1 ++ t2). rewrite H1, H2, app_assoc. reflexivity.
  - intros e w _. split; [exists []|]; reflexivity.
  - intros w. split; [exists []|]; reflexivity.
  - intros w line later H. split; [exists [line]; exact H | reflexivity].
  - intros w path content _. split; [exists []|]; reflexivity.
Qed.

Section Preservation.

Context {R : world -> world -> Prop} {allowed : event -> Prop}
        {writable : jsstring -> Prop} `{!Stepwise R allowed writable}.

Lemma preserves_mret {A} (a : A) : preserves R (mret a : M A).
Proof. intros w. apply stepwise_refl. Qed.

Lemma preserves_throw {A} e : preserves R (throw e : M A).
Proof. intros w. apply stepwise_refl. Qed.

Lemma preserves_stop {A} h : preserves R (stop h : M A).
Proof. intros w. apply stepwise_refl. Qed.

Lemma preserves_bind {A B} (m : M A) (f : A -> M B) :
  preserves R m -> (forall a, preserves R (f a)) -> preserves R (m ≫= f).
Proof.
  intros Hm Hf w. specialize (Hm w). unfold mbind, M_bind.
  destruct (m w) as [[a|e|h] w1]; cbn in *; auto.
  eapply stepwise_trans; [exact Hm | apply Hf].
Qed.

Lemma preserves_bind_mret {A B} (a : A) (f : A -> M B) :
  preserves R (f a) -> preserves R (mret a ≫= f).
Proof. intros H w. exact (H w). Qed.

Lemma preserves_bind_throw {A B} e (f : A -> M B) :
  preserves R (throw e ≫= f).
Proof. intros w. apply stepwise_refl. Qed.

Lemma preserves_try_catch {A} (body : M A) handler :
  preserves R body -> (forall e, preserves R (handler e)) ->
  preserves R (try_catch body handler).
Proof.
  intros Hm Hf w. specialize (Hm w). unfold try_catch.
  destruct (body w) as [[a|e|h] w1]; cbn in *; auto.
  eapply stepwise_trans; [exact Hm | apply Hf].
Qed.

Lemma preserves_detach {A} (m : M A) : preserves R m -> preserves R (detach m).
Proof.
  intros Hm w. specialize (Hm w). unfold detach.
  destruct (m w) as [[a|e|h] w1]; cbn in *; auto.
Qed.

Lemma preserves_console_log m : allowed (Log m) -> preserves R (console_log m).
Proof. intros H w. apply stepwise_emit, H. Qed.

Lemma preserves_console_error m :
  allowed (LogError m) -> preserves R (console_error m).
Proof. intros H w. apply stepwise_emit, H. Qed.

Lemma preserves_console_clear : allowed Clear -> preserves R console_clear.
Proof. intros H w. apply stepwise_emit, H. Qed.

Lemma preserves_rl_close : allowed RlClose -> preserves R rl_close.
Proof. intros H w. apply stepwise_emit, H. Qed.

Lemma preserves_process_exit {A} code : preserves R (process_exit code : M A).
Proof. apply preserves_stop. Qed.

Lemma preserves_setTimeout {A} (callback : M A) ms :
  allowed (Timeout ms) -> preserves R callback ->
  preserves R (setTimeout callback ms).
Proof.
  intros H Hc w. unfold setTimeout.
  eapply stepwise_trans; [apply stepwise_emit, H | apply (preserves_detach _ Hc)].
Qed.

Lemma preserves_axios_get url : allowed (HttpGet url) -> preserves R (axios_get url).
Proof.
  intros H w. unfold axios_get.
  assert (R w (answered (emit (HttpGet url) w))).
  { eapply stepwise_trans; [apply stepwise_emit, H | apply stepwise_answered]. }
  destruct (http w (asked w) url); exact H0.
Qed.

Lemma preserves_fs_access path : allowed (Access path) -> preserves R (fs_access path).
Proof.
  intros H w. unfold fs_access.
  assert (R w (answered (emit (Access path) w))).
  { eapply stepwise_trans; [apply stepwise_emit, H | apply stepwise_answered]. }
  destruct (access w (asked w) path); exact H0.
Qed.

Lemma preserves_fs_writeFile path content :
  allowed (WriteFile path content) -> writable path ->
  preserves R (fs_writeFile path content).
Proof.
  intros H Hw w. unfold fs_writeFile.
  assert (R w (answered (emit (WriteFile path content) w))).
  { eapply stepwise_trans; [apply stepwise_emit, H | apply stepwise_answered]. }
  destruct (write w (asked w) path); cbn; [exact H0|].
  eapply stepwise_trans; [exact H0|].
  apply (stepwise_write (answered (emit (WriteFile path content) w))), Hw.
Qed.

Lemma preserves_spawn_node script :
  allowed (Spawn script) -> preserves R (spawn_node script).
Proof.
  intros H w. unfold spawn_node.
  destruct (child w (asked w) script); cbn.
  - apply stepwise_answered.
  - eapply stepwise_trans; [apply stepwise_emit, H | apply stepwise_answered].
Qed.

Lemma preserves_getUserInput p :
  allowed (Question p) -> preserves R (getUserInput p).
Proof.
  intros H w. unfold getUserInput.
  destruct (stdin w) as [|line later] eqn:Hin; cbn.
  - destruct (stdin_ended w); cbn; [apply stepwise_refl | apply stepwise_emit, H].
  - eapply stepwise_trans; [apply stepwise_emit, H|].
    apply (stepwise_read (emit (Question p) w) line later). exact Hin.
Qed.

Lemma preserves_lift {A} (r : jserror + A) : preserves R (lift r).
Proof. destruct r; [apply preserves_throw | apply preserves_mret]. Qed.

Lemma preserves_get_prop v key : preserves R (get_prop v key).
Proof. destruct v; first [apply preserves_throw | apply preserves_mret]. Qed.

Lemma preserves_interpolate v : preserves R (interpolate v).
Proof.
  unfold interpolate. destruct (printable v); [apply preserves_mret | apply preserves_throw].
Qed.

Lemma preserves_path_join v : preserves R (path_join v).
Proof. intros w. unfold path_join. destruct v; apply stepwise_refl. Qed.

Lemma preserves_each {A B} (f : A -> M B) l :
  (forall x, preserves R (f x)) -> preserves R (each f l).
Proof.
  intros Hf. induction l as [|x rest IH]; cbn [each].
  - apply preserves_mret.
  - apply preserves_bind; [apply Hf|]. intros y.
    apply preserves_bind; [exact IH|]. intros ys. apply preserves_mret.
Qed.

Lemma preserves_array_map {B} receiver (f : jsval -> M B) :
  (forall x, preserves R (f x)) -> preserves R (array_map receiver f).
Proof.
  intros Hf. destruct receiver; try apply preserves_throw.
  apply preserves_each, Hf.
Qed.

Lemma preserves_keep p l :
  (forall x, preserves R (p x)) -> preserves R (keep p l).
Proof.
  intros Hp. induction l as [|x rest IH]; cbn [keep].
  - apply preserves_mret.
  - apply preserves_bind; [apply Hp|]. intros b.
    apply preserves_bind; [exact IH|]. intros ys. apply preserves_mret.
Qed.

Lemma preserves_array_filter receiver p :
  (forall x, preserves R (p x)) -> preserves R (array_filter receiver p).
Proof.
  intros Hp. destruct receiver; try apply preserves_throw.
  apply preserves_keep, Hp.
Qed.

End Preservation.

(** One step of a preservation proof: split the code at its outermost
    construct.  What is left are the [allowed] and [writable] conditions
    of the events on the way. *)
Ltac preserve_step :=
  match goal with
  | |- preserves _ (mbind _ (mret _)) => apply preserves_bind_mret
  | |- preserves _ (mbind _ (throw _)) => apply preserves_bind_throw
  | |- preserves _ (mbind _ _) => apply preserves_bind; [|intros ?]
  | |- preserves _ (try_catch _ _) => apply preserves_try_catch; [|intros ?]
  | |- preserves _ (detach _) => apply preserves_detach
  | |- preserves _ (mret _) => apply preserves_mret
  | |- preserves _ (throw _) => apply preserves_throw
  | |- preserves _ (stop _) => apply preserves_stop
  | |- preserves _ (process_exit _) => apply preserves_process_exit
  | |- preserves _ (lift _) => apply preserves_lift
  | |- preserves _ (get_prop _ _) => apply preserves_get_prop
  | |- preserves _ (interpolate _) => apply preserves_interpolate
  | |- preserves _ (path_join _) => apply preserves_path_join
  | |- preserves _ (console_log _) => apply preserves_console_log
  | |- preserves _ (console_error _) => apply preserves_console_error
  | |- preserves _ console_clear => apply preserves_console_clear
  | |- preserves _ rl_close => apply preserves_rl_close
  | |- preserves _ (setTimeout _ _) => apply preserves_setTimeout
  | |- preserves _ (axios_get _) => apply preserves_axios_get
  | |- preserves _ (fs_access _) => apply preserves_fs_access
  | |- preserves _ (fs_writeFile _ _) => apply preserves_fs_writeFile
  | |- preserves _ (spawn_node _) => apply preserves_spawn_node
  | |- preserves _ (getUserInput _) => apply preserves_getUserInput
  | |- preserves _ (each _ _) => apply preserves_each; intros ?
  | |- preserves _ (array_map _ _) => apply preserves_array_map; intros ?
  | |- preserves _ (array_filter _ _) => apply preserves_array_filter; intros ?
  | |- preserves _ (if ?b then _ else _) => destruct b
  | |- preserves _ (match ?x with _ => _ end) => destruct x
  end.

Ltac preserve := repeat preserve_step.

(** ** What the functions of the launcher preserve *)

Section Programs.

Context {R : world -> world -> Prop} {allowed : event -> Prop}
        {writable : jsstring -> Prop} `{!Stepwise R allowed writable}.

Hypothesis allowed_routine : forall e, routine e -> allowed e.

Ltac routinely := preserve; try (apply allowed_routine; exact I).

Lemma preserves_version_entry v : preserves R (version_entry v).
Proof. unfold version_entry. preserve. Qed.

Lemma preserves_fetchVersionsJson : preserves R fetchVersionsJson.
Proof. unfold fetchVersionsJson. routinely. apply preserves_version_entry. Qed.

Lemma preserves_fetchRepoFiles : preserves R fetchRepoFiles.
Proof. unfold fetchRepoFiles. routinely. Qed.

Lemma preserves_formatVersionChanges versions :
  preserves R (formatVersionChanges versions).
Proof. unfold formatVersionChanges. routinely. Qed.

Lemma preserves_report_unable : preserves R report_unable.
Proof. unfold report_unable. routinely. Qed.

Lemma preserves_report_check_error e : preserves R (report_check_error e).
Proof. unfold report_check_error. routinely. Qed.

Hypothesis allowed_write : forall path content,
  writable path -> allowed (WriteFile path content).
Hypothesis writable_any : forall path, writable path.

Lemma preserves_downloadFile file : preserves R (downloadFile file).
Proof. unfold downloadFile. routinely; auto. Qed.

Lemma preserves_updateFiles : preserves R updateFiles.
Proof.
  unfold updateFiles. preserve; try (apply allowed_routine; exact I).
  - apply preserves_fetchRepoFiles.
  - apply preserves_downloadFile.
Qed.

Hypothesis allowed_offer : allowed (Question PromptUpdate).

Lemma preserves_offer_update versions latest :
  preserves R (offer_update versions latest).
Proof.
  unfold offer_update. preserve; try (apply allowed_routine; exact I); auto.
  - apply preserves_formatVersionChanges.
  - apply preserves_updateFiles.
Qed.

Hypothesis allowed_latest : forall v, allowed (Log (MsgLatest v)).

Lemma preserves_report_latest : preserves R report_latest.
Proof. unfold report_latest. routinely. apply allowed_latest. Qed.

Lemma preserves_checkVersion : preserves R checkVersion.
Proof.
  unfold checkVersion, first_version.
  preserve; try (apply allowed_routine; exact I).
  - apply preserves_fetchVersionsJson.
  - apply preserves_report_unable.
  - apply preserves_offer_update.
  - apply preserves_report_latest.
  - apply preserves_report_check_error.
Qed.

Lemma preserves_runScript mainMenu scriptName :
  preserves R mainMenu -> preserves R (runScript mainMenu scriptName).
Proof. intros Hk. unfold runScript. routinely; exact Hk. Qed.

Lemma preserves_displayBanner : preserves R displayBanner.
Proof. unfold displayBanner. routinely. Qed.

Lemma preserves_displayMainMenu : preserves R displayMainMenu.
Proof. unfold displayMainMenu. routinely. Qed.

Lemma preserves_displayTokens title :
  routine (Log title) -> preserves R (displayTokens title).
Proof. intros Ht. unfold displayTokens. routinely. apply allowed_routine, Ht. Qed.

Lemma preserves_show fuel node : preserves R (show fuel node).
Proof.
  revert node. induction fuel as [|fuel IH]; intros node; cbn [show].
  - apply preserves_stop.
  - destruct node;
      unfold mainMenu_body, sepoliaToHoleskyMenu_body, holeskyToSepoliaMenu_body,
        mainMenu_choice, sepoliaToHoleskyMenu_choice, holeskyToSepoliaMenu_choice;
      preserve;
      first [ apply allowed_routine; exact I
            | apply IH
            | apply preserves_runScript, IH
            | apply preserves_displayBanner
            | apply preserves_displayMainMenu
            | apply preserves_displayTokens; exact I
            | apply preserves_checkVersion ].
Qed.

Lemma preserves_main : preserves R main.
Proof.
  intros w. unfold main.
  assert (H : preserves R
    (console_log MsgStarting;;
     try_catch (mainMenu (enough_fuel w))
               (fun err => console_error (MsgFatal err);; process_exit 1))).
  { preserve; try (apply allowed_routine; exact I). apply preserves_show. }
  apply H.
Qed.

End Programs.

(** ** The fuel of the menus is enough *)

Lemma budget_mret {A} (a : A) : within_budget (mret a : M A).
Proof. intros w. discriminate. Qed.

Lemma budget_throw {A} e : within_budget (throw e : M A).
Proof. intros w. discriminate. Qed.

Lemma budget_process_exit {A} code : within_budget (process_exit code : M A).
Proof. intros w. discriminate. Qed.

Lemma budget_bind {A B} (m : M A) (f : A -> M B) :
  within_budget m -> (forall a, within_budget (f a)) -> within_budget (m ≫= f).
Proof.
  intros Hm Hf w. specialize (Hm w). unfold mbind, M_bind.
  destruct (m w) as [[a|e|h] w1]; cbn in *;
    [apply Hf | discriminate | intros [= ->]; apply Hm; reflexivity].
Qed.

Lemma budget_bind_mret {A B} (a : A) (f : A -> M B) :
  within_budget (f a) -> within_budget (mret a ≫= f).
Proof. intros H w. exact (H w). Qed.

Lemma budget_bind_throw {A B} e (f : A -> M B) : within_budget (throw e ≫= f).
Proof. intros w. discriminate. Qed.

Lemma budget_try_catch {A} (body : M A) handler :
  within_budget body -> (forall e, within_budget (handler e)) ->
  within_budget (try_catch body handler).
Proof.
  intros Hm Hf w. specialize (Hm w). unfold try_catch.
  destruct (body w) as [[a|e|h] w1]; cbn in *; [discriminate | apply Hf | exact Hm].
Qed.

Lemma budget_console_log m : within_budget (console_log m).
Proof. intros w. discriminate. Qed.

Lemma budget_axios_get url : within_budget (axios_get url).
Proof. intros w. unfold axios_get. destruct (http w (asked w) url); discriminate. Qed.

Lemma budget_fs_writeFile path content : within_budget (fs_writeFile path content).
Proof.
  intros w. unfold fs_writeFile. destruct (write w (asked w) path); discriminate.
Qed.

Lemma budget_getUserInput p : within_budget (getUserInput p).
Proof.
  intros w. unfold getUserInput.
  destruct (stdin w); [destruct (stdin_ended w)|]; discriminate.
Qed.

Lemma budget_lift {A} (r : jserror + A) : within_budget (lift r).
Proof. destruct r; intros w; discriminate. Qed.

Lemma budget_get_prop v key : within_budget (get_prop v key).
Proof. destruct v; intros w; discriminate. Qed.

Lemma budget_interpolate v : within_budget (interpolate v).
Proof. unfold interpolate. destruct (printable v); intros w; discriminate. Qed.

Lemma budget_path_join v : within_budget (path_join v).
Proof. intros w. unfold path_join. destruct v; discriminate. Qed.

Lemma budget_each {A B} (f : A -> M B) l :
  (forall x, within_budget (f x)) -> within_budget (each f l).
Proof.
  intros Hf. induction l as [|x rest IH]; cbn [each].
  - apply budget_mret.
  - apply budget_bind; [apply Hf|]. intros y.
    apply budget_bind; [exact IH|]. intros ys. apply budget_mret.
Qed.

Lemma budget_array_map {B} receiver (f : jsval -> M B) :
  (forall x, within_budget (f x)) -> within_budget (array_map receiver f).
Proof.
  intros Hf. destruct receiver; try apply budget_throw. apply budget_each, Hf.
Qed.

Lemma budget_keep p l :
  (forall x, within_budget (p x)) -> within_budget (keep p l).
Proof.
  intros Hp. induction l as [|x rest IH]; cbn [keep].
  - apply budget_mret.
  - apply budget_bind; [apply Hp|]. intros b.
    apply budget_bind; [exact IH|]. intros ys. apply budget_mret.
Qed.

Lemma budget_array_filter receiver p :
  (forall x, within_budget (p x)) -> within_budget (array_filter receiver p).
Proof.
  intros Hp. destruct receiver; try apply budget_throw. apply budget_keep, Hp.
Qed.

Ltac budget_step :=
  match goal with
  | |- within_budget (mbind _ (mret _)) => apply budget_bind_mret
  | |- within_budget (mbind _ (throw _)) => apply budget_bind_throw
  | |- within_budget (mbind _ _) => apply budget_bind; [|intros ?]
  | |- within_budget (try_catch _ _) => apply budget_try_catch; [|intros ?]
  | |- within_budget (mret _) => apply budget_mret
  | |- within_budget (throw _) => apply budget_throw
  | |- within_budget (lift _) => apply budget_lift
  | |- within_budget (get_prop _ _) => apply budget_get_prop
  | |- within_budget (interpolate _) => apply budget_interpolate
  | |- within_budget (path_join _) => apply budget_path_join
  | |- within_budget (console_log _) => apply budget_console_log
  | |- within_budget (axios_get _) => apply budget_axios_get
  | |- within_budget (fs_writeFile _ _) => apply budget_fs_writeFile
  | |- within_budget (getUserInput _) => apply budget_getUserInput
  | |- within_budget (each _ _) => apply budget_each; intros ?
  | |- within_budget (array_map _ _) => apply budget_array_map; intros ?
  | |- within_budget (array_filter _ _) => apply budget_array_filter; intros ?
  | |- within_budget (if ?b then _ else _) => destruct b
  | |- within_budget (match ?x with _ => _ end) => destruct x
  end.

Ltac budget := repeat budget_step.

Lemma budget_checkVersion : within_budget checkVersion.
Proof.
  unfold checkVersion, first_version, report_unable, report_latest, offer_update,
    report_check_error, updateFiles, formatVersionChanges, fetchVersionsJson,
    fetchRepoFiles, version_entry.
  budget.
  all: unfold downloadFile; budget.
Qed.

(** Code within budget that only reads on is fueled for any number of
    lines. *)
Lemma fueled_of_budget {A} (m : M A) n :
  within_budget m -> preserves reads_on m -> fueled n m.
Proof.
  intros Hb Hr w _. split; [apply Hb|].
  destruct (Hr w) as [[taken Htaken] _]. rewrite Htaken, length_app. lia.
Qed.

Lemma fueled_detach {A} (m : M A) n : fueled n m -> fueled n (detach m).
Proof.
  intros Hm w Hw. specialize (Hm w Hw). unfold detach.
  destruct (m w) as [[a|e|h] w1]; cbn in *; destruct Hm as [Hok Hlen];
    (split; [|exact Hlen]); try discriminate.
  intros [= ->]. apply Hok. reflexivity.
Qed.

Lemma fueled_bind {A B} (m : M A) (f : A -> M B) n :
  fueled n m -> (forall a, fueled n (f a)) -> fueled n (m ≫= f).
Proof.
  intros Hm Hf w Hw. destruct (Hm w Hw) as [Hok Hlen]. unfold mbind, M_bind.
  destruct (m w) as [[a|e|h] w1]; cbn in *;
    [|split; [discriminate | exact Hlen]
     |split; [intros [= ->]; apply Hok; reflexivity | exact Hlen]].
  destruct (Hf a w1) as [Hok' Hlen']; [lia|]. split; [exact Hok' | lia].
Qed.

Lemma fueled_try_catch {A} (body : M A) handler n :
  fueled n body -> (forall e, fueled n (handler e)) ->
  fueled n (try_catch body handler).
Proof.
  intros Hm Hf w Hw. destruct (Hm w Hw) as [Hok Hlen]. unfold try_catch.
  destruct (body w) as [[a|e|h] w1]; cbn in *; [split; [discriminate | exact Hlen]
                                              | |split; [exact Hok | exact Hlen]].
  destruct (Hf e w1) as [Hok' Hlen']; [lia|]. split; [exact Hok' | lia].
Qed.


Lemma fueled_quiet {A} (m : M A) n :
  (forall w, fst (m w) <> Halt OutOfFuel /\ stdin (snd (m w)) = stdin w) ->
  fueled n m.
Proof. intros H w _. destruct (H w) as [Hok ->]. split; [exact Hok | lia]. Qed.

Lemma fueled_console_log m n : fueled n (console_log m).
Proof. apply fueled_quiet. intros w. split; [discriminate | reflexivity]. Qed.

Lemma fueled_console_error m n : fueled n (console_error m).
Proof. apply fueled_quiet. intros w. split; [discriminate | reflexivity]. Qed.

Lemma fueled_console_clear n : fueled n console_clear.
Proof. apply fueled_quiet. intros w. split; [discriminate | reflexivity]. Qed.

Lemma fueled_rl_close n : fueled n rl_close.
Proof. apply fueled_quiet. intros w. split; [discriminate | reflexivity]. Qed.

Lemma fueled_process_exit {A} code n : fueled n (process_exit code : M A).
Proof. apply fueled_quiet. intros w. split; [discriminate | reflexivity]. Qed.

Lemma fueled_fs_access path n : fueled n (fs_access path).
Proof.
  apply fueled_quiet. intros w. unfold fs_access.
  destruct (access w (asked w) path); split; first [discriminate | reflexivity].
Qed.

Lemma fueled_spawn_node path n : fueled n (spawn_node path).
Proof.
  apply fueled_quiet. intros w. unfold spawn_node.
  destruct (child w (asked w) path); split; first [discriminate | reflexivity].
Qed.

Lemma fueled_getUserInput p n : fueled n (getUserInput p).
Proof.
  intros w _. unfold getUserInput.
  destruct (stdin w) as [|line later] eqn:Hin; [destruct (stdin_ended w)|];
    cbn; rewrite ?Hin; split; first [discriminate | cbn; lia].
Qed.

(** A question takes a line: what follows it needs one menu less. *)
Lemma fueled_ask {B} p (f : jsstring -> M B) n :
  (forall a, fueled n (f a)) -> fueled (S n) (getUserInput p ≫= f).
Proof.
  intros Hf w Hw. unfold mbind, M_bind, getUserInput.
  destruct (stdin w) as [|line later] eqn:Hin; [destruct (stdin_ended w)|].
  - cbn. rewrite Hin. split; [discriminate | cbn; lia].
  - cbn. rewrite Hin. split; [discriminate | cbn; lia].
  - set (w1 := with_stdin later _).
    destruct (Hf (trim line) w1) as [Hok Hlen]; [cbn in *; lia|].
    split; [exact Hok|]. cbn in *. lia.
Qed.

Lemma fueled_setTimeout {A} (m : M A) ms n : fueled n m -> fueled n (setTimeout m ms).
Proof.
  intros Hm w Hw. unfold setTimeout.
  exact (fueled_detach m n Hm (emit (Timeout ms) w) Hw).
Qed.

Lemma fueled_checkVersion n : fueled n checkVersion.
Proof.
  apply fueled_of_budget; [apply budget_checkVersion|].
  apply (preserves_checkVersion (R := reads_on)); intros; exact I.
Qed.

Ltac fuel_step :=
  match goal with
  | |- fueled (S _) (mbind _ (getUserInput _)) => apply fueled_ask; intros ?
  | |- fueled _ (mbind _ _) => apply fueled_bind; [|intros ?]
  | |- fueled _ (try_catch _ _) => apply fueled_try_catch; [|intros ?]
  | |- fueled _ (detach _) => apply fueled_detach
  | |- fueled _ (setTimeout _ _) => apply fueled_setTimeout
  | |- fueled _ (console_log _) => apply fueled_console_log
  | |- fueled _ (console_error _) => apply fueled_console_error
  | |- fueled _ console_clear => apply fueled_console_clear
  | |- fueled _ rl_close => apply fueled_rl_close
  | |- fueled _ (process_exit _) => apply fueled_process_exit
  | |- fueled _ (fs_access _) => apply fueled_fs_access
  | |- fueled _ (spawn_node _) => apply fueled_spawn_node
  | |- fueled _ (getUserInput _) => apply fueled_getUserInput
  | |- fueled _ checkVersion => apply fueled_checkVersion
  | |- fueled _ (if ?b then _ else _) => destruct b
  | |- fueled _ (match ?x with _ => _ end) => destruct x
  end.

Lemma fueled_runScript mainMenu scriptName n :
  fueled n mainMenu -> fueled n (runScript mainMenu scriptName).
Proof. intros Hk. unfold runScript. repeat fuel_step; exact Hk. Qed.

(** A menu shown with more fuel than there are lines to read never stops
    for lack of fuel. *)
Lemma fueled_show n node : fueled n (show n node).
Proof.
  revert node. induction n as [|n IH]; intros node.
  - intros w Hw. lia.
  - destruct node; cbn [show];
      unfold mainMenu_body, sepoliaToHoleskyMenu_body, holeskyToSepoliaMenu_body,
        mainMenu_choice, sepoliaToHoleskyMenu_choice, holeskyToSepoliaMenu_choice,
        displayBanner, displayMainMenu, displayTokens;
      repeat fuel_step;
      first [apply IH | apply fueled_runScript, IH].
Qed.

(** The fuel [main] hands to the first menu is enough in every world:
    the bound on the number of menus is never what ends a run. *)
Lemma main_within_budget : within_budget main.
Proof.
  intros w. unfold main.
  assert (H : fueled (enough_fuel w)
    (console_log MsgStarting;;
     try_catch (mainMenu (enough_fuel w))
               (fun err => console_error (MsgFatal err);; process_exit 1))).
  { unfold mainMenu. repeat fuel_step. apply fueled_show. }
  apply H. unfold enough_fuel. lia.
Qed.

(** ** Running the code *)

Lemma bind_val {A B} (m : M A) (f : A -> M B) w a w1 :
  m w = (Val a, w1) -> (m ≫= f) w = f a w1.
Proof. intros H. unfold mbind, M_bind. rewrite H. reflexivity. Qed.

Lemma new_events_extends {A} (m : M A) w evs :
  trace (snd (m w)) = trace w ++ evs -> new_events m w = evs.
Proof. intros H. unfold new_events. rewrite H. apply drop_app_length. Qed.

Lemma bind_throw {A B} (m : M A) (f : A -> M B) w e w1 :
  m w = (Throw e, w1) -> (m ≫= f) w = (Throw e, w1).
Proof. intros H. unfold mbind, M_bind. rewrite H. reflexivity. Qed.

(** [map] with a callback that returns without touching the world is the
    list function. *)
Lemma each_pure {A B} (f : A -> M B) (g : A -> B) l w :
  Forall (fun x => f x w = (Val (g x), w)) l ->
  each f l w = (Val (map g l), w).
Proof.
  induction 1 as [|x rest Hx _ IH]; [reflexivity|].
  cbn [each map]. rewrite (bind_val _ _ _ _ _ Hx), (bind_val _ _ _ _ _ IH).
  reflexivity.
Qed.

Lemma interpolate_printable v w : printable v = true -> interpolate v w = (Val v, w).
Proof. intros H. unfold interpolate. rewrite H. reflexivity. Qed.

Lemma interpolate_throws v w :
  printable v = false -> exists e, interpolate v w = (Throw e, w).
Proof. intros H. unfold interpolate. rewrite H. eexists. reflexivity. Qed.

Lemma each_interpolate items w :
  forallb printable items = true -> each interpolate items w = (Val items, w).
Proof.
  intros H. rewrite <- (map_id items) at 2. apply each_pure.
  apply List.Forall_forall. intros v Hv.
  apply interpolate_printable. rewrite forallb_forall in H. apply H, Hv.
Qed.

(** A version that is a string has a string conversion. *)
Lemma version_parts_printable v parts : version_parts v = inr parts -> printable v = true.
Proof. destruct v; try discriminate. reflexivity. Qed.

Lemma presentable_changes d :
  presentable d = true ->
  exists items, changes d = VArray items /\ forallb printable items = true
                /\ printable (version d) = true.
Proof.
  unfold presentable. intros [Hc Hv]%andb_prop.
  destruct (changes d); try discriminate. eauto.
Qed.

Lemma row_is_pure d w :
  presentable d = true ->
  (changesStr ← array_map (changes d) interpolate;
   shown ← interpolate (version d);
   mret (shown, update_date d, changesStr)) w
  = (Val (row_of d), w).
Proof.
  intros (items & Hc & Hitems & Hv)%presentable_changes. unfold row_of.
  rewrite Hc. cbn [array_map change_items].
  rewrite (bind_val _ _ _ _ _ (each_interpolate items w Hitems)).
  rewrite (bind_val _ _ _ _ _ (interpolate_printable _ w Hv)). reflexivity.
Qed.

Lemma formatVersionChanges_prints versions w :
  versions <> [] ->
  Forall (fun d => presentable d = true) versions ->
  formatVersionChanges versions w = (Val tt, emit_all (table_of versions) w).
Proof.
  intros Hne Hall. unfold formatVersionChanges.
  rewrite bool_decide_eq_false_2 by (destruct versions; [congruence | discriminate]).
  erewrite bind_val; [reflexivity|].
  apply each_pure. eapply Forall_impl; [exact Hall|].
  intros d Hd. apply row_is_pure, Hd.
Qed.


Lemma try_catch_bind_val {A B} (m : M A) (f : A -> M B) h w a w1 :
  m w = (Val a, w1) -> try_catch (m ≫= f) h w = try_catch (f a) h w1.
Proof. intros H. unfold try_catch, mbind, M_bind. rewrite H. reflexivity. Qed.



Lemma well_formed_has_triple d : well_formed d -> has_triple d.
Proof. intros [(t & Ht & _) _]. exists t. exact Ht. Qed.

Lemma well_formed_presentable d : well_formed d -> presentable d = true.
Proof.
  intros [(t & Ht & _) (items & Hc & Hitems)]. unfold presentable.
  rewrite Hc, Hitems.
  destruct (version_triple_parts _ _ Ht) as (x & y & z & more & _ & Hparts).
  rewrite (version_parts_printable _ _ Hparts). reflexivity.
Qed.

Lemma checkVersion_decides w fetched w1 latest older parts :
  fetchVersionsJson (emit (Log MsgChecking) w) = (Val fetched, w1) ->
  fetched <> [] ->
  array_sort compare_versions fetched = inr (latest :: older) ->
  version_parts (version latest) = inr parts ->
  checkVersion w
  = try_catch (if negb (isLatest [Num 1; Num 0; Num 0] parts)
               then offer_update (latest :: older) latest
               else report_latest)
              report_check_error w1.
Proof.
  intros Hf Hne Hsort Hparts. unfold checkVersion.
  change ((console_log MsgChecking;; ?k) w) with (k (emit (Log MsgChecking) w)).
  rewrite (try_catch_bind_val _ _ _ _ _ _ Hf).
  rewrite bool_decide_eq_false_2 by (destruct fetched; [congruence | discriminate]).
  unfold try_catch at 1. unfold try_catch at 1.
  unfold mbind, M_bind, lift. rewrite Hsort. cbn [first_version mret M_ret].
  rewrite Hparts. reflexivity.
Qed.



(** Local 1.0.0 against the releases 0.9.0 and 1.0.0: up to date, no
    offer. *)
Example checkVersion_up_to_date :
  new_events checkVersion (session [] (serving feed_current))
  = [Log MsgChecking; HttpGet versions_url; Log (MsgLatest CURRENT_VERSION);
     Log MsgPressEnterMain; Question PromptEnter].
Proof. vm_compute. reflexivity. Qed.

(** Local 1.0.0 against a feed with 1.2.0: the update is announced, the
    releases are listed newest first, and the sync is offered. *)
Example checkVersion_update_available :
  new_events checkVersion (session [] (serving feed_newer))
  = [Log MsgChecking; HttpGet versions_url;
     Log (MsgNewVersion (VString (js "1.2.0")));
     Log MsgAvailableUpdates;
     Log (MsgTable
            [(VString (js "1.2.0"), moment_format (VString (js "2025-07-02")),
              [VString (js "usdc"); VString (js "fixes")]);
             (VString (js "1.0.0"), moment_format (VString (js "2025-06-11")),
              [VString (js "token menus")])]);
     Log MsgBlank; Question PromptUpdate].
Proof. vm_compute. reflexivity. Qed.

(** ** Worlds after updates *)

Lemma emit_all_app evs1 evs2 w :
  emit_all (evs1 ++ evs2) w = emit_all evs2 (emit_all evs1 w).
Proof. apply fold_left_app. Qed.

Lemma detach_detach {A} (m : M A) w : detach (detach m) w = detach m w.
Proof. unfold detach. destruct (m w) as [[a|e|h] w1]; reflexivity. Qed.

Lemma show_invalid node fuel w line later :
  invalid_for node line ->
  stdin w = line :: later ->
  show (S fuel) node w
  = detach (show fuel node)
      (with_stdin later (emit_all (screen node ++ complaint) w)).
Proof.
  intros Hinv Hin. unfold invalid_for in Hinv.
  destruct node; cbn [show choices] in *;
    unfold mainMenu_body, sepoliaToHoleskyMenu_body, holeskyToSepoliaMenu_body,
      mainMenu_choice, sepoliaToHoleskyMenu_choice, holeskyToSepoliaMenu_choice,
      displayBanner, displayMainMenu, displayTokens, getUserInput, mbind, M_bind,
      console_clear, console_log; cbn; rewrite Hin;
    repeat (rewrite bool_decide_eq_false_2
              by (intros Heq; apply Hinv; rewrite Heq; set_solver));
    reflexivity.
Qed.

Lemma detach_congr {A} (m m' : M A) w w' :
  m w = m' w' -> detach m w = detach m' w'.
Proof. intros H. unfold detach. rewrite H. reflexivity. Qed.

Lemma emit_all_with_stdin evs lines w :
  emit_all evs (with_stdin lines w) = with_stdin lines (emit_all evs w).
Proof.
  revert w. induction evs as [|e evs IH]; intros w; [reflexivity|].
  cbn [emit_all fold_left]. exact (IH (emit e w)).
Qed.

Lemma trace_emit_all evs w : trace (emit_all evs w) = trace w ++ evs.
Proof.
  revert w. induction evs as [|e evs IH]; intros w; cbn [emit_all fold_left].
  - rewrite app_nil_r. reflexivity.
  - unfold emit_all in IH. rewrite IH. cbn. rewrite <- app_assoc. reflexivity.
Qed.

Lemma stdin_emit_all evs w : stdin (emit_all evs w) = stdin w.
Proof.
  revert w. induction evs as [|e evs IH]; intros w; [reflexivity|].
  cbn [emit_all fold_left]. exact (IH (emit e w)).
Qed.

Lemma stdin_ended_emit_all evs w : stdin_ended (emit_all evs w) = stdin_ended w.
Proof.
  revert w. induction evs as [|e evs IH]; intros w; [reflexivity|].
  cbn [emit_all fold_left]. exact (IH (emit e w)).
Qed.


Lemma emit_all_fields evs w :
  stdin (emit_all evs w) = stdin w
  /\ stdin_ended (emit_all evs w) = stdin_ended w
  /\ files (emit_all evs w) = files w
  /\ asked (emit_all evs w) = asked w
  /\ http (emit_all evs w) = http w
  /\ access (emit_all evs w) = access w
  /\ write (emit_all evs w) = write w
  /\ child (emit_all evs w) = child w.
Proof.
  revert w. induction evs as [|e evs IH]; intros w; [repeat split|].
  cbn [emit_all fold_left]. exact (IH (emit e w)).
Qed.

Lemma files_emit_all evs w : files (emit_all evs w) = files w.
Proof. apply emit_all_fields. Qed.
Lemma asked_emit_all evs w : asked (emit_all evs w) = asked w.
Proof. apply emit_all_fields. Qed.
Lemma http_emit_all evs w : http (emit_all evs w) = http w.
Proof. apply emit_all_fields. Qed.
Lemma access_emit_all evs w : access (emit_all evs w) = access w.
Proof. apply emit_all_fields. Qed.
Lemma write_emit_all evs w : write (emit_all evs w) = write w.
Proof. apply emit_all_fields. Qed.
Lemma child_emit_all evs w : child (emit_all evs w) = child w.
Proof. apply emit_all_fields. Qed.

Lemma emit_all_answered evs w :
  emit_all evs (answered w) = answered (emit_all evs w).
Proof.
  revert w. induction evs as [|e evs IH]; intros w; [reflexivity|].
  cbn [emit_all fold_left]. exact (IH (emit e w)).
Qed.

Lemma answered_with_stdin lines w :
  answered (with_stdin lines w) = with_stdin lines (answered w).
Proof. reflexivity. Qed.

Lemma with_stdin_twice lines lines' w :
  with_stdin lines (with_stdin lines' w) = with_stdin lines w.
Proof. reflexivity. Qed.

Lemma emit_all_twice evs1 evs2 w :
  emit_all evs2 (emit_all evs1 w) = emit_all (evs1 ++ evs2) w.
Proof. symmetry. apply emit_all_app. Qed.

Lemma emit_as_emit_all e w : emit e w = emit_all [e] w.
Proof. reflexivity. Qed.

Lemma http_with_stdin lines w : http (with_stdin lines w) = http w.
Proof. reflexivity. Qed.
Lemma asked_with_stdin lines w : asked (with_stdin lines w) = asked w.
Proof. reflexivity. Qed.
Lemma http_emit e w : http (emit e w) = http w.
Proof. reflexivity. Qed.
Lemma asked_emit e w : asked (emit e w) = asked w.
Proof. reflexivity. Qed.

(** Worlds are brought to the form [with_stdin _ (answered (emit_all _ w))]
    by rewriting, and the environment seen through the updates. *)
Create Rewrite HintDb worlds.
#[export] Hint Rewrite emit_all_with_stdin emit_all_answered answered_with_stdin
  with_stdin_twice emit_all_twice http_with_stdin asked_with_stdin
  http_emit asked_emit http_emit_all asked_emit_all stdin_emit_all
  stdin_ended_emit_all : worlds.

Lemma detach_congr_world {A} (m : M A) w w' : w = w' -> detach m w = detach m w'.
Proof. intros ->. reflexivity. Qed.


(** ** The root menu: leaving, and a failed start *)

(** The choice 4 at the root menu. *)
Lemma mainMenu_exits fuel w line later :
  stdin w = line :: later -> trim line = js "4" ->
  show (S fuel) Root w
  = (Halt (Exited 0),
     with_stdin later (emit_all (screen Root ++ [Log MsgGoodbye; RlClose]) w)).
Proof.
  intros Hin Hfour.
  cbn [show]. unfold mainMenu_body, mainMenu_choice.
  unfold displayBanner, displayMainMenu, getUserInput, mbind, M_bind,
    console_clear, console_log. cbn. rewrite Hin, Hfour. reflexivity.
Qed.

(** The program ends as its first [mainMenu()] call does, unless that
    call throws. *)
Lemma main_runs w r w' :
  mainMenu (enough_fuel w) (emit (Log MsgStarting) w) = (r, w') ->
  (forall e, r <> Throw e) ->
  main w = (r, w').
Proof.
  intros Hrun Hr. unfold main.
  unfold mbind at 1, M_bind at 1, try_catch, console_log at 1.
  rewrite Hrun. destruct r as [a|e|h]; [reflexivity | | reflexivity].
  exfalso. exact (Hr e eq_refl).
Qed.

(** C8.  At the root menu the choice 4 prints the farewell, closes the
    input stream and ends the process with status 0: the lines typed after
    it are never read and nothing more is printed.  A rejection of the
    first [mainMenu()] promise is logged as fatal and ends the process
    with status 1. *)
Theorem exit_status :
  (forall fuel w line later,
      stdin w = line :: later -> trim line = js "4" ->
      mainMenu (S fuel) w
      = (Halt (Exited 0),
         with_stdin later (emit_all (screen Root ++ [Log MsgGoodbye; RlClose]) w)))
  /\ (forall w line later,
      stdin w = line :: later -> trim line = js "4" ->
      main w
      = (Halt (Exited 0),
         with_stdin later
           (emit_all (Log MsgStarting :: screen Root ++ [Log MsgGoodbye; RlClose]) w)))
  /\ (forall w err w',
      mainMenu (enough_fuel w) (emit (Log MsgStarting) w) = (Throw err, w') ->
      main w = (Halt (Exited 1), emit (LogError (MsgFatal err)) w')).
Proof.
  split; [intros fuel w line later; unfold mainMenu; apply mainMenu_exits|]. split.
  - intros w line later Hin Hfour. apply main_runs; [|discriminate].
    unfold enough_fuel, mainMenu.
    rewrite (mainMenu_exits _ (emit (Log MsgStarting) w) line later Hin Hfour).
    reflexivity.
  - intros w err w' Hthrow. unfold main.
    unfold mbind at 1, M_bind at 1, try_catch, console_log at 1.
    rewrite Hthrow. reflexivity.
Qed.

Lemma exit_status_witness :
  main (session [js " 4"; js "1"] offline)
  = (Halt (Exited 0),
     with_stdin [js "1"]
       (emit_all (Log MsgStarting :: screen Root ++ [Log MsgGoodbye; RlClose])
                 (session [js " 4"; js "1"] offline)))
  /\ fst (main ended_after_check) = Halt (Exited 1).
Proof.
  destruct exit_status as (_ & Hzero & Hone). split.
  - apply (Hzero _ (js " 4") [js "1"]); reflexivity.
  - erewrite (Hone ended_after_check); [reflexivity|].
    vm_compute. reflexivity.
Defined.

(** ** Invalid choices *)

(** A menu that finds no line to read stays at its question. *)
Lemma show_waits node fuel w :
  stdin w = [] -> stdin_ended w = false ->
  show (S fuel) node w = (Halt Blocked, emit_all (screen node) w).
Proof.
  intros Hin Hopen.
  destruct node; cbn [show];
    unfold mainMenu_body, sepoliaToHoleskyMenu_body, holeskyToSepoliaMenu_body,
      displayBanner, displayMainMenu, displayTokens, getUserInput, mbind, M_bind,
      console_clear, console_log; cbn; rewrite Hin, Hopen; reflexivity.
Qed.

(** C5.  A line that is none of the digit strings of the menu on display
    makes the launcher print the complaint, set the timer and show the
    same menu again.  After any non-empty run of such lines the launcher
    is where it was, about to show that same menu, with the rest of the
    input untouched; nothing is spawned and the process has not ended.
    If nothing more is typed it waits at the question of that menu. *)
Theorem invalid_choices_redisplay
    (node : menu_node) (lines later : list jsstring) (w : world) (fuel : nat) :
  Forall (invalid_for node) lines ->
  lines <> [] ->
  stdin w = lines ++ later ->
  show (length lines + fuel) node w
  = detach (show fuel node)
      (with_stdin later
         (emit_all (concat (map (fun _ => screen node ++ complaint) lines)) w))
  /\ (later = [] -> stdin_ended w = false ->
      show (length lines + S fuel) node w
      = (Halt Blocked,
         with_stdin []
           (emit_all (concat (map (fun _ => screen node ++ complaint) lines)
                      ++ screen node) w))).
Proof.
  intros Hinv Hne Hin.
  assert (Hgen : forall f lines w,
    Forall (invalid_for node) lines -> lines <> [] -> stdin w = lines ++ later ->
    show (length lines + f) node w
    = detach (show f node)
        (with_stdin later
           (emit_all (concat (map (fun _ => screen node ++ complaint) lines)) w))).
  { clear. intros f lines. induction lines as [|line rest IH]; intros w Hinv Hne Hin.
    - congruence.
    - inversion Hinv as [|? ? Hline Hrest]; subst.
      cbn [length Nat.add]. rewrite (show_invalid node _ w line (rest ++ later) Hline Hin).
      destruct rest as [|line' rest'].
      + cbn [length Nat.add map concat app]. rewrite app_nil_r. reflexivity.
      + erewrite detach_congr; [|apply IH; [exact Hrest | discriminate | reflexivity]].
        rewrite detach_detach. f_equal.
        rewrite emit_all_with_stdin.
        change (concat (map ?f (line :: ?l))) with (f line ++ concat (map f l)).
        rewrite (emit_all_app (screen node ++ complaint)). reflexivity. }
  split; [apply Hgen; assumption|].
  intros -> Hopen. rewrite (Hgen (S fuel) lines w Hinv Hne Hin).
  unfold detach. rewrite show_waits.
  - rewrite emit_all_with_stdin, emit_all_app. reflexivity.
  - reflexivity.
  - cbn. rewrite stdin_ended_emit_all. exact Hopen.
Qed.

Lemma invalid_choices_redisplay_witness :
  let w := session [js "9"; js ""; js "back"] offline in
  show 4 SepoliaToHolesky w
  = (Halt Blocked,
     with_stdin []
       (emit_all (concat (map (fun _ => screen SepoliaToHolesky ++ complaint)
                              [js "9"; js ""; js "back"])
                  ++ screen SepoliaToHolesky) w)).
Proof.
  intros w.
  apply (invalid_choices_redisplay SepoliaToHolesky [js "9"; js ""; js "back"] [] w 0).
  - repeat constructor; apply (bool_decide_unpack _); vm_compute; exact I.
  - discriminate.
  - reflexivity.
  - reflexivity.
  - reflexivity.
Defined.

(** ** Versions with more than three components *)

Lemma take3_parts (parts : list jsnum) x y z :
  take 3 parts = [Num x; Num y; Num z] ->
  exists more, parts = Num x :: Num y :: Num z :: more.
Proof.
  destruct parts as [|p1 [|p2 [|p3 more]]]; cbn; try discriminate.
  intros [= -> -> ->]. eauto.
Qed.

(** C10.  Only the first three dot-separated components of a version are
    compared.  When two versions agree on them as integers, the sort
    comparator returns 0 and the up-to-date check holds in both
    directions; and when the newest remote version agrees with the local
    1.0.0 on them, whatever follows (as in 1.0.0.5), [checkVersion] takes
    the branch that reports the latest version and not the update offer. *)
Theorem only_three_components_compared
    (a b : descriptor) (aParts bParts : list jsnum) (x y z : Z) :
  version_parts (version a) = inr aParts ->
  version_parts (version b) = inr bParts ->
  take 3 aParts = [Num x; Num y; Num z] ->
  take 3 bParts = [Num x; Num y; Num z] ->
  compare_versions a b = inr (Num 0)
  /\ isLatest aParts bParts = true
  /\ isLatest bParts aParts = true
  /\ (version a = VString CURRENT_VERSION ->
      forall w fetched w1 older,
        fetchVersionsJson (emit (Log MsgChecking) w) = (Val fetched, w1) ->
        fetched <> [] ->
        array_sort compare_versions fetched = inr (b :: older) ->
        checkVersion w = try_catch report_latest report_check_error w1).
Proof.
  intros Ha Hb Hta Htb.
  destruct (take3_parts _ _ _ _ Hta) as [ra ->].
  destruct (take3_parts _ _ _ _ Htb) as [rb ->].
  assert (Hsame : isLatest (Num x :: Num y :: Num z :: ra)
                           (Num x :: Num y :: Num z :: rb) = true).
  { apply isLatest_triple. right. reflexivity. }
  split; [|split; [exact Hsame | split]].
  - unfold compare_versions. rewrite Ha, Hb. f_equal.
    apply compare_loop_triple. reflexivity.
  - apply isLatest_triple. right. reflexivity.
  - intros Hcur w fetched w1 older Hf Hne Hsort.
    rewrite (checkVersion_decides w fetched w1 b older _ Hf Hne Hsort Hb).
    rewrite Hcur in Ha. vm_compute in Ha. injection Ha as <- <- <- <-.
    change [Num 1; Num 0; Num 0] with (Num 1 :: Num 0 :: Num 0 :: []).
    rewrite (proj2 (isLatest_triple 1 0 0 [] 1 0 0 rb)) by (right; reflexivity).
    reflexivity.
Qed.

(** The versions 1.0.0 and 1.0.0.5 agree on their first three
    components. *)
Lemma only_three_components_compared_witness :
  let a := release "1.0.0" "2025-06-11" [] in
  let b := release "1.0.0.5" "2025-06-20" [] in
  compare_versions a b = inr (Num 0)
  /\ isLatest [Num 1; Num 0; Num 0] [Num 1; Num 0; Num 0; Num 5] = true
  /\ isLatest [Num 1; Num 0; Num 0; Num 5] [Num 1; Num 0; Num 0] = true
  /\ (version a = VString CURRENT_VERSION ->
      forall w fetched w1 older,
        fetchVersionsJson (emit (Log MsgChecking) w) = (Val fetched, w1) ->
        fetched <> [] ->
        array_sort compare_versions fetched = inr (b :: older) ->
        checkVersion w = try_catch report_latest report_check_error w1).
Proof.
  intros a b.
  apply (only_three_components_compared a b
           [Num 1; Num 0; Num 0] [Num 1; Num 0; Num 0; Num 5] 1 0 0);
    vm_compute; reflexivity.
Defined.

Example checkVersion_ignores_fourth_component :
  new_events checkVersion (session [] (serving feed_patched))
  = [Log MsgChecking; HttpGet versions_url; Log (MsgLatest CURRENT_VERSION);
     Log MsgPressEnterMain; Question PromptEnter].
Proof. vm_compute. reflexivity. Qed.

(** ** Running a script *)


Ltac run_script :=
  unfold runScript, try_catch, fs_access, spawn_node, getUserInput, detach,
    mbind, M_bind, console_log, throw; cbn.

Section RunScript.

Variables (mainMenu : M unit) (scriptName line : jsstring)
          (later : list jsstring) (w : world).
Hypothesis line_typed : stdin w = line :: later.

Lemma runScript_missing e :
  access w (asked w) scriptName = Some e ->
  runScript mainMenu scriptName w
  = detach mainMenu
      (paused later [Access scriptName;
               Log (MsgScriptMissing scriptName (err_message e))] (answered w)).
Proof.
  intros Hacc. run_script. rewrite Hacc. cbn. rewrite line_typed. reflexivity.
Qed.

Lemma runScript_spawn_throws e :
  access w (asked w) scriptName = None ->
  child w (S (asked w)) scriptName = SpawnThrows e ->
  runScript mainMenu scriptName w
  = detach mainMenu
      (paused later [Access scriptName;
               Log (MsgScriptMissing scriptName (err_message e))]
              (answered (answered w))).
Proof.
  intros Hacc Hch. run_script. rewrite Hacc. cbn. rewrite Hch. cbn.
  rewrite line_typed. reflexivity.
Qed.

Lemma runScript_child_error e :
  access w (asked w) scriptName = None ->
  child w (S (asked w)) scriptName = Spawned (ChildError e) ->
  runScript mainMenu scriptName w
  = detach mainMenu
      (paused later [Access scriptName; Spawn scriptName;
               Log (MsgRunError scriptName (err_message e))]
              (answered (answered w))).
Proof.
  intros Hacc Hch. run_script. rewrite Hacc. cbn. rewrite Hch. cbn.
  rewrite line_typed. cbn. destruct (mainMenu _) as [[?|?|?] ?]; reflexivity.
Qed.

Lemma runScript_child_failed code :
  access w (asked w) scriptName = None ->
  child w (S (asked w)) scriptName = Spawned (ChildExit code) ->
  code <> Some 0 ->
  runScript mainMenu scriptName w
  = detach mainMenu
      (paused later [Access scriptName; Spawn scriptName;
               Log (MsgExitedWith scriptName code)]
              (answered (answered w))).
Proof.
  intros Hacc Hch Hcode. run_script. rewrite Hacc. cbn. rewrite Hch. cbn.
  rewrite bool_decide_eq_true_2 by exact Hcode. cbn. rewrite line_typed. cbn.
  destruct (mainMenu _) as [[?|?|?] ?]; reflexivity.
Qed.

Lemma runScript_child_clean :
  access w (asked w) scriptName = None ->
  child w (S (asked w)) scriptName = Spawned (ChildExit (Some 0)) ->
  runScript mainMenu scriptName w
  = detach mainMenu
      (emit_all [Access scriptName; Spawn scriptName] (answered (answered w))).
Proof.
  intros Hacc Hch. run_script. rewrite Hacc. cbn. rewrite Hch. cbn.
  rewrite bool_decide_eq_false_2 by (intros H; apply H; reflexivity).
  destruct (mainMenu _) as [[?|?|?] ?]; reflexivity.
Qed.

Lemma runScript_never_throws e :
  fst (runScript mainMenu scriptName w) <> Throw e.
Proof.
  run_script.
  destruct (access w (asked w) scriptName); cbn.
  - rewrite line_typed. cbn. destruct (mainMenu _) as [[?|?|?] ?]; discriminate.
  - destruct (child w (S (asked w)) scriptName) as [e'|[e'|code]]; cbn.
    + rewrite line_typed. cbn. destruct (mainMenu _) as [[?|?|?] ?]; discriminate.
    + rewrite line_typed. cbn. destruct (mainMenu _) as [[?|?|?] ?]; discriminate.
    + destruct (bool_decide (code <> Some 0)); cbn.
      * rewrite line_typed. cbn. destruct (mainMenu _) as [[?|?|?] ?]; discriminate.
      * destruct (mainMenu _) as [[?|?|?] ?]; discriminate.
Qed.

End RunScript.

(** C4.  [runScript] for any script name, in a world where a line is
    there to acknowledge a pause.  A missing or inaccessible file, or a
    spawn call that throws, is reported, the pause is taken and the menu
    follows.  A child that cannot be launched or that ends with a non-zero
    status is reported, and the menu follows the pause.  A child that ends
    with status 0 leads to the menu at once: no line is read.  In no case
    does [runScript] throw. *)
Theorem runScript_reports_and_returns
    (mainMenu : M unit) (scriptName line : jsstring) (later : list jsstring)
    (w : world) :
  stdin w = line :: later ->
  (forall e, access w (asked w) scriptName = Some e ->
     runScript mainMenu scriptName w
     = detach mainMenu
         (with_stdin later
            (emit_all (Access scriptName
                       :: Log (MsgScriptMissing scriptName (err_message e))
                       :: pause_menu) (answered w))))
  /\ (forall e, access w (asked w) scriptName = None ->
     child w (S (asked w)) scriptName = SpawnThrows e ->
     runScript mainMenu scriptName w
     = detach mainMenu
         (with_stdin later
            (emit_all (Access scriptName
                       :: Log (MsgScriptMissing scriptName (err_message e))
                       :: pause_menu) (answered (answered w)))))
  /\ (forall e, access w (asked w) scriptName = None ->
     child w (S (asked w)) scriptName = Spawned (ChildError e) ->
     runScript mainMenu scriptName w
     = detach mainMenu
         (with_stdin later
            (emit_all (Access scriptName :: Spawn scriptName
                       :: Log (MsgRunError scriptName (err_message e))
                       :: pause_menu) (answered (answered w)))))
  /\ (forall code, access w (asked w) scriptName = None ->
     child w (S (asked w)) scriptName = Spawned (ChildExit code) ->
     code <> Some 0 ->
     runScript mainMenu scriptName w
     = detach mainMenu
         (with_stdin later
            (emit_all (Access scriptName :: Spawn scriptName
                       :: Log (MsgExitedWith scriptName code)
                       :: pause_menu) (answered (answered w)))))
  /\ (access w (asked w) scriptName = None ->
     child w (S (asked w)) scriptName = Spawned (ChildExit (Some 0)) ->
     runScript mainMenu scriptName w
     = detach mainMenu
         (emit_all [Access scriptName; Spawn scriptName] (answered (answered w))))
  /\ (forall e, fst (runScript mainMenu scriptName w) <> Throw e).
Proof.
  intros Hin. repeat split.
  - intros e. apply (runScript_missing _ _ _ _ _ Hin).
  - intros e. apply (runScript_spawn_throws _ _ _ _ _ Hin).
  - intros e. apply (runScript_child_error _ _ _ _ _ Hin).
  - intros code. apply (runScript_child_failed _ _ _ _ _ Hin).
  - apply runScript_child_clean.
  - intros e. apply (runScript_never_throws _ _ _ _ _ Hin).
Qed.

(** ** A failed fetch of the version file *)

Lemma fetchVersionsJson_failed w :
  fetch_failed (http w (asked w) versions_url) ->
  fetchVersionsJson w
  = (Val [], emit_all (HttpGet versions_url
                       :: fetch_report (http w (asked w) versions_url)) (answered w)).
Proof.
  unfold fetchVersionsJson, try_catch, axios_get, mbind, M_bind, console_log.
  generalize versions_url. intros url.
  destruct (http w (asked w) url) as [r|e]; cbn.
  - intros Hst. apply Z.eqb_neq in Hst. rewrite Hst. cbn.
    destruct (status r =? 403), (status r =? 404); reflexivity.
  - intros _. destruct (bool_decide _); reflexivity.
Qed.

Lemma fetch_report_logs o : exists m rest, fetch_report o = Log m :: rest /\ Forall is_log rest.
Proof.
  destruct o as [r|e]; cbn; eexists _, _; (split; [reflexivity|]).
  - destruct (status r =? 403), (status r =? 404); repeat constructor.
  - destruct (bool_decide _); repeat constructor.
Qed.

Lemma emit_all_cons e evs w : emit_all (e :: evs) w = emit_all evs (emit e w).
Proof. reflexivity. Qed.

Lemma report_unable_reads w line later :
  stdin w = line :: later ->
  report_unable w
  = (Val true, with_stdin later (emit_all (Log MsgUnableToCheck :: pause_main) w)).
Proof.
  intros Hin. unfold report_unable, getUserInput, mbind, M_bind, console_log.
  cbn. rewrite Hin. reflexivity.
Qed.

Lemma checkVersion_failed w line later :
  fetch_failed (http w (asked w) versions_url) ->
  stdin w = line :: later ->
  checkVersion w
  = (Val true,
     with_stdin later
       (emit_all (Log MsgChecking :: HttpGet versions_url
                  :: fetch_report (http w (asked w) versions_url)
                  ++ Log MsgUnableToCheck :: pause_main) (answered w))).
Proof.
  intros Hfail Hin. unfold checkVersion.
  change ((console_log MsgChecking;; ?k) w) with (k (emit (Log MsgChecking) w)).
  rewrite (try_catch_bind_val _ _ _ _ _ _
             (fetchVersionsJson_failed (emit (Log MsgChecking) w) Hfail)).
  rewrite bool_decide_eq_true_2 by reflexivity.
  rewrite http_emit, asked_emit.
  unfold try_catch. erewrite report_unable_reads.
  - f_equal. f_equal. rewrite !emit_all_cons, emit_all_app. reflexivity.
  - rewrite stdin_emit_all. exact Hin.
Qed.

(** A menu that finds a line shows its screen, reads the line and acts on
    the trimmed choice. *)
Lemma show_reads node fuel w line later :
  stdin w = line :: later ->
  show (S fuel) node w
  = choose fuel node (trim line) (with_stdin later (emit_all (screen node) w)).
Proof.
  intros Hin.
  destruct node; cbn [show choose];
    unfold mainMenu_body, sepoliaToHoleskyMenu_body, holeskyToSepoliaMenu_body,
      displayBanner, displayMainMenu, displayTokens, getUserInput, mbind, M_bind,
      console_clear, console_log; cbn [stdin emit]; rewrite Hin; reflexivity.
Qed.

(** Settles the comparisons of a known choice with the digits of a menu. *)
Ltac decide_choices :=
  repeat match goal with
  | |- context [bool_decide (?a = ?b)] =>
      let v := eval vm_compute in (bool_decide (a = b)) in
      match v with
      | true => change (bool_decide (a = b)) with true
      | false => change (bool_decide (a = b)) with false
      end
  end;
  cbv iota.

(** C6.  When the request for the version file is rejected or answered
    with a status other than 200, [fetchVersionsJson] prints its report
    and returns the empty list; [checkVersion] then says that it cannot
    check, takes its pause and returns; and the main menu, asked for the
    update check, is shown again afterwards. *)
Theorem failed_fetch_returns_to_menu (w : world) :
  fetch_failed (http w (asked w) versions_url) ->
  fetchVersionsJson w
  = (Val [], emit_all (HttpGet versions_url
                       :: fetch_report (http w (asked w) versions_url)) (answered w))
  /\ (exists m rest,
        fetch_report (http w (asked w) versions_url) = Log m :: rest
        /\ Forall is_log rest)
  /\ (forall line later,
        stdin w = line :: later ->
        checkVersion w
        = (Val true,
           with_stdin later
             (emit_all (Log MsgChecking :: HttpGet versions_url
                        :: fetch_report (http w (asked w) versions_url)
                        ++ Log MsgUnableToCheck :: pause_main) (answered w))))
  /\ (forall fuel choice enter later,
        stdin w = choice :: enter :: later ->
        trim choice = js "3" ->
        mainMenu (S fuel) w
        = detach (mainMenu fuel)
            (with_stdin later
               (emit_all (screen Root
                          ++ Log MsgChecking :: HttpGet versions_url
                          :: fetch_report (http w (asked w) versions_url)
                          ++ Log MsgUnableToCheck :: pause_main) (answered w)))).
Proof.
  intros Hfail. split; [apply fetchVersionsJson_failed, Hfail|].
  split; [apply fetch_report_logs|].
  split; [intros line later; apply checkVersion_failed, Hfail|].
  intros fuel choice enter later Hin Hthree.
  unfold mainMenu. rewrite (show_reads Root fuel w choice (enter :: later) Hin).
  rewrite Hthree. cbn [choose]. unfold mainMenu_choice. decide_choices.
  set (w1 := with_stdin _ _).
  assert (Hf1 : fetch_failed (http w1 (asked w1) versions_url)).
  { subst w1. autorewrite with worlds. exact Hfail. }
  assert (Hin1 : stdin w1 = enter :: later) by reflexivity.
  rewrite (bind_val _ _ _ _ _ (checkVersion_failed w1 enter later Hf1 Hin1)).
  apply detach_congr_world. subst w1. autorewrite with worlds.
  reflexivity.
Qed.


(** A child that ends with status 0 leads back to the menu without a
    pause. *)
Lemma runScript_reports_and_returns_witness :
  let w := session [js ""] offline in
  let script := js "SepoliaToHoleskyEth.js" in
  runScript (mainMenu 1) script w
  = detach (mainMenu 1) (emit_all [Access script; Spawn script] (answered (answered w)))
  /\ forall e, fst (runScript (mainMenu 1) script w) <> Throw e.
Proof.
  intros w script.
  destruct (runScript_reports_and_returns (mainMenu 1) script (js "") [] w eq_refl)
    as (_ & _ & _ & _ & Hclean & Hquiet).
  split; [apply Hclean; reflexivity | exact Hquiet].
Defined.

(** With the network down, the update check ends at the main menu. *)
Lemma failed_fetch_returns_to_menu_witness :
  let w := session [js "3"; js ""] offline in
  fetchVersionsJson w
  = (Val [], emit_all (HttpGet versions_url :: fetch_report (offline 0%nat versions_url))
                      (answered w))
  /\ mainMenu 2 w
     = detach (mainMenu 1)
         (with_stdin []
            (emit_all (screen Root
                       ++ Log MsgChecking :: HttpGet versions_url
                       :: fetch_report (offline 0%nat versions_url)
                       ++ Log MsgUnableToCheck :: pause_main) (answered w))).
Proof.
  intros w.
  destruct (failed_fetch_returns_to_menu w I) as (Hfetch & _ & _ & Hmenu).
  split; [exact Hfetch|].
  apply (Hmenu 1%nat (js "3") (js "") []); reflexivity.
Defined.


(** ** [fetchVersionsJson] never throws *)

Lemma version_entry_pure v w :
  (exists d, version_entry v w = (Val d, w))
  \/ version_entry v w = (Throw null_read, w).
Proof. destruct v; cbn; eauto. Qed.

Lemma each_version_entry_pure items w :
  (exists ds, each version_entry items w = (Val ds, w))
  \/ each version_entry items w = (Throw null_read, w).
Proof.
  induction items as [|v rest IH]; cbn [each]; [left; eexists; reflexivity|].
  unfold mbind, M_bind.
  destruct (version_entry_pure v w) as [[d ->]| ->]; [|right; reflexivity].
  destruct IH as [[ds ->]| ->]; [left; eexists; reflexivity | right; reflexivity].
Qed.

Lemma each_version_entry_null items w :
  In VNull items ->
  each version_entry items w = (Throw null_read, w).
Proof.
  induction items as [|v rest IH]; intros Hin; [destruct Hin|].
  cbn [each]. unfold mbind, M_bind.
  destruct (version_entry_pure v w) as [[d Hv]| ->]; [|reflexivity].
  rewrite Hv. destruct Hin as [->|Hin]; [cbn in Hv; discriminate|].
  rewrite (IH Hin). reflexivity.
Qed.

Lemma array_map_version_entry v w :
  (exists ds, array_map v version_entry w = (Val ds, w))
  \/ (exists e, array_map v version_entry w = (Throw e, w) /\ err_code e = None).
Proof.
  destruct v; cbn [array_map]; try (right; eexists; split; reflexivity).
  destruct (each_version_entry_pure items w) as [[ds ->]| ->]; [left; eauto|].
  right. eexists. split; reflexivity.
Qed.

(** [fetchVersionsJson] case by case. *)
Lemma fetchVersionsJson_cases w :
  fetchVersionsJson w
  = let w1 := answered (emit (HttpGet versions_url) w) in
    match http w (asked w) versions_url with
    | Rejected e => (Val [], emit_all (fetch_report (Rejected e)) w1)
    | Responded r =>
        if status r =? 200 then
          match received (data r) with
          | None => (Val [], emit_all (fetch_report (Rejected SyntaxError)) w1)
          | Some v =>
              match fst (array_map v version_entry w1) with
              | Val versions => (Val versions, w1)
              | Throw e => (Val [], emit_all (fetch_report (Rejected e)) w1)
              | Halt h => (Halt h, w1)
              end
          end
        else (Val [], emit_all (fetch_report (Responded r)) w1)
    end.
Proof.
  unfold fetchVersionsJson, received. generalize versions_url. intros url.
  unfold try_catch, axios_get, mbind at 1, M_bind at 1.
  destruct (http w (asked w) url) as [r|e]; cbn [fst snd].
  - destruct (status r =? 200).
    + set (w1 := answered _).
      assert (Hrun : forall v,
        (let (r0, w2) := (mret v ≫= (fun d => array_map d version_entry)) w1 in
         match r0 with
         | Val a => (Val a, w2)
         | Halt h => (Halt h, w2)
         | Throw e =>
             (console_log (MsgFetchVersionsError (err_message e));;
              (if bool_decide (err_code e = Some (js "ECONNREFUSED")
                               \/ err_code e = Some (js "ETIMEDOUT"))
               then console_log MsgCheckNetwork else mret ());; mret []) w2
         end)
        = match fst (array_map v version_entry w1) with
          | Val versions => (Val versions, w1)
          | Throw e => (Val [], emit_all (fetch_report (Rejected e)) w1)
          | Halt h => (Halt h, w1)
          end).
      { intros v.
        change ((mret v ≫= (fun d => array_map d version_entry)) w1)
          with (array_map v version_entry w1).
        destruct (array_map_version_entry v w1) as [[ds ->]|(e & -> & Hcode)];
          cbn [fst]; [reflexivity|].
        unfold mbind, M_bind, console_log. cbn [fetch_report].
        destruct (bool_decide _); reflexivity. }
      destruct (data r) as [ | |b|lexeme|text|items|fields]; try apply Hrun.
      destruct (JSON_parse (cleanup text)) as [v|]; [apply Hrun | reflexivity].
    + unfold mbind, M_bind, console_log. cbn.
      destruct (status r =? 403), (status r =? 404); reflexivity.
  - unfold mbind, M_bind, console_log. cbn.
    destruct (bool_decide _); reflexivity.
Qed.

(** C9.  [fetchVersionsJson] always returns a list: no answer of the
    network and no response data make it throw or stop.  When a 200
    response carries something that is not an array, or an array with a
    [null] entry, the TypeError of the mapping step is caught, the error
    line is printed and the empty list returned. *)
Theorem fetchVersionsJson_total (w : world) :
  (exists versions w', fetchVersionsJson w = (Val versions, w'))
  /\ (forall r v,
        http w (asked w) versions_url = Responded r ->
        status r = 200 ->
        received (data r) = Some v ->
        ~ is_array v ->
        fetchVersionsJson w
        = (Val [], emit_all [HttpGet versions_url;
                             Log (MsgFetchVersionsError (js "map is not a function"))]
                            (answered w)))
  /\ (forall r items,
        http w (asked w) versions_url = Responded r ->
        status r = 200 ->
        received (data r) = Some (VArray items) ->
        In VNull items ->
        fetchVersionsJson w
        = (Val [], emit_all [HttpGet versions_url;
                             Log (MsgFetchVersionsError (err_message null_read))]
                            (answered w))).
Proof.
  rewrite fetchVersionsJson_cases. cbv zeta.
  set (w1 := answered (emit (HttpGet versions_url) w)).
  split; [|split].
  - destruct (http w (asked w) versions_url) as [r|e]; [|eauto].
    destruct (status r =? 200); [|eauto].
    destruct (received (data r)) as [v|]; [|eauto].
    destruct (array_map_version_entry v w1) as [[ds ->]|(e & -> & _)]; cbn [fst]; eauto.
  - intros r v -> Hst -> Hnot. apply Z.eqb_eq in Hst. rewrite Hst.
    destruct v; try reflexivity. exfalso. apply Hnot. exact I.
  - intros r items -> Hst -> Hnull. apply Z.eqb_eq in Hst. rewrite Hst.
    cbn [array_map]. rewrite (each_version_entry_null items w1 Hnull). reflexivity.
Qed.

(** The feed answers with a JSON object instead of an array. *)
Lemma fetchVersionsJson_total_witness :
  let w := session [] (serving (jsq "{'VERSION':'1.2.0'}")) in
  fetchVersionsJson w
  = (Val [], emit_all [HttpGet versions_url;
                       Log (MsgFetchVersionsError (js "map is not a function"))]
                      (answered w)).
Proof.
  intros w.
  destruct (fetchVersionsJson_total w) as (_ & Hshape & _).
  eapply Hshape; [reflexivity | reflexivity | vm_compute; reflexivity |].
  intros H. exact H.
Defined.

(** ** The sync pass *)

#[export] Instance same_dirname_stepwise :
  Stepwise same_dirname (fun _ => True) (fun _ => True).
Proof.
  split; unfold same_dirname; cbn; try reflexivity.
  intros w1 w2 w3 H1 H2. congruence.
Qed.

Lemma downloadFile_same_dirname file w :
  dirname (snd (downloadFile file w)) = dirname w.
Proof. apply (preserves_downloadFile (R := same_dirname)); intros; exact I. Qed.

Lemma excluded_printable v : excluded v = true -> printable v = true.
Proof. destruct v; try discriminate. reflexivity. Qed.


(** [downloadFile] returns when the name of the entry has a string
    conversion: whatever the network and the file system answer is
    caught inside. *)
Lemma downloadFile_returns file w :
  printable (name file) = true ->
  exists w', downloadFile file w = (Val tt, w').
Proof.
  intros Hp. unfold downloadFile, interpolate. rewrite Hp.
  destruct (excluded (name file)); [eexists; reflexivity|].
  unfold try_catch, axios_get, mbind, M_bind, console_log, mret, M_ret.
  destruct (http w (asked w) (download_url file)) as [r|e];
    [|eexists; reflexivity].
  destruct (status r =? 200); [|eexists; reflexivity].
  unfold path_join, fs_writeFile.
  destruct (name file); try (eexists; reflexivity).
  cbn. destruct (write w (S (asked w)) _); eexists; reflexivity.
Qed.

(** When the name has no string conversion, no message can be made of
    it, not even the one of the catch block: after the request
    [downloadFile] throws, and no file is written. *)
Lemma downloadFile_throws file w :
  printable (name file) = false ->
  downloadFile file w
  = (Throw no_string_conversion, answered (emit (HttpGet (download_url file)) w)).
Proof.
  intros Hp. unfold downloadFile, interpolate. rewrite Hp.
  destruct (excluded (name file)) eqn:Hex.
  { apply excluded_printable in Hex. congruence. }
  unfold try_catch, axios_get, mbind, M_bind, throw.
  destruct (http w (asked w) (download_url file)) as [r|e]; [|reflexivity].
  destruct (status r =? 200); [|reflexivity].
  unfold path_join. destruct (name file); try reflexivity. discriminate.
Qed.

Lemma each_downloadFile_returns listing w :
  Forall (fun file => printable (name file) = true) listing ->
  exists w', each downloadFile listing w = (Val (map (fun _ => tt) listing), w').
Proof.
  intros Hall. revert w. induction Hall as [|file rest Hfile _ IH]; intros w.
  - eexists. reflexivity.
  - cbn [each map]. unfold mbind, M_bind.
    destruct (downloadFile_returns file w Hfile) as [w1 ->].
    destruct (IH w1) as [w2 ->]. eexists. reflexivity.
Qed.

Lemma each_downloadFile_app before after w :
  Forall (fun file => printable (name file) = true) before ->
  each downloadFile (before ++ after) w
  = (rest ← each downloadFile after;
     mret (map (fun _ => tt) before ++ rest)) (snd (each downloadFile before w)).
Proof.
  intros Hall. revert w. induction Hall as [|file more Hfile Hmore IH]; intros w.
  - cbn [app each snd mret M_ret map]. unfold mbind, M_bind.
    destruct (each downloadFile after w) as [[l|e|h] w1]; reflexivity.
  - cbn [app each map]. unfold mbind, M_bind, mret, M_ret in *.
    destruct (downloadFile_returns file w Hfile) as [w1 ->].
    rewrite (IH w1).
    destruct (each_downloadFile_returns more w1 Hmore) as [w2 ->].
    cbn [snd].
    destruct (each downloadFile after w2) as [[l|e|h] w3]; reflexivity.
Qed.

(** The loop of [updateFiles] ends at the first entry whose name has no
    string conversion: the entries after it are not processed. *)
Lemma each_downloadFile_stops before file after w :
  Forall (fun earlier => printable (name earlier) = true) before ->
  printable (name file) = false ->
  each downloadFile (before ++ file :: after) w
  = (Throw no_string_conversion,
     answered (emit (HttpGet (download_url file)) (snd (each downloadFile before w)))).
Proof.
  intros Hall Hfile. rewrite (each_downloadFile_app _ _ _ Hall).
  cbn [each]. unfold mbind, M_bind.
  rewrite (downloadFile_throws file _ Hfile). reflexivity.
Qed.


(** A pass over a listing with plain names: the first and the last file
    are written into the application directory, the excluded one is
    skipped. *)
Example sync_pass_over_listing :
  let w := session [] (serving (js "new content")) in
  new_events (each downloadFile listing_with_keys) w
  = [HttpGet (VString (js "https://raw.example/index.js"));
     WriteFile (js "/srv/union/index.js") (VString (js "new content"));
     Log (MsgDownloaded (VString (js "index.js")));
     Log (MsgSkipping (VString (js "private_keys.txt")));
     HttpGet (VString (js "https://raw.example/README.md"));
     WriteFile (js "/srv/union/README.md") (VString (js "new content"));
     Log (MsgDownloaded (VString (js "README.md")))].
Proof. vm_compute. reflexivity. Qed.

(** [path.join] on the names a listing can carry. *)
Example path_join_normalizes :
  Path.join (js "/srv/union") (js "index.js") = js "/srv/union/index.js"
  /\ Path.join (js "/srv/union") (js "./private_keys.txt") = js "/srv/union/private_keys.txt"
  /\ Path.join (js "/srv/union") (js "lib/../private_keys.txt")
     = js "/srv/union/private_keys.txt"
  /\ Path.join (js "/srv/union") (js "../../../etc/passwd") = js "/etc/passwd"
  /\ Path.join (js "/srv/union") (js "lib//util.js/") = js "/srv/union/lib/util.js/"
  /\ Path.join (js "/srv/union") (js "") = js "/srv/union"
  /\ Path.join (js "") (js "../x") = js "../x".
Proof. vm_compute. repeat split. Qed.

(** ** The end-to-end scenario *)

Lemma stdin_with_stdin lines w : stdin (with_stdin lines w) = lines.
Proof. reflexivity. Qed.
Lemma stdin_answered w : stdin (answered w) = stdin w.
Proof. reflexivity. Qed.
Lemma access_with_stdin lines w : access (with_stdin lines w) = access w.
Proof. reflexivity. Qed.
Lemma child_with_stdin lines w : child (with_stdin lines w) = child w.
Proof. reflexivity. Qed.
Lemma access_emit e w : access (emit e w) = access w.
Proof. reflexivity. Qed.
Lemma child_emit e w : child (emit e w) = child w.
Proof. reflexivity. Qed.
Lemma trace_with_stdin lines w : trace (with_stdin lines w) = trace w.
Proof. reflexivity. Qed.
Lemma trace_answered w : trace (answered w) = trace w.
Proof. reflexivity. Qed.
Lemma trace_emit e w : trace (emit e w) = trace w ++ [e].
Proof. reflexivity. Qed.
Lemma stdin_emit e w : stdin (emit e w) = stdin w.
Proof. reflexivity. Qed.

#[export] Hint Rewrite stdin_with_stdin stdin_answered access_with_stdin
  child_with_stdin access_emit child_emit access_emit_all child_emit_all
  stdin_emit : worlds.

Create Rewrite HintDb traces.
#[export] Hint Rewrite trace_with_stdin trace_answered trace_emit trace_emit_all
  : traces.

(** A halt passes through [detach]. *)
Lemma detach_halt {A} (m : M A) w h w' :
  m w = (Halt h, w') -> detach m w = (Halt h, w').
Proof. intros H. unfold detach. rewrite H. reflexivity. Qed.

Lemma mainMenu_choice_sepolia k1 k2 k3 w :
  mainMenu_choice k1 k2 k3 (js "1") w = k2 w.
Proof. reflexivity. Qed.

Lemma mainMenu_choice_invalid k1 k2 k3 w :
  mainMenu_choice k1 k2 k3 (js "5") w
  = detach k1 (emit_all complaint w).
Proof. reflexivity. Qed.

Lemma sepolia_choice_link k1 k2 w :
  sepoliaToHoleskyMenu_choice k1 k2 (js "2") w = runScript k1 link_script w.
Proof. reflexivity. Qed.

Lemma sepolia_choice_back k1 k2 w :
  sepoliaToHoleskyMenu_choice k1 k2 (js "5") w = detach k1 w.
Proof. reflexivity. Qed.

Lemma show_reads_digit node fuel w d later :
  stdin w = js d :: later ->
  show (S fuel) node w
  = choose fuel node (trim (js d)) (with_stdin later (emit_all (screen node) w)).
Proof. apply show_reads. Qed.

(** The run of the scenario up to the token menu, then the run from the
    root menu when 4 is the only line left. *)
Lemma scenario_reaches_link w :
  stdin w = scenario ->
  mainMenu 5 w
  = runScript (show 3 Root) link_script
      (with_stdin [js "5"; js "4"]
         (emit_all (screen Root ++ screen SepoliaToHolesky) w)).
Proof.
  intros Hin. unfold mainMenu.
  rewrite (show_reads_digit Root 4 w "1" [js "2"; js "5"; js "4"] Hin).
  change (trim (js "1")) with (js "1"). cbn [choose].
  match goal with
  | |- context [mainMenu_choice ?a ?b ?c (js "1") ?w0] =>
      rewrite (mainMenu_choice_sepolia a b c w0)
  end.
  rewrite (show_reads_digit SepoliaToHolesky 3 _ "2" [js "5"; js "4"])
    by reflexivity.
  change (trim (js "2")) with (js "2"). cbn [choose].
  match goal with
  | |- context [sepoliaToHoleskyMenu_choice ?a ?b (js "2") ?w0] =>
      rewrite (sepolia_choice_link a b w0)
  end.
  autorewrite with worlds. reflexivity.
Qed.

Lemma last_line_exits fuel w :
  stdin w = [js "4"] ->
  show (S fuel) Root w
  = (Halt (Exited 0),
     with_stdin [] (emit_all (screen Root ++ [Log MsgGoodbye; RlClose]) w)).
Proof.
  intros Hin. apply (mainMenu_exits fuel w (js "4") [] Hin). reflexivity.
Qed.

(** After a report and its pause, acknowledged by the line 5. *)
Lemma scenario_after_pause report w :
  stdin w = [js "5"; js "4"] ->
  detach (show 3 Root) (paused [js "4"] report w)
  = (Halt (Exited 0),
     with_stdin []
       (emit_all (report ++ pause_menu ++ screen Root ++ [Log MsgGoodbye; RlClose]) w)).
Proof.
  intros Hin. apply detach_halt. rewrite last_line_exits by reflexivity.
  unfold paused. autorewrite with worlds.
  rewrite <- !app_assoc. reflexivity.
Qed.

(** After a clean run the line 5 reaches the root menu. *)
Lemma scenario_after_clean_run w :
  stdin w = [js "5"; js "4"] ->
  detach (show 3 Root) w
  = (Halt (Exited 0),
     with_stdin []
       (emit_all (screen Root ++ complaint ++ screen Root
                  ++ [Log MsgGoodbye; RlClose]) w)).
Proof.
  intros Hin. apply detach_halt.
  rewrite (show_reads_digit Root 2 w "5" [js "4"] Hin).
  change (trim (js "5")) with (js "5"). cbn [choose].
  match goal with
  | |- context [mainMenu_choice ?a ?b ?c (js "5") ?w0] =>
      rewrite (mainMenu_choice_invalid a b c w0)
  end.
  apply detach_halt.
  rewrite last_line_exits by reflexivity.
  autorewrite with worlds. reflexivity.
Qed.

(** The whole run of the scenario, by what becomes of the LINK script. *)
Lemma scenario_run w :
  stdin w = scenario ->
  exists answers,
    main w
    = (Halt (Exited 0),
       with_stdin []
         (answers
            (emit_all (Log MsgStarting :: screen Root ++ screen SepoliaToHolesky
                       ++ link_dispatch (access w (asked w) link_script)
                                        (child w (S (asked w)) link_script)
                       ++ [Log MsgGoodbye; RlClose]) w)))
    /\ forall w', trace (answers w') = trace w'.
Proof.
  intros Hin.
  assert (Hrun : exists answers,
    mainMenu 5 (emit (Log MsgStarting) w)
    = (Halt (Exited 0),
       with_stdin []
         (answers
            (emit_all (Log MsgStarting :: screen Root ++ screen SepoliaToHolesky
                       ++ link_dispatch (access w (asked w) link_script)
                                        (child w (S (asked w)) link_script)
                       ++ [Log MsgGoodbye; RlClose]) w)))
    /\ forall w', trace (answers w') = trace w').
  { rewrite scenario_reaches_link by exact Hin.
    set (w2 := with_stdin _ _).
    assert (Hin2 : stdin w2 = js "5" :: [js "4"]) by reflexivity.
    assert (Hacc : access w2 (asked w2) link_script = access w (asked w) link_script).
    { subst w2. autorewrite with worlds. reflexivity. }
    assert (Hch : child w2 (S (asked w2)) link_script
                  = child w (S (asked w)) link_script).
    { subst w2. autorewrite with worlds. reflexivity. }
    destruct (access w (asked w) link_script) as [e|] eqn:Ha.
    - exists answered. split; [|reflexivity].
      rewrite (runScript_missing _ _ _ _ _ Hin2 e Hacc).
      rewrite scenario_after_pause by (autorewrite with worlds; reflexivity).
      subst w2. autorewrite with worlds. reflexivity.
    - destruct (child w (S (asked w)) link_script) as [e|[e|code]] eqn:Hc.
      + exists (fun w' => answered (answered w')). split; [|reflexivity].
        rewrite (runScript_spawn_throws _ _ _ _ _ Hin2 e Hacc Hch).
        rewrite scenario_after_pause by (autorewrite with worlds; reflexivity).
        subst w2. autorewrite with worlds. reflexivity.
      + exists (fun w' => answered (answered w')). split; [|reflexivity].
        rewrite (runScript_child_error _ _ _ _ _ Hin2 e Hacc Hch).
        rewrite scenario_after_pause by (autorewrite with worlds; reflexivity).
        subst w2. autorewrite with worlds. reflexivity.
      + exists (fun w' => answered (answered w')). split; [|reflexivity].
        cbn [link_dispatch]. destruct (decide (code = Some 0)) as [->|Hcode].
        * rewrite bool_decide_eq_true_2 by reflexivity.
          rewrite (runScript_child_clean _ _ _ Hacc Hch).
          rewrite scenario_after_clean_run by (autorewrite with worlds; reflexivity).
          subst w2. autorewrite with worlds. reflexivity.
        * rewrite bool_decide_eq_false_2 by exact Hcode.
          rewrite (runScript_child_failed _ _ _ _ _ Hin2 code Hacc Hch Hcode).
          rewrite scenario_after_pause by (autorewrite with worlds; reflexivity).
          subst w2. autorewrite with worlds. reflexivity. }
  destruct Hrun as (answers & Hrun & Hanswers). exists answers.
  split; [|exact Hanswers].
  apply main_runs; [|discriminate]. unfold enough_fuel. rewrite Hin. exact Hrun.
Qed.

(** The run when 5 is typed at the token menu. *)
Lemma back_scenario_run w :
  stdin w = back_scenario ->
  main w
  = (Halt (Exited 0),
     with_stdin []
       (emit_all (Log MsgStarting :: screen Root ++ screen SepoliaToHolesky
                  ++ screen Root ++ [Log MsgGoodbye; RlClose]) w)).
Proof.
  intros Hin. apply main_runs; [|discriminate].
  unfold enough_fuel, mainMenu. rewrite Hin. cbn [length].
  rewrite (show_reads_digit Root 3 _ "1" [js "5"; js "4"]) by exact Hin.
  change (trim (js "1")) with (js "1"). cbn [choose].
  match goal with
  | |- context [mainMenu_choice ?a ?b ?c (js "1") ?w0] =>
      rewrite (mainMenu_choice_sepolia a b c w0)
  end.
  rewrite (show_reads_digit SepoliaToHolesky 2 _ "5" [js "4"]) by reflexivity.
  change (trim (js "5")) with (js "5"). cbn [choose].
  match goal with
  | |- context [sepoliaToHoleskyMenu_choice ?a ?b (js "5") ?w0] =>
      rewrite (sepolia_choice_back a b w0)
  end.
  apply detach_halt. rewrite last_line_exits by reflexivity.
  autorewrite with worlds. reflexivity.
Qed.

Lemma new_events_emit_all {A} (m : M A) w r lines answers evs :
  m w = (r, with_stdin lines (answers (emit_all evs w))) ->
  (forall w', trace (answers w') = trace w') ->
  new_events m w = evs.
Proof.
  intros Hrun Hanswers. apply new_events_extends. rewrite Hrun. cbn [snd].
  rewrite trace_with_stdin, Hanswers. apply trace_emit_all.
Qed.

(** C7, as the code has it.  With the lines 1, 2, 5, 4 the launcher shows
    the token menu and, on 2, dispatches the LINK script: it checks the
    file and spawns the child when the file is accessible and the spawn
    call does not throw.  The root menu then follows, the line 5 being
    taken as the acknowledgment of a pause or refused as a choice of the
    root menu, and 4 ends the process with status 0.  Back is the choice
    5 at the token menu: with the lines 1, 5, 4 no script is dispatched,
    nothing is spawned, and the process ends with status 0. *)
Theorem scenario_dispatches_link_script :
  (forall w,
      stdin w = scenario ->
      fst (main w) = Halt (Exited 0)
      /\ new_events main w
         = Log MsgStarting :: screen Root ++ screen SepoliaToHolesky
           ++ link_dispatch (access w (asked w) link_script)
                            (child w (S (asked w)) link_script)
           ++ [Log MsgGoodbye; RlClose]
      /\ (spawns (new_events main w) = true
          <-> access w (asked w) link_script = None
              /\ exists ev, child w (S (asked w)) link_script = Spawned ev))
  /\ (forall w,
      stdin w = back_scenario ->
      fst (main w) = Halt (Exited 0)
      /\ new_events main w
         = Log MsgStarting :: screen Root ++ screen SepoliaToHolesky
           ++ screen Root ++ [Log MsgGoodbye; RlClose]
      /\ spawns (new_events main w) = false).
Proof.
  split.
  - intros w Hin. destruct (scenario_run w Hin) as (answers & Hrun & Hanswers).
    pose proof (new_events_emit_all _ _ _ _ _ _ Hrun Hanswers) as Hnew.
    split; [rewrite Hrun; reflexivity|]. split; [exact Hnew|].
    rewrite Hnew.
    destruct (access w (asked w) link_script) as [e|].
    + split; [discriminate | intros [[=] _]].
    + destruct (child w (S (asked w)) link_script) as [e|[e|code]].
      * split; [discriminate | intros [_ [ev [=]]]].
      * split; [eauto | reflexivity].
      * split; [eauto|]. intros _. cbn [link_dispatch].
        destruct (bool_decide (code = Some 0)); reflexivity.
  - intros w Hin. pose proof (back_scenario_run w Hin) as Hrun.
    pose proof (new_events_emit_all _ _ _ _ (fun w' => w') _ Hrun
                  (fun w' => eq_refl)) as Hnew.
    split; [rewrite Hrun; reflexivity|]. split; [exact Hnew|].
    rewrite Hnew. reflexivity.
Qed.

(** In an installation where the scripts are present the lines 1, 2, 5, 4
    do spawn the LINK script. *)
Lemma scenario_dispatches_link_script_witness :
  let w := session scenario offline in
  fst (main w) = Halt (Exited 0)
  /\ spawns (new_events main w) = true
  /\ spawns (new_events main (session back_scenario offline)) = false.
Proof.
  intros w.
  destruct scenario_dispatches_link_script as [Hlink Hback].
  destruct (Hlink w eq_refl) as (Hexit & _ & Hspawn).
  destruct (Hback (session back_scenario offline) eq_refl) as (_ & _ & Hnone).
  split; [exact Hexit|]. split; [|exact Hnone].
  apply Hspawn. split; [reflexivity|]. eexists. reflexivity.
Defined.

(** The claim as the specification has it fails on the code: with the
    scripts in place, the lines 1, 2, 5, 4 launch the LINK script. *)
Lemma scenario_spawns_link_script :
  stdin (session scenario offline) = [js "1"; js "2"; js "5"; js "4"]
  /\ In (Spawn link_script) (new_events main (session scenario offline))
  /\ ~ Forall (fun e => ~ is_spawn e) (new_events main (session scenario offline)).
Proof.
  assert (Hin : In (Spawn link_script) (new_events main (session scenario offline))).
  { vm_compute. tauto. }
  split; [reflexivity|]. split; [exact Hin|].
  intros Hall. rewrite Forall_forall in Hall.
  apply (Hall (Spawn link_script)); [apply list_elem_of_In, Hin | exact I].
Qed.

(** ** Trailing commas in the version file *)

(** A body that is not JSON after the clean-up gives the empty list and
    the error line; nothing is thrown. *)
Lemma fetchVersionsJson_invalid_body w r text :
  http w (asked w) versions_url = Responded r ->
  status r = 200 ->
  data r = VString text ->
  JSON_parse (cleanup text) = None ->
  fetchVersionsJson w
  = (Val [], emit_all [HttpGet versions_url;
                       Log (MsgFetchVersionsError (err_message SyntaxError))]
                      (answered w)).
Proof.
  intros Hr Hst Hdata Hparse. rewrite fetchVersionsJson_cases. cbv zeta.
  rewrite Hr. apply Z.eqb_eq in Hst. rewrite Hst, Hdata.
  cbn [received]. rewrite Hparse. reflexivity.
Qed.

(** C2, where the code falls short of it.  The body [feed_trailing] has
    no other defect than its trailing commas and its layout: without the
    commas it is the JSON of one release.  The clean-up turns every run of
    white space into one space and removes a comma only when the bracket
    follows it directly, so the commas before [ }] and [ ]] stay,
    [JSON.parse] throws, and [fetchVersionsJson] prints the error line and
    returns the empty list.  With nothing between comma and bracket the
    same release is read. *)
Theorem trailing_comma_before_space_survives :
  axios_data feed_trailing_repaired
  = VArray [VObject [(js "VERSION", VString (js "1.2.0"));
                     (js "UPDATE_DATE", VString (js "2025-07-02"));
                     (js "CHANGES", VArray [VString (js "usdc"); VString (js "fixes")])]]
  /\ cleanup feed_trailing
     = jsq "[ { 'VERSION': '1.2.0', 'UPDATE_DATE': '2025-07-02', 'CHANGES': ['usdc', 'fixes'], }, ]"
  /\ JSON_parse (cleanup feed_trailing) = None
  /\ fetchVersionsJson (session [] (serving feed_trailing))
     = (Val [],
        emit_all [HttpGet versions_url;
                  Log (MsgFetchVersionsError (err_message SyntaxError))]
                 (answered (session [] (serving feed_trailing))))
  /\ fst (fetchVersionsJson (session [] (serving feed_tight)))
     = Val [release "1.2.0" "2025-07-02" ["usdc"%string; "fixes"%string]].
Proof.
  split; [vm_compute; reflexivity|].
  split; [vm_compute; reflexivity|].
  split; [vm_compute; reflexivity|].
  split; [|vm_compute; reflexivity].
  apply (fetchVersionsJson_invalid_body _
           {| status := 200; data := VString feed_trailing |} feed_trailing).
  - vm_compute. reflexivity.
  - reflexivity.
  - reflexivity.
  - vm_compute. reflexivity.
Qed.


(** * The rest of the launcher *)

(** ** Callbacks that only compute *)

(** [filter] with a callback that returns without touching the world is
    the list function. *)
Lemma keep_pure (p : jsval -> M bool) (q : jsval -> bool) l w :
  Forall (fun x => p x w = (Val (q x), w)) l ->
  keep p l w = (Val (List.filter q l), w).
Proof.
  induction 1 as [|x rest Hx _ IH]; [reflexivity|].
  cbn [keep List.filter]. rewrite (bind_val _ _ _ _ _ Hx), (bind_val _ _ _ _ _ IH).
  destruct (q x); reflexivity.
Qed.

(** A callback that throws at an element, after elements at which it
    only computes, makes [filter] throw. *)
Lemma keep_throws (p : jsval -> M bool) (q : jsval -> bool) before x after w e :
  Forall (fun y => p y w = (Val (q y), w)) before ->
  p x w = (Throw e, w) ->
  keep p (before ++ x :: after) w = (Throw e, w).
Proof.
  intros Hbefore Hx. induction Hbefore as [|y rest Hy _ IH]; cbn [app keep].
  - unfold mbind, M_bind. rewrite Hx. reflexivity.
  - rewrite (bind_val _ _ _ _ _ Hy). unfold mbind at 1, M_bind at 1.
    rewrite IH. reflexivity.
Qed.

(** ** The repository listing *)

Lemma filter_is_file items :
  Forall (fun item => is_file item = true) (List.filter is_file items).
Proof.
  apply List.Forall_forall. intros item Hin.
  apply List.filter_In in Hin. tauto.
Qed.

(** The listing made of a 200 response that carries an array of
    readable items. *)
Lemma listing_of_items items w :
  Forall readable items ->
  (items ← array_filter (VArray items) (fun item =>
              type ← get_prop item "type";
              mret (is_string (js "file") type));
   each (fun item =>
           item_name ← get_prop item "name";
           item_url ← get_prop item "download_url";
           mret {| name := item_name; download_url := item_url |})
        items) w
  = (Val (map entry_of (List.filter is_file items)), w).
Proof.
  intros Hread. cbn [array_filter].
  erewrite bind_val; [|apply (keep_pure _ is_file)].
  - apply each_pure. eapply Forall_impl; [apply filter_is_file|].
    intros item Hitem. destruct item; try discriminate. reflexivity.
  - eapply Forall_impl; [exact Hread|]. intros item [Hnull Hundef].
    destruct item; try congruence; reflexivity.
Qed.

(** Whatever the listing request brings, [fetchRepoFiles] returns a
    list. *)
Lemma fetchRepoFiles_returns w :
  exists listing w', fetchRepoFiles w = (Val listing, w').
Proof.
  unfold fetchRepoFiles, try_catch.
  match goal with |- context [(?m ≫= ?f) w] => destruct ((m ≫= f) w) as [[l|e|h] w1] eqn:Hrun end.
  - eauto.
  - eexists _, _. reflexivity.
  - exfalso. revert Hrun. unfold mbind at 1, M_bind at 1, axios_get.
    destruct (http w (asked w) contents_url) as [r|e]; [|discriminate].
    destruct (status r =? 200); [|discriminate].
    set (w0 := answered _).
    assert (Hkeep : forall p l w2 h w3, (forall x w4 h' w5, p x w4 <> (Halt h', w5)) ->
              keep p l w2 <> (Halt h, w3)).
    { intros p l. induction l as [|x rest IH]; intros w2 h' w3 Hp; [discriminate|].
      cbn [keep]. unfold mbind at 1, M_bind at 1.
      destruct (p x w2) as [[b|e|h2] w4] eqn:Hpx; [|discriminate|exfalso; eapply Hp, Hpx].
      unfold mbind, M_bind.
      destruct (keep p rest w4) as [[ys|e|h2] w5] eqn:Hk;
        [discriminate|discriminate|exfalso; eapply IH, Hk; exact Hp]. }
    assert (Heach : forall (f : jsval -> M file_entry) l w2 h w3,
              (forall x w4 h' w5, f x w4 <> (Halt h', w5)) ->
              each f l w2 <> (Halt h, w3)).
    { intros f l. induction l as [|x rest IH]; intros w2 h' w3 Hf; [discriminate|].
      cbn [each]. unfold mbind at 1, M_bind at 1.
      destruct (f x w2) as [[b|e|h2] w4] eqn:Hfx; [|discriminate|exfalso; eapply Hf, Hfx].
      unfold mbind, M_bind.
      destruct (each f rest w4) as [[ys|e|h2] w5] eqn:Hk;
        [discriminate|discriminate|exfalso; eapply IH, Hk; exact Hf]. }
    unfold mbind at 1, M_bind at 1.
    destruct (data r) as [ | |b|lexeme|text|items|fields]; try discriminate.
    cbn [array_filter].
    match goal with |- context [keep ?p items w0] =>
      destruct (keep p items w0) as [[kept|e|h2] w2] eqn:Hk end; [|discriminate|].
    + intros Hrun. eapply Heach, Hrun. intros x w4 h' w5. destruct x; discriminate.
    + exfalso. eapply Hkeep, Hk. intros x w4 h' w5. destruct x; discriminate.
Qed.


(** X1.  For a 200 response whose data is an array of items that are
    neither [null] nor [undefined], [fetchRepoFiles] returns, in the order
    of the listing, one entry for each item whose [type] is the string
    [file], with the item's [name] and [download_url]; directories and
    other items are left out, and nothing is printed. *)
Theorem fetchRepoFiles_lists_files (w : world) (r : response) (items : list jsval) :
  http w (asked w) contents_url = Responded r ->
  status r = 200 ->
  data r = VArray items ->
  Forall readable items ->
  fetchRepoFiles w
  = (Val (map entry_of (List.filter is_file items)),
     answered (emit (HttpGet contents_url) w)).
Proof.
  intros Hr Hst Hdata Hread. unfold fetchRepoFiles, try_catch.
  unfold mbind at 1, M_bind at 1, axios_get. rewrite Hr.
  apply Z.eqb_eq in Hst. rewrite Hst, Hdata.
  rewrite listing_of_items by exact Hread. reflexivity.
Qed.

Lemma fetchRepoFiles_lists_files_witness :
  fetchRepoFiles (session [] (serving listing_body))
  = (Val [ {| name := VString (js "index.js");
              download_url := VString (js "https://raw.example/index.js") |};
           {| name := VString (js "README.md");
              download_url := VString (js "https://raw.example/README.md") |} ],
     answered (emit (HttpGet contents_url) (session [] (serving listing_body)))).
Proof.
  apply (fetchRepoFiles_lists_files (session [] (serving listing_body))
           {| status := 200; data := VArray listing_items |} listing_items).
  - vm_compute. reflexivity.
  - reflexivity.
  - reflexivity.
  - repeat constructor; discriminate.
Defined.

(** X2.  [fetchRepoFiles] always returns a list.  A rejected request and
    a response with another status than 200 are reported on the console
    and give the empty list, and so does a 200 response whose data is not
    an array or holds a [null]: the TypeError is caught inside. *)
Theorem fetchRepoFiles_total (w : world) :
  (exists listing w', fetchRepoFiles w = (Val listing, w'))
  /\ (forall e,
        http w (asked w) contents_url = Rejected e ->
        fetchRepoFiles w
        = (Val [], emit_all [HttpGet contents_url;
                             Log (MsgFetchFilesError (err_message e))] (answered w)))
  /\ (forall r,
        http w (asked w) contents_url = Responded r ->
        status r <> 200 ->
        fetchRepoFiles w
        = (Val [], emit_all [HttpGet contents_url;
                             Log (MsgFetchFilesFailed (status r))] (answered w)))
  /\ (forall r,
        http w (asked w) contents_url = Responded r ->
        status r = 200 ->
        ~ is_array (data r) ->
        exists e,
          fetchRepoFiles w
          = (Val [], emit_all [HttpGet contents_url;
                               Log (MsgFetchFilesError (err_message e))]
                              (answered w)))
  /\ (forall r before after,
        http w (asked w) contents_url = Responded r ->
        status r = 200 ->
        data r = VArray (before ++ VNull :: after) ->
        Forall readable before ->
        exists e,
          fetchRepoFiles w
          = (Val [], emit_all [HttpGet contents_url;
                               Log (MsgFetchFilesError (err_message e))]
                              (answered w))).
Proof.
  split; [apply fetchRepoFiles_returns|].
  assert (Hstart : forall (f : response -> M (list file_entry)) h,
    try_catch (axios_get contents_url ≫= f) h w
    = match http w (asked w) contents_url with
      | Responded r => try_catch (f r) h (answered (emit (HttpGet contents_url) w))
      | Rejected e => h e (answered (emit (HttpGet contents_url) w))
      end).
  { intros f h. unfold try_catch, mbind, M_bind, axios_get.
    destruct (http w (asked w) contents_url); reflexivity. }
  unfold fetchRepoFiles. rewrite Hstart. clear Hstart.
  split; [|split; [|split]].
  - intros e ->. reflexivity.
  - intros r -> Hst. apply Z.eqb_neq in Hst. rewrite Hst. reflexivity.
  - intros r -> Hst Hnot. apply Z.eqb_eq in Hst. rewrite Hst.
    destruct (data r); try (eexists; reflexivity). exfalso. apply Hnot. exact I.
  - intros r before after -> Hst -> Hread. apply Z.eqb_eq in Hst. rewrite Hst.
    exists null_read.
    cbn [array_filter]. set (w1 := answered _).
    unfold try_catch, mbind at 1, M_bind at 1.
    rewrite (keep_throws _ is_file before VNull after w1 null_read); [reflexivity| |reflexivity].
    eapply Forall_impl; [exact Hread|]. intros item [Hnull Hundef].
    destruct item; try congruence; reflexivity.
Qed.

Lemma fetchRepoFiles_total_witness :
  fetchRepoFiles (session [] (refusing 403))
  = (Val [], emit_all [HttpGet contents_url; Log (MsgFetchFilesFailed 403)]
                      (answered (session [] (refusing 403))))
  /\ fst (fetchRepoFiles (session [] (serving (jsq "{'message':'Not Found'}")))) = Val [].
Proof.
  split.
  - destruct (fetchRepoFiles_total (session [] (refusing 403))) as (_ & _ & Hst & _).
    apply (Hst {| status := 403; data := VNull |}); [reflexivity | discriminate].
  - destruct (fetchRepoFiles_total (session [] (serving (jsq "{'message':'Not Found'}"))))
      as (_ & _ & _ & Hshape & _).
    destruct (Hshape {| status := 200;
                        data := VObject [(js "message", VString (js "Not Found"))] |})
      as [e ->]; [vm_compute; reflexivity | reflexivity | intros H; exact H|].
    reflexivity.
Defined.

(** ** One download *)

Lemma downloadFile_goes_through file s r w :
  name file = VString s ->
  s ∉ EXCLUDED_FILES ->
  http w (asked w) (download_url file) = Responded r ->
  status r = 200 ->
  write w (S (asked w)) (Path.join (dirname w) s) = None ->
  downloadFile file w
  = (Val tt,
     emit (Log (MsgDownloaded (name file)))
       (with_files (<[Path.join (dirname w) s := data r]> (files w))
          (emit_all [HttpGet (download_url file);
                     WriteFile (Path.join (dirname w) s) (data r)]
                    (answered (answered w))))).
Proof.
  intros Hname Hex Hr Hst Hwrite. unfold downloadFile, excluded, interpolate.
  rewrite Hname, bool_decide_eq_false_2 by exact Hex.
  unfold try_catch, mbind, M_bind, axios_get, path_join, fs_writeFile, console_log.
  rewrite Hr. apply Z.eqb_eq in Hst. rewrite Hst. cbn. rewrite Hwrite. reflexivity.
Qed.

(** X3.  A download that goes through: for an entry with a string name
    that is not excluded, a 200 response and a write that succeeds, the
    local file at the path [path.join] makes of the directory of the
    launcher and the name holds the data of the response afterwards,
    whether or not it existed before, the file at every other path is
    as it was, and the success line is printed. *)
Theorem downloadFile_overwrites
    (file : file_entry) (s : jsstring) (r : response) (w : world) :
  name file = VString s ->
  s ∉ EXCLUDED_FILES ->
  http w (asked w) (download_url file) = Responded r ->
  status r = 200 ->
  write w (S (asked w)) (Path.join (dirname w) s) = None ->
  fst (downloadFile file w) = Val tt
  /\ files (snd (downloadFile file w)) !! Path.join (dirname w) s = Some (data r)
  /\ (forall other, other <> Path.join (dirname w) s ->
        files (snd (downloadFile file w)) !! other = files w !! other)
  /\ new_events (downloadFile file) w
     = [HttpGet (download_url file); WriteFile (Path.join (dirname w) s) (data r);
        Log (MsgDownloaded (name file))].
Proof.
  intros Hname Hex Hr Hst Hwrite. unfold new_events.
  rewrite (downloadFile_goes_through file s r w Hname Hex Hr Hst Hwrite).
  cbn [fst snd files with_files emit].
  split; [reflexivity|]. split; [apply lookup_insert_eq|].
  split; [intros other Hother; apply lookup_insert_ne; congruence|].
  cbn. rewrite <- !app_assoc. apply drop_app_length.
Qed.

Lemma downloadFile_overwrites_witness :
  let file := {| name := VString (js "lib/../index.js");
                 download_url := VString (js "https://raw.example/index.js") |} in
  let w := with_files {[ js "/srv/union/index.js" := VString (js "old") ]}
             (session [] (serving (js "new content"))) in
  files (snd (downloadFile file w)) !! js "/srv/union/index.js"
  = Some (VString (js "new content")).
Proof.
  intros file w.
  apply (downloadFile_overwrites file (js "lib/../index.js")
           {| status := 200; data := VString (js "new content") |} w).
  - reflexivity.
  - apply (bool_decide_unpack _). vm_compute. exact I.
  - vm_compute. reflexivity.
  - reflexivity.
  - reflexivity.
Defined.




(** ** The sync pass as a whole *)

Lemma fetchRepoFiles_keeps_files w : files (snd (fetchRepoFiles w)) = files w.
Proof.
  assert (H : preserves (fun w w' => files w' = files w) fetchRepoFiles);
    [|exact (H w)].
  assert (Hstep : Stepwise (fun w w' => files w' = files w)
                    (fun _ => True) (fun _ => False)).
  { split; cbn; try reflexivity; try tauto. intros; congruence. }
  apply preserves_fetchRepoFiles. intros e _. exact I.
Qed.

Lemma fetchRepoFiles_same_dirname w : dirname (snd (fetchRepoFiles w)) = dirname w.
Proof. apply (preserves_fetchRepoFiles (R := same_dirname)). intros; exact I. Qed.

(** What [updateFiles] does with the listing it fetched. *)
Lemma updateFiles_listing w listing w1 :
  fetchRepoFiles w = (Val listing, w1) ->
  listing <> [] ->
  updateFiles w
  = (each downloadFile listing;;
     console_log MsgUpdateComplete;;
     mret true) (emit (Log MsgDownloading) w1).
Proof.
  intros Hlist Hne. unfold updateFiles. rewrite (bind_val _ _ _ _ _ Hlist).
  rewrite bool_decide_eq_false_2 by (destruct listing; [congruence | discriminate]).
  reflexivity.
Qed.

(** X5.  The verdict of [updateFiles].  With an empty listing, which is
    also what every failure of the listing request gives, it says that
    there is nothing to update and returns [false] without any download.
    With a listing whose names all have a string conversion it goes
    through all the entries, says that the update is complete and
    returns [true], whatever became of the single downloads.  At the
    first entry whose name has none the pass ends: [updateFiles] throws
    after the request for that entry, the entries after it are not
    processed and nothing more is printed. *)
Theorem updateFiles_verdict (w : world) :
  exists listing w1,
    fetchRepoFiles w = (Val listing, w1)
    /\ (listing = [] -> updateFiles w = (Val false, emit (Log MsgNoFiles) w1))
    /\ (listing <> [] ->
        Forall (fun file => printable (name file) = true) listing ->
        exists w2,
          each downloadFile listing (emit (Log MsgDownloading) w1)
          = (Val (map (fun _ => tt) listing), w2)
          /\ updateFiles w = (Val true, emit (Log MsgUpdateComplete) w2))
    /\ (forall before file after,
        listing = before ++ file :: after ->
        Forall (fun earlier => printable (name earlier) = true) before ->
        printable (name file) = false ->
        updateFiles w
        = (Throw no_string_conversion,
           answered (emit (HttpGet (download_url file))
                       (snd (each downloadFile before (emit (Log MsgDownloading) w1)))))).
Proof.
  destruct (fetchRepoFiles_returns w) as (listing & w1 & Hlist).
  exists listing, w1. split; [exact Hlist|]. split; [|split].
  - intros ->. unfold updateFiles. rewrite (bind_val _ _ _ _ _ Hlist). reflexivity.
  - intros Hne Hall. rewrite (updateFiles_listing w listing w1 Hlist Hne).
    destruct (each_downloadFile_returns listing (emit (Log MsgDownloading) w1) Hall)
      as [w2 Hrun].
    exists w2. split; [exact Hrun|].
    rewrite (bind_val _ _ _ _ _ Hrun). reflexivity.
  - intros before file after Hsplit Hall Hfile.
    rewrite (updateFiles_listing w listing w1 Hlist)
      by (rewrite Hsplit; destruct before; discriminate).
    apply bind_throw. rewrite Hsplit. apply each_downloadFile_stops; assumption.
Qed.

Lemma updateFiles_verdict_witness :
  updateFiles (session [] (refusing 403))
  = (Val false,
     emit_all [HttpGet contents_url; Log (MsgFetchFilesFailed 403); Log MsgNoFiles]
              (answered (session [] (refusing 403))))
  /\ fst (updateFiles (session [] (repository listing_body 500 VNull))) = Val true
  /\ fst (updateFiles (session [] (repository listing_unprintable 200 VNull)))
     = Throw no_string_conversion.
Proof.
  split; [|split].
  - destruct (updateFiles_verdict (session [] (refusing 403)))
      as (listing & w1 & Hlist & Hempty & _).
    vm_compute in Hlist. injection Hlist as <- <-. apply Hempty. reflexivity.
  - destruct (updateFiles_verdict (session [] (repository listing_body 500 VNull)))
      as (listing & w1 & Hlist & _ & Hfull & _).
    vm_compute in Hlist. injection Hlist as <- <-.
    destruct Hfull as (w2 & _ & ->);
      [discriminate | repeat constructor | reflexivity].
  - destruct (updateFiles_verdict (session [] (repository listing_unprintable 200 VNull)))
      as (listing & w1 & Hlist & _ & _ & Hstop).
    vm_compute in Hlist. injection Hlist as <- <-.
    rewrite (Hstop [] _ _ eq_refl); [reflexivity | constructor | reflexivity].
Defined.

Lemma target_same_dirname w w0 file :
  dirname w = dirname w0 -> target w file = target w0 file.
Proof. intros H. unfold target. rewrite H. reflexivity. Qed.

Lemma downloadFile_keeps_other file x w :
  excluded (name file) = true \/ target w file <> Some x ->
  files (snd (downloadFile file w)) !! x = files w !! x.
Proof.
  intros Hname. unfold downloadFile, interpolate, target in *.
  destruct (excluded (name file)).
  { destruct (printable (name file)); reflexivity. }
  destruct Hname as [Hname|Hname]; [discriminate|].
  unfold try_catch, mbind, M_bind, axios_get, path_join, fs_writeFile, console_log.
  destruct (http w (asked w) (download_url file)) as [r|e];
    [|destruct (printable (name file)); reflexivity].
  destruct (status r =? 200); [|destruct (printable (name file)); reflexivity].
  destruct (name file) as [ | |b|lexeme|s|items|fields];
    try (destruct (printable _); reflexivity).
  cbn. destruct (write w (S (asked w)) _); cbn; [reflexivity|].
  apply lookup_insert_ne. congruence.
Qed.

Lemma each_downloadFile_keeps_other listing x w0 w :
  dirname w = dirname w0 ->
  Forall (fun file => excluded (name file) = true \/ target w0 file <> Some x) listing ->
  files (snd (each downloadFile listing w)) !! x = files w !! x.
Proof.
  intros Hdir Hall. revert w Hdir.
  induction Hall as [|file rest Hfile _ IH]; intros w Hdir.
  - reflexivity.
  - cbn [each]. unfold mbind, M_bind.
    assert (Hone : files (snd (downloadFile file w)) !! x = files w !! x).
    { apply downloadFile_keeps_other.
      rewrite (target_same_dirname w w0 file Hdir). exact Hfile. }
    pose proof (downloadFile_same_dirname file w) as Hdir1.
    destruct (downloadFile file w) as [[u|e|h] w1]; cbn [snd] in *;
      [|exact Hone|exact Hone].
    specialize (IH w1 (eq_trans Hdir1 Hdir)).
    destruct (each downloadFile rest w1) as [[l|e|h] w2]; cbn in *; congruence.
Qed.

(** X6.  A sync pass changes no local file but those the repository
    listing addresses: a file is after [updateFiles] what it was before,
    however the pass ends, when every entry of the listing is skipped as
    excluded or is written to another path, the path of an entry being
    the one [path.join] makes of its name.  So [private_keys.txt] is
    kept as long as the listing addresses it by that name only. *)
Theorem updateFiles_touches_listed_files_only
    (w w1 : world) (listing : list file_entry) (x : jsstring) :
  fetchRepoFiles w = (Val listing, w1) ->
  Forall (fun file => excluded (name file) = true \/ target w file <> Some x) listing ->
  files (snd (updateFiles w)) !! x = files w !! x.
Proof.
  intros Hlist Hall. unfold updateFiles. rewrite (bind_val _ _ _ _ _ Hlist).
  pose proof (fetchRepoFiles_keeps_files w) as Hkeep.
  pose proof (fetchRepoFiles_same_dirname w) as Hdir.
  rewrite Hlist in Hkeep, Hdir. cbn [snd] in Hkeep, Hdir.
  unfold mbind, M_bind, console_log.
  destruct (bool_decide _); [cbn; congruence|].
  pose proof (each_downloadFile_keeps_other listing x w
                (emit (Log MsgDownloading) w1) Hdir Hall) as Hrest.
  destruct (each downloadFile listing (emit (Log MsgDownloading) w1))
    as [[l|e|h] w2]; cbn in *; congruence.
Qed.

Lemma updateFiles_touches_listed_files_only_witness :
  let w := with_files {[ keys_path := VString (js "secret") ]}
             (session [] (repository listing_with_keys_body 200
                                     (VString (js "new content")))) in
  files (snd (updateFiles w)) !! keys_path = Some (VString (js "secret")).
Proof.
  intros w.
  erewrite (updateFiles_touches_listed_files_only w _ _ keys_path).
  - reflexivity.
  - vm_compute. reflexivity.
  - constructor; [right; vm_compute; discriminate|].
    constructor; [left; reflexivity|].
    constructor; [right; vm_compute; discriminate|]. constructor.
Defined.

(** ** The table of changes *)

Lemma rows_throw versions w :
  Exists (fun d => presentable d = false) versions ->
  exists e,
    each (fun v => changesStr ← array_map (changes v) interpolate;
                   shown ← interpolate (version v);
                   mret (shown, update_date v, changesStr)) versions w
    = (Throw e, w).
Proof.
  induction versions as [|d rest IH]; intros Hbad; [inversion Hbad|].
  cbn [each]. destruct (presentable d) eqn:Hd.
  - rewrite (bind_val _ _ _ _ _ (row_is_pure d w Hd)).
    destruct IH as [e He]; [inversion Hbad; subst; [congruence | assumption]|].
    exists e. cbv beta. apply bind_throw, He.
  - clear IH Hbad. unfold presentable in Hd.
    destruct (changes d) as [ | |b|lexeme|text|items|fields];
      try (eexists; apply bind_throw, bind_throw; reflexivity).
    cbn [array_map].
    destruct (forallb printable items) eqn:Hitems.
    + destruct (interpolate_throws (version d) w) as [e He]; [exact Hd|].
      exists e. apply bind_throw.
      rewrite (bind_val _ _ _ _ _ (each_interpolate items w Hitems)).
      apply bind_throw, He.
    + assert (Hthrow : exists e, each interpolate items w = (Throw e, w)).
      { clear Hd. induction items as [|v more IHm]; [discriminate|].
        cbn [forallb each] in *. destruct (printable v) eqn:Hv.
        - rewrite (bind_val _ _ _ _ _ (interpolate_printable v w Hv)).
          destruct (IHm Hitems) as [e He]. exists e. apply bind_throw, He.
        - destruct (interpolate_throws v w Hv) as [e He]. exists e.
          apply bind_throw, He. }
      destruct Hthrow as [e He]. exists e. apply bind_throw, bind_throw, He.
Qed.

Lemma formatVersionChanges_throws versions w :
  Exists (fun d => presentable d = false) versions ->
  exists e, formatVersionChanges versions w = (Throw e, w).
Proof.
  intros Hbad. unfold formatVersionChanges.
  rewrite bool_decide_eq_false_2 by (destruct Hbad; discriminate).
  destruct (rows_throw versions w Hbad) as [e He]. exists e.
  apply bind_throw, He.
Qed.

(** X7.  [formatVersionChanges] prints all of the table or nothing.  For
    the empty list it prints one line that says so.  For descriptors
    whose cells can all be written, a list of changes with string
    conversions and a version with one, it prints the heading, a table
    with one row per descriptor in the order given, and an empty line.
    As soon as one descriptor carries something else than a list, or a
    change or a version without string conversion, it throws before
    anything is printed. *)
Theorem formatVersionChanges_all_or_nothing (versions : list descriptor) (w : world) :
  (versions = [] ->
   formatVersionChanges versions w = (Val tt, emit (Log MsgNoVersionInfo) w))
  /\ (versions <> [] ->
      Forall (fun d => presentable d = true) versions ->
      formatVersionChanges versions w = (Val tt, emit_all (table_of versions) w))
  /\ (Exists (fun d => presentable d = false) versions ->
      exists e, formatVersionChanges versions w = (Throw e, w)).
Proof.
  split; [|split].
  - intros ->. reflexivity.
  - apply formatVersionChanges_prints.
  - apply formatVersionChanges_throws.
Qed.

Lemma formatVersionChanges_all_or_nothing_witness :
  let w := session [] offline in
  formatVersionChanges [release "1.2.0" "2025-07-02" ["usdc"%string; "fixes"%string]] w
  = (Val tt,
     emit_all (table_of [release "1.2.0" "2025-07-02" ["usdc"%string; "fixes"%string]]) w)
  /\ (exists e,
       formatVersionChanges
         [{| version := VString (js "1.2.0");
             update_date := moment_format VUndefined;
             changes := VUndefined |}] w
       = (Throw e, w))
  /\ exists e,
       formatVersionChanges
         [{| version := VString (js "1.2.0");
             update_date := moment_format VUndefined;
             changes := VArray [VString (js "usdc");
                                VObject [(js "toString", VNumber (js "1"))]] |}] w
       = (Throw e, w).
Proof.
  intros w. split; [|split].
  - apply formatVersionChanges_all_or_nothing; [discriminate|].
    repeat constructor.
  - apply formatVersionChanges_all_or_nothing. left. reflexivity.
  - apply formatVersionChanges_all_or_nothing. left. reflexivity.
Defined.


(** ** The answer to the update offer *)

Lemma lowers_to_y s : toLowerCase s = js "y" <-> s = js "y" \/ s = js "Y".
Proof.
  split; [|intros [->| ->]; reflexivity].
  destruct s as [|c [|d rest]]; cbn; try discriminate.
  unfold lower_unit. intros [= H].
  destruct (N.leb_spec 65 c), (N.leb_spec c 90); cbn in H;
    first [left; f_equal; lia | right; f_equal; lia].
Qed.

Lemma fetchRepoFiles_requests w :
  exists evs, trace (snd (fetchRepoFiles w)) = trace w ++ HttpGet contents_url :: evs.
Proof.
  unfold fetchRepoFiles.
  match goal with |- context [try_catch (axios_get contents_url ≫= ?f) ?h] =>
    assert (Hf : forall r, preserves (extends_by (fun _ => True)) (try_catch (f r) h));
    [|assert (Hh : forall e, preserves (extends_by (fun _ => True)) (h e))];
    [| |assert (Hrun : try_catch (axios_get contents_url ≫= f) h w
            = match http w (asked w) contents_url with
              | Responded r => try_catch (f r) h (answered (emit (HttpGet contents_url) w))
              | Rejected e => h e (answered (emit (HttpGet contents_url) w))
              end)]
  end.
  - intros r. preserve; exact I.
  - intros e. preserve; exact I.
  - unfold try_catch, mbind, M_bind, axios_get.
    destruct (http w (asked w) contents_url); reflexivity.
  - rewrite Hrun.
    destruct (http w (asked w) contents_url) as [r|e];
      [destruct (Hf r (answered (emit (HttpGet contents_url) w))) as (evs & -> & _)
      |destruct (Hh e (answered (emit (HttpGet contents_url) w))) as (evs & -> & _)];
      exists evs; cbn; rewrite <- app_assoc; reflexivity.
Qed.

Lemma updateFiles_requests w :
  exists evs, trace (snd (updateFiles w)) = trace w ++ HttpGet contents_url :: evs.
Proof.
  unfold updateFiles.
  destruct (fetchRepoFiles_requests w) as [evs1 H1].
  destruct (fetchRepoFiles_returns w) as (listing & w1 & Hlist).
  rewrite Hlist in H1. cbn [snd] in H1. rewrite (bind_val _ _ _ _ _ Hlist).
  match goal with |- context [snd (?k w1)] =>
    assert (Hk : preserves (extends_by (fun _ => True)) k) end.
  { preserve; try exact I.
    apply (preserves_downloadFile (R := extends_by (fun _ => True))); intros; exact I. }
  destruct (Hk w1) as (evs2 & -> & _). exists (evs1 ++ evs2).
  rewrite H1, <- app_assoc. reflexivity.
Qed.

Lemma offer_update_asks versions latest w answer later :
  versions <> [] ->
  Forall (fun d => presentable d = true) versions ->
  printable (version latest) = true ->
  stdin w = answer :: later ->
  offer_update versions latest w
  = (if bool_decide (toLowerCase (trim answer) = js "y") then
       updateFiles;;
       console_log MsgPleaseRestart;;
       console_log MsgPressEnterMain;;
       getUserInput PromptEnter;;
       mret false
     else
       console_log MsgUpdateSkipped;;
       console_log MsgPressEnterMain;;
       getUserInput PromptEnter;;
       mret false)
      (with_stdin later (emit_all (offer versions latest) w)).
Proof.
  intros Hne Hall Hv Hin. unfold offer_update.
  rewrite (bind_val _ _ _ _ _ (interpolate_printable _ w Hv)).
  rewrite (bind_val _ _ w tt (emit (Log (MsgNewVersion (version latest))) w))
    by reflexivity.
  rewrite (bind_val _ _ _ _ _
             (formatVersionChanges_prints versions
                (emit (Log (MsgNewVersion (version latest))) w) Hne Hall)).
  erewrite bind_val; [|unfold getUserInput; rewrite stdin_emit_all; cbn; rewrite Hin;
                       reflexivity].
  unfold offer. rewrite emit_all_cons, emit_all_app. reflexivity.
Qed.

(** X8.  The update offer, for releases whose cells can be written and a
    latest version with a string conversion, is taken only by the answer
    [y] or [Y], white space around it aside: the sync then starts with
    the request for the repository listing.  Every other answer, [yes]
    included, skips the update: the launcher says so and pauses, no
    request is made and no local file changes. *)
Theorem update_needs_a_plain_y
    (versions : list descriptor) (latest : descriptor) (w : world)
    (answer : jsstring) (later : list jsstring) :
  versions <> [] ->
  Forall (fun d => presentable d = true) versions ->
  printable (version latest) = true ->
  stdin w = answer :: later ->
  (trim answer = js "y" \/ trim answer = js "Y" ->
   exists evs,
     new_events (offer_update versions latest) w
     = offer versions latest ++ HttpGet contents_url :: evs)
  /\ (trim answer <> js "y" -> trim answer <> js "Y" ->
      files (snd (offer_update versions latest w)) = files w
      /\ exists pause,
           new_events (offer_update versions latest) w
           = offer versions latest
             ++ Log MsgUpdateSkipped :: Log MsgPressEnterMain :: pause
           /\ (pause = [] \/ pause = [Question PromptEnter])).
Proof.
  intros Hne Hall Hv Hin. unfold new_events.
  rewrite (offer_update_asks versions latest w answer later Hne Hall Hv Hin).
  set (w1 := with_stdin later (emit_all (offer versions latest) w)).
  assert (Ht1 : trace w1 = trace w ++ offer versions latest)
    by (subst w1; rewrite trace_with_stdin, trace_emit_all; reflexivity).
  split.
  - intros Hy. apply lowers_to_y in Hy.
    rewrite bool_decide_eq_true_2 by exact Hy.
    destruct (updateFiles_requests w1) as [evs1 H1].
    destruct (updateFiles w1) as [[b|e|h] w3] eqn:Hrun; cbn [snd] in H1.
    + rewrite (bind_val _ _ _ _ _ Hrun).
      match goal with |- context [snd (?k w3)] =>
        assert (Hk : preserves (extends_by (fun _ => True)) k) by (preserve; exact I) end.
      destruct (Hk w3) as (evs2 & -> & _). exists (evs1 ++ evs2).
      rewrite H1, Ht1, <- !app_assoc. rewrite drop_app_length. reflexivity.
    + rewrite (bind_throw _ _ _ _ _ Hrun). cbn [snd]. exists evs1.
      rewrite H1, Ht1, <- !app_assoc. rewrite drop_app_length. reflexivity.
    + unfold mbind, M_bind. rewrite Hrun. cbn [snd]. exists evs1.
      rewrite H1, Ht1, <- !app_assoc. rewrite drop_app_length. reflexivity.
  - intros Hy HY.
    rewrite bool_decide_eq_false_2 by (rewrite lowers_to_y; tauto).
    assert (Hf1 : files w1 = files w) by (subst w1; apply files_emit_all).
    clearbody w1.
    unfold mbind, M_bind, console_log, getUserInput. cbn [stdin stdin_ended emit].
    destruct (stdin w1) as [|line rest]; [destruct (stdin_ended w1)|];
      cbn; rewrite Ht1, <- !app_assoc, drop_app_length; (split; [exact Hf1|]).
    + exists []. auto.
    + exists [Question PromptEnter]. auto.
    + exists [Question PromptEnter]. auto.
Qed.

Lemma update_needs_a_plain_y_witness :
  let versions := [release "1.2.0" "2025-07-02" ["usdc"%string]] in
  let latest := release "1.2.0" "2025-07-02" ["usdc"%string] in
  let w := session [js "yes"; js ""] offline in
  files (snd (offer_update versions latest w)) = files w
  /\ exists pause,
       new_events (offer_update versions latest) w
       = offer versions latest ++ Log MsgUpdateSkipped :: Log MsgPressEnterMain :: pause
       /\ (pause = [] \/ pause = [Question PromptEnter]).
Proof.
  intros versions latest w.
  destruct (update_needs_a_plain_y versions latest w (js "yes") [js ""])
    as (_ & Hskip);
    [discriminate | repeat constructor | reflexivity | reflexivity |].
  apply Hskip; discriminate.
Defined.

(** ** Feeds the update check cannot read *)

Lemma insert_sorted_length {A} (c : A -> A -> jserror + jsnum) x sorted placed :
  insert_sorted c x sorted = inr placed -> length placed = S (length sorted).
Proof.
  revert placed. induction sorted as [|y rest IH]; intros placed; cbn [insert_sorted].
  - intros [= <-]. reflexivity.
  - destruct (c x y) as [e|r]; [discriminate|].
    destruct (positive r); [|intros [= <-]; reflexivity].
    destruct (insert_sorted c x rest) as [e|p]; [discriminate|].
    intros [= <-]. cbn. rewrite (IH p eq_refl). reflexivity.
Qed.

Lemma array_sort_length {A} (c : A -> A -> jserror + jsnum) l sorted :
  array_sort c l = inr sorted -> length sorted = length l.
Proof.
  revert sorted. induction l as [|x rest IH]; intros sorted; cbn [array_sort].
  - intros [= <-]. reflexivity.
  - destruct (array_sort c rest) as [e|s]; [discriminate|].
    intros H. apply insert_sorted_length in H. rewrite H, (IH s eq_refl). reflexivity.
Qed.

Lemma version_parts_unversioned d :
  unversioned d -> version_parts (version d) = inl (TypeError "split is not a function").
Proof.
  intros H. unfold version_parts. destruct (version d) eqn:Hv; try reflexivity.
  exfalso. exact (H _ Hv).
Qed.

Lemma compare_versions_unversioned a b :
  unversioned a \/ unversioned b -> exists e, compare_versions a b = inl e.
Proof.
  unfold compare_versions. intros [H|H].
  - rewrite (version_parts_unversioned a H). eauto.
  - destruct (version_parts (version a)); [eauto|].
    rewrite (version_parts_unversioned b H). eauto.
Qed.

(** The sort gets past a descriptor without a version only when it has
    nothing to compare it with. *)
Lemma array_sort_unversioned l sorted :
  Exists unversioned l ->
  array_sort compare_versions l = inr sorted ->
  exists d, l = [d].
Proof.
  revert sorted. induction l as [|x rest IH]; intros sorted Hbad; [inversion Hbad|].
  cbn [array_sort].
  destruct (array_sort compare_versions rest) as [e|s] eqn:Hrest; [discriminate|].
  destruct rest as [|y rest']; [eauto|].
  intros Hins. exfalso.
  pose proof (array_sort_length _ _ _ Hrest) as Hlen.
  destruct s as [|z s']; [discriminate|].
  assert (Hxz : unversioned x \/ unversioned z).
  { inversion Hbad as [? ? Hx|? ? Hin]; subst; [left; exact Hx|].
    destruct (IH _ Hin eq_refl) as [d [= -> ->]].
    cbn in Hrest. injection Hrest as <- <-.
    right. inversion Hin as [? ? Hd|? ? Hnil]; [exact Hd | inversion Hnil]. }
  cbn [insert_sorted] in Hins.
  destruct (compare_versions_unversioned x z Hxz) as [e He].
  rewrite He in Hins. discriminate.
Qed.

Lemma try_catch_bind_throw {A B} (m : M A) (f : A -> M B) h w e w1 :
  m w = (Throw e, w1) -> try_catch (m ≫= f) h w = h e w1.
Proof. intros H. unfold try_catch, mbind, M_bind. rewrite H. reflexivity. Qed.

Lemma report_check_error_reads e w line later :
  stdin w = line :: later ->
  report_check_error e w
  = (Val true,
     with_stdin later (emit_all (Log (MsgCheckError (err_message e)) :: pause_main) w)).
Proof.
  intros Hin. unfold report_check_error, getUserInput, mbind, M_bind, console_log.
  cbn. rewrite Hin. reflexivity.
Qed.

Lemma report_latest_reads w line later :
  stdin w = line :: later ->
  report_latest w
  = (Val true,
     with_stdin later (emit_all (Log (MsgLatest CURRENT_VERSION) :: pause_main) w)).
Proof.
  intros Hin. unfold report_latest, getUserInput, mbind, M_bind, console_log.
  cbn. rewrite Hin. reflexivity.
Qed.

(** X9.  A fetched list in which one descriptor has no string as its
    version cannot be checked: the sort or the reading of the latest
    version throws a TypeError, which [checkVersion] reports as an error
    of the check before it pauses and returns [true].  No version is
    announced and no update is offered. *)
Theorem malformed_version_is_reported
    (w w1 : world) (fetched : list descriptor) (line : jsstring)
    (later : list jsstring) :
  fetchVersionsJson (emit (Log MsgChecking) w) = (Val fetched, w1) ->
  Exists unversioned fetched ->
  stdin w1 = line :: later ->
  exists e,
    checkVersion w
    = (Val true,
       with_stdin later
         (emit_all (Log (MsgCheckError (err_message e)) :: pause_main) w1)).
Proof.
  intros Hf Hbad Hin. unfold checkVersion.
  change ((console_log MsgChecking;; ?k) w) with (k (emit (Log MsgChecking) w)).
  rewrite (try_catch_bind_val _ _ _ _ _ _ Hf).
  rewrite bool_decide_eq_false_2 by (destruct Hbad; discriminate).
  destruct (array_sort compare_versions fetched) as [e|sorted] eqn:Hsort.
  - exists e. rewrite (try_catch_bind_throw _ _ _ w1 e w1) by reflexivity.
    apply (report_check_error_reads _ _ _ _ Hin).
  - destruct (array_sort_unversioned _ _ Hbad Hsort) as [d ->].
    cbn in Hsort. injection Hsort as <-.
    assert (Hd : unversioned d)
      by (inversion Hbad as [? ? Hd|? ? Hnil]; [exact Hd | inversion Hnil]).
    eexists.
    rewrite (try_catch_bind_val _ _ _ w1 [d] w1) by reflexivity.
    rewrite (try_catch_bind_val _ _ _ w1 d w1) by reflexivity.
    rewrite (try_catch_bind_val _ _ _ w1 [Num 1; Num 0; Num 0] w1) by reflexivity.
    rewrite (try_catch_bind_throw _ _ _ w1 _ w1)
      by (rewrite (version_parts_unversioned d Hd); reflexivity).
    apply (report_check_error_reads _ _ _ _ Hin).
Qed.

Lemma malformed_version_is_reported_witness :
  let w := session [js ""] (serving feed_unversioned) in
  exists e,
    checkVersion w
    = (Val true,
       with_stdin []
         (emit_all (Log (MsgCheckError (err_message e)) :: pause_main)
                   (answered (emit (HttpGet versions_url) (emit (Log MsgChecking) w))))).
Proof.
  intros w.
  eapply (malformed_version_is_reported w _ _ (js "") []).
  - vm_compute. reflexivity.
  - left. intros s. discriminate.
  - reflexivity.
Defined.


(** X10.  A list of changes that is not a list matters only when there
    is something to announce.  When the newest release is newer than the
    local version, [checkVersion] announces it, and the table of changes
    then throws: the error of the check is reported and no update is
    offered.  When the newest release is not newer, the changes are never
    read and the local version is reported as the latest. *)
Theorem malformed_changes_stop_the_offer
    (w w1 : world) (fetched : list descriptor) (line : jsstring)
    (later : list jsstring) :
  fetchVersionsJson (emit (Log MsgChecking) w) = (Val fetched, w1) ->
  fetched <> [] ->
  Forall numbered fetched ->
  Exists (fun d => ~ is_array (changes d)) fetched ->
  stdin w1 = line :: later ->
  exists latest older tl,
    array_sort compare_versions fetched = inr (latest :: older)
    /\ version_triple (version latest) = Some tl
    /\ (lex_lt current_triple tl ->
        exists e,
          checkVersion w
          = (Val true,
             with_stdin later
               (emit_all (Log (MsgNewVersion (version latest))
                          :: Log (MsgCheckError (err_message e)) :: pause_main) w1)))
    /\ (lex_le tl current_triple ->
        checkVersion w
        = (Val true,
           with_stdin later
             (emit_all (Log (MsgLatest CURRENT_VERSION) :: pause_main) w1))).
Proof.
  intros Hf Hne Hnum Hbad Hin.
  destruct (array_sort_correct fetched) as (sorted & Hsort & Hperm & _).
  { eapply Forall_impl; [exact Hnum|]. intros d (t & Ht & _). exists t. exact Ht. }
  destruct sorted as [|latest older].
  { apply Permutation_sym, Permutation_nil in Hperm. congruence. }
  assert (Hnums : Forall numbered (latest :: older))
    by (eapply Permutation_Forall; eassumption).
  inversion Hnums as [|? ? (tl & Htl & _) _]; subst.
  destruct (version_triple_parts _ _ Htl) as (x & y & z & more & -> & Hparts).
  exists latest, older, (x, y, z). do 2 (split; [assumption|]).
  rewrite (checkVersion_decides w fetched w1 latest older _ Hf Hne Hsort Hparts).
  pose proof (isLatest_triple 1 0 0 [] x y z more) as Hlatest.
  split.
  - intros Hlt.
    assert (Hno : isLatest [Num 1; Num 0; Num 0] (Num x :: Num y :: Num z :: more) = false).
    { destruct (isLatest _ _); [|reflexivity].
      exfalso. apply (lex_lt_not_le _ _ Hlt), Hlatest. reflexivity. }
    rewrite Hno. cbn [negb].
    assert (Hbads : Exists (fun d => presentable d = false) (latest :: older)).
    { apply List.Exists_exists in Hbad. destruct Hbad as (d & Hd & Hbad).
      apply List.Exists_exists. exists d.
      split; [eapply Permutation_in; eassumption|].
      unfold presentable. destruct (changes d); try reflexivity.
      exfalso. apply Hbad. exact I. }
    destruct (formatVersionChanges_throws (latest :: older)
                (emit (Log (MsgNewVersion (version latest))) w1) Hbads) as [e He].
    exists e. unfold offer_update.
    rewrite (try_catch_bind_val _ _ _ _ _ _
               (interpolate_printable _ w1 (version_parts_printable _ _ Hparts))).
    rewrite (try_catch_bind_val _ _ _ w1 tt (emit (Log (MsgNewVersion (version latest))) w1))
      by reflexivity.
    rewrite (try_catch_bind_throw _ _ _ _ _ _ He).
    rewrite (report_check_error_reads e _ line later) by exact Hin.
    reflexivity.
  - intros Hle. apply Hlatest in Hle. rewrite Hle. cbn [negb].
    unfold try_catch. rewrite (report_latest_reads w1 line later Hin). reflexivity.
Qed.

Lemma malformed_changes_stop_the_offer_witness :
  let w := session [js ""] (serving feed_unchanged) in
  exists e,
    checkVersion w
    = (Val true,
       with_stdin []
         (emit_all (Log (MsgNewVersion (VString (js "1.2.0")))
                    :: Log (MsgCheckError (err_message e)) :: pause_main)
                   (answered (emit (HttpGet versions_url) (emit (Log MsgChecking) w))))).
Proof.
  intros w.
  destruct (malformed_changes_stop_the_offer w
              (answered (emit (HttpGet versions_url) (emit (Log MsgChecking) w)))
              [ {| version := VString (js "1.2.0");
                   update_date := moment_format (VString (js "2025-07-02"));
                   changes := VUndefined |};
                release "1.0.0" "2025-06-11" ["token menus"%string] ]
              (js "") [])
    as (latest & older & tl & Hsort & Htl & Hnewer & _).
  - vm_compute. reflexivity.
  - discriminate.
  - repeat constructor; eexists; (split; [vm_compute; reflexivity | vm_compute; auto]).
  - left. intros H. exact H.
  - reflexivity.
  - vm_compute in Hsort. injection Hsort as <- <-.
    vm_compute in Htl. injection Htl as <-.
    apply Hnewer. vm_compute. auto.
Defined.

(** ** Versions with fewer than three components *)

Lemma isLatest_loop_common cs ls i steps :
  isLatest_loop i steps (map Num cs) (map Num ls)
  = negb (newer_on_common (take steps (drop i cs)) (take steps (drop i ls))).
Proof.
  revert i. induction steps as [|steps IH]; intros i; [reflexivity|].
  cbn [isLatest_loop]. rewrite !list_lookup_fmap.
  destruct (cs !! i) as [c|] eqn:Hc.
  - rewrite (drop_S _ _ _ Hc).
    destruct (ls !! i) as [l|] eqn:Hl.
    + rewrite (drop_S _ _ _ Hl). cbn.
      destruct (c <? l); [reflexivity|]. destruct (l <? c); [reflexivity|].
      apply IH.
    + apply lookup_ge_None in Hl. rewrite (drop_ge ls) by exact Hl. cbn.
      rewrite IH. rewrite (drop_ge ls) by lia. rewrite take_nil.
      destruct (take steps _); reflexivity.
  - apply lookup_ge_None in Hc. rewrite (drop_ge cs) by exact Hc. cbn.
    destruct (ls !! i); cbn; rewrite IH, (drop_ge cs) by lia; rewrite take_nil;
      reflexivity.
Qed.

(** X11.  The up-to-date loop compares the numeric components that the
    local and the latest version both have among the first three, left
    to right; a component one of them lacks decides nothing.  So a single
    release whose version names fewer than three components ([1], [1.0])
    is newer only if one of the components it has is greater than the
    local one at the first difference: otherwise the local version is
    reported as the latest. *)
Theorem short_versions_compare_on_common_components
    (w w1 : world) (d : descriptor) (ls : list Z) (line : jsstring)
    (later : list jsstring) :
  fetchVersionsJson (emit (Log MsgChecking) w) = (Val [d], w1) ->
  version_parts (version d) = inr (map Num ls) ->
  Forall (fun z => z < 2 ^ 53) ls ->
  stdin w1 = line :: later ->
  (forall cs, isLatest (map Num cs) (map Num ls)
              = negb (newer_on_common (take 3 cs) (take 3 ls)))
  /\ (newer_on_common [1; 0; 0] (take 3 ls) = false ->
      checkVersion w
      = (Val true,
         with_stdin later
           (emit_all (Log (MsgLatest CURRENT_VERSION) :: pause_main) w1)))
  /\ (newer_on_common [1; 0; 0] (take 3 ls) = true ->
      exists evs,
        trace (snd (checkVersion w))
        = trace w1 ++ Log (MsgNewVersion (version d)) :: evs).
Proof.
  intros Hf Hparts _ Hin.
  assert (Hloop : forall cs, isLatest (map Num cs) (map Num ls)
                             = negb (newer_on_common (take 3 cs) (take 3 ls))).
  { intros cs. unfold isLatest. rewrite isLatest_loop_common, !drop_0. reflexivity. }
  split; [exact Hloop|].
  rewrite (checkVersion_decides w [d] w1 d [] _ Hf) by (discriminate || reflexivity || exact Hparts).
  change [Num 1; Num 0; Num 0] with (map Num [1; 0; 0]). rewrite Hloop.
  change (take 3 [1; 0; 0]) with [1; 0; 0]. split.
  - intros ->. cbn [negb]. unfold try_catch.
    rewrite (report_latest_reads w1 line later Hin). reflexivity.
  - intros ->. cbn [negb]. unfold offer_update.
    rewrite (try_catch_bind_val _ _ _ _ _ _
               (interpolate_printable _ w1 (version_parts_printable _ _ Hparts))).
    rewrite (try_catch_bind_val _ _ _ w1 tt (emit (Log (MsgNewVersion (version d))) w1))
      by reflexivity.
    match goal with |- context [snd (?k (emit ?e w1))] =>
      assert (Hk : preserves (extends_by (fun _ => True)) k) end.
    { preserve; try exact I;
        first [ apply (preserves_formatVersionChanges (R := extends_by (fun _ => True)))
              | apply (preserves_updateFiles (R := extends_by (fun _ => True)))
              | apply (preserves_report_check_error (R := extends_by (fun _ => True))) ];
        intros; exact I. }
    destruct (Hk (emit (Log (MsgNewVersion (version d))) w1)) as (evs & -> & _).
    exists evs. cbn. rewrite <- app_assoc. reflexivity.
Qed.

Lemma short_versions_compare_on_common_components_witness :
  let w := session [js ""] (serving feed_short) in
  checkVersion w
  = (Val true,
     with_stdin []
       (emit_all (Log (MsgLatest CURRENT_VERSION) :: pause_main)
                 (answered (emit (HttpGet versions_url) (emit (Log MsgChecking) w))))).
Proof.
  intros w.
  destruct (short_versions_compare_on_common_components w
              (answered (emit (HttpGet versions_url) (emit (Log MsgChecking) w)))
              (release "1" "2025-06-11" ["token menus"%string]) [1] (js "") [])
    as (_ & Hsame & _).
  - vm_compute. reflexivity.
  - reflexivity.
  - repeat constructor.
  - reflexivity.
  - apply Hsame. reflexivity.
Defined.

(** ** The comparator as an ordering *)

(** X12.  On versions with three integer components that a JavaScript
    number holds exactly the sort comparator is a consistent ordering: its result is the difference of the first
    components that differ, taken so that the newer version comes first,
    it is 0 exactly for equal triples, and swapping the arguments negates
    it. *)
Theorem compare_versions_antisymmetric (a b : descriptor) (ta tb : Z * Z * Z) :
  version_triple (version a) = Some ta ->
  version_triple (version b) = Some tb ->
  safe ta -> safe tb ->
  exists c,
    compare_versions a b = inr (Num c)
    /\ compare_versions b a = inr (Num (- c))
    /\ (c = 0 <-> ta = tb)
    /\ (0 < c <-> lex_lt ta tb)
    /\ (c < 0 <-> lex_lt tb ta).
Proof.
  intros Ha Hb _ _.
  destruct (version_triple_parts _ _ Ha) as (x1 & y1 & z1 & ra & -> & Hpa).
  destruct (version_triple_parts _ _ Hb) as (x2 & y2 & z2 & rb & -> & Hpb).
  unfold compare_versions. rewrite Hpa, Hpb. cbn.
  destruct (Z.eqb_spec x1 x2) as [->|Hx]; cbn.
  - rewrite Z.eqb_refl. cbn.
    destruct (Z.eqb_spec y1 y2) as [->|Hy]; cbn.
    + rewrite Z.eqb_refl. cbn.
      destruct (Z.eqb_spec z1 z2) as [->|Hz]; cbn.
      * rewrite Z.eqb_refl. cbn. exists 0. repeat split; intros; try lia; auto.
      * destruct (Z.eqb_spec z2 z1); [lia|]. cbn. exists (z2 - z1).
        split; [reflexivity|]. split; [f_equal; f_equal; lia|].
        repeat split; intros; try lia; try (injection H as ?; lia).
    + destruct (Z.eqb_spec y2 y1); [lia|]. cbn. exists (y2 - y1).
      split; [reflexivity|]. split; [f_equal; f_equal; lia|].
      repeat split; intros; try lia; try (injection H as ?; lia).
  - destruct (Z.eqb_spec x2 x1); [lia|]. cbn. exists (x2 - x1).
    split; [reflexivity|]. split; [f_equal; f_equal; lia|].
    repeat split; intros; try lia; try (injection H as ?; lia).
Qed.

Lemma compare_versions_antisymmetric_witness :
  exists c,
    compare_versions (release "1.2.0" "2025-07-02" []) (release "1.10.3" "2025-09-30" []) = inr (Num c)
    /\ compare_versions (release "1.10.3" "2025-09-30" []) (release "1.2.0" "2025-07-02" []) = inr (Num (- c))
    /\ 0 < c.
Proof.
  destruct (compare_versions_antisymmetric
              (release "1.2.0" "2025-07-02" []) (release "1.10.3" "2025-09-30" []) (1, 2, 0) (1, 10, 3)
              eq_refl eq_refl) as (c & Hab & Hba & _ & Hpos & _);
    [vm_compute; auto | vm_compute; auto |].
  exists c. split; [exact Hab|]. split; [exact Hba|].
  apply Hpos. vm_compute. auto.
Defined.

(** ** The answer to a question *)

Lemma trim_start_split s :
  exists spaces, s = spaces ++ trim_start s /\ forallb is_space spaces = true.
Proof.
  induction s as [|c rest (spaces & Hrest & Hspaces)]; [exists []; auto|].
  cbn [trim_start]. destruct (is_space c) eqn:Hc.
  - exists (c :: spaces). cbn. rewrite Hc, Hspaces. split; [congruence | reflexivity].
  - exists []. auto.
Qed.

Lemma trim_start_head s c rest : trim_start s = c :: rest -> is_space c = false.
Proof.
  induction s as [|d s IH]; [discriminate|].
  cbn [trim_start]. destruct (is_space d) eqn:Hd; [exact IH|].
  intros [= <- _]. exact Hd.
Qed.

(** X13.  [getUserInput] resolves with the line the user typed, without
    the white space before and after it and with everything between
    kept; it takes exactly that one line from the input and writes its
    query once. *)
Theorem getUserInput_trims (p : prompt) (w : world) (line : jsstring)
    (later : list jsstring) :
  stdin w = line :: later ->
  exists before after,
    getUserInput p w = (Val (trim line), with_stdin later (emit (Question p) w))
    /\ line = before ++ trim line ++ after
    /\ forallb is_space before = true
    /\ forallb is_space after = true
    /\ (forall c rest, trim line = c :: rest -> is_space c = false)
    /\ (forall front c, trim line = front ++ [c] -> is_space c = false).
Proof.
  intros Hin.
  destruct (trim_start_split line) as (before & Hline & Hbefore).
  destruct (trim_start_split (rev (trim_start line))) as (spaces & Hrev & Hspaces).
  assert (Hmid : trim_start line = trim line ++ rev spaces).
  { unfold trim. rewrite <- rev_app_distr, <- Hrev, rev_involutive. reflexivity. }
  exists before, (rev spaces).
  split; [unfold getUserInput; rewrite Hin; reflexivity|].
  split; [rewrite <- Hmid; exact Hline|].
  split; [exact Hbefore|].
  split.
  { rewrite forallb_forall in *. intros c Hc. apply Hspaces, in_rev, Hc. }
  split.
  - intros c rest Hc. rewrite Hc in Hmid. exact (trim_start_head _ _ _ Hmid).
  - intros front c Hc. unfold trim in Hc.
    apply (f_equal (@rev N)) in Hc. rewrite rev_involutive, rev_app_distr in Hc.
    exact (trim_start_head _ _ _ Hc).
Qed.

Lemma getUserInput_trims_witness :
  getUserInput PromptMain (session [js "  4 "; js "1"] offline)
  = (Val (js "4"),
     with_stdin [js "1"] (emit (Question PromptMain) (session [js "  4 "; js "1"] offline))).
Proof.
  destruct (getUserInput_trims PromptMain (session [js "  4 "; js "1"] offline)
              (js "  4 ") [js "1"] eq_refl) as (before & after & Hrun & _).
  exact Hrun.
Defined.

(** ** The token menus *)

(** X14.  What the two token menus do with a line: the choices 1 to 4
    hand the script of that menu and token to [runScript], with the main
    menu to come back to, and 5 goes back to the main menu without any
    script.  White space around the digit is ignored. *)
Theorem token_menus_dispatch
    (node : menu_node) (fuel : nat) (w : world) (line : jsstring)
    (later : list jsstring) :
  node <> Root ->
  stdin w = line :: later ->
  (forall script,
      script_of node (trim line) = Some script ->
      show (S fuel) node w
      = runScript (show fuel Root) script
          (with_stdin later (emit_all (screen node) w)))
  /\ (trim line = js "5" ->
      show (S fuel) node w
      = detach (show fuel Root) (with_stdin later (emit_all (screen node) w))).
Proof.
  intros Hnode Hin. rewrite (show_reads node fuel w line later Hin).
  destruct node; [congruence| |]; cbn [choose script_of];
    unfold sepoliaToHoleskyMenu_choice, holeskyToSepoliaMenu_choice; split.
  all: try (intros ->; reflexivity).
  all: intros script;
    repeat (destruct (bool_decide (trim line = _)); [intros [= <-]; reflexivity|]);
    discriminate.
Qed.

Lemma token_menus_dispatch_witness :
  let w := session [js " 3"; js ""] offline in
  show 2 HoleskyToSepolia w
  = runScript (show 1 Root) (js "HoleskyToSepoliaEurc.js")
      (with_stdin [js ""] (emit_all (screen HoleskyToSepolia) w)).
Proof.
  intros w.
  destruct (token_menus_dispatch HoleskyToSepolia 1 w (js " 3") [js ""]) as [Hrun _];
    [discriminate | reflexivity |].
  apply Hrun. reflexivity.
Defined.

(** ** Relations kept by all of the launcher *)

Section Launcher.

Context {R : world -> world -> Prop} {allowed : event -> Prop}
        {writable : jsstring -> Prop} `{!Stepwise R allowed writable}.

Hypothesis allowed_print : forall e, is_print e -> allowed e.

Ltac printing := preserve; try (apply allowed_print; exact I).

Lemma keeps_displayBanner : preserves R displayBanner.
Proof. unfold displayBanner. printing. Qed.

Lemma keeps_displayMainMenu : preserves R displayMainMenu.
Proof. unfold displayMainMenu. printing. Qed.

Lemma keeps_displayTokens title : preserves R (displayTokens title).
Proof. unfold displayTokens. printing. Qed.

Lemma keeps_formatVersionChanges versions : preserves R (formatVersionChanges versions).
Proof. unfold formatVersionChanges. printing. Qed.

Lemma keeps_report_unable : preserves R report_unable.
Proof. unfold report_unable. printing. Qed.

Lemma keeps_report_latest : preserves R report_latest.
Proof. unfold report_latest. printing. Qed.

Lemma keeps_report_check_error e : preserves R (report_check_error e).
Proof. unfold report_check_error. printing. Qed.

Lemma keeps_fetchVersionsJson :
  allowed (HttpGet versions_url) -> preserves R fetchVersionsJson.
Proof. intros Hget. unfold fetchVersionsJson, version_entry. printing. exact Hget. Qed.

Lemma keeps_runScript mainMenu scriptName :
  allowed (Access scriptName) -> allowed (Spawn scriptName) ->
  preserves R mainMenu -> preserves R (runScript mainMenu scriptName).
Proof. intros Hacc Hspawn Hk. unfold runScript. printing; assumption. Qed.

(** The update check keeps [R] when the requests and the writes of a
    sync are allowed. *)
Lemma keeps_checkVersion :
  (forall url, allowed (HttpGet url)) ->
  (forall path content, allowed (WriteFile path content)) ->
  (forall path, writable path) ->
  preserves R checkVersion.
Proof.
  intros Hget Hwrite Hpath.
  unfold checkVersion, first_version, offer_update, updateFiles, fetchRepoFiles.
  printing; try apply Hget.
  - apply keeps_fetchVersionsJson, Hget.
  - apply keeps_report_unable.
  - apply keeps_formatVersionChanges.
  - unfold downloadFile. printing; auto.
  - apply keeps_report_latest.
  - apply keeps_report_check_error.
Qed.

(** The menus keep [R] as soon as the launch of a known script does and
    the main menu, from its question on, does. *)
Hypothesis keeps_launch : forall mainMenu script,
  script ∈ known_scripts -> preserves R mainMenu ->
  preserves R (runScript mainMenu script).
Hypothesis keeps_root : forall k1 k2 k3,
  preserves R k1 -> preserves R k2 -> preserves R k3 ->
  preserves R (getUserInput PromptMain ≫= mainMenu_choice k1 k2 k3).

Lemma keeps_show fuel node : preserves R (show fuel node).
Proof.
  revert node. induction fuel as [|fuel IH]; intros node; cbn [show].
  - apply preserves_stop.
  - destruct node.
    + unfold mainMenu_body.
      apply preserves_bind; [apply keeps_displayBanner | intros _].
      apply preserves_bind; [apply keeps_displayMainMenu | intros _].
      apply keeps_root; apply IH.
    + unfold sepoliaToHoleskyMenu_body, sepoliaToHoleskyMenu_choice.
      printing;
        first [ apply keeps_displayTokens
              | apply IH
              | apply keeps_launch;
                [apply (bool_decide_unpack _); vm_compute; exact I | apply IH] ].
    + unfold holeskyToSepoliaMenu_body, holeskyToSepoliaMenu_choice.
      printing;
        first [ apply keeps_displayTokens
              | apply IH
              | apply keeps_launch;
                [apply (bool_decide_unpack _); vm_compute; exact I | apply IH] ].
Qed.

Lemma keeps_main : preserves R main.
Proof.
  intros w. unfold main.
  assert (H : preserves R
    (console_log MsgStarting;;
     try_catch (mainMenu (enough_fuel w))
               (fun err => console_error (MsgFatal err);; process_exit 1))).
  { printing. apply keeps_show. }
  apply H.
Qed.

End Launcher.

(** ** Child processes *)

Lemma orderly_nil : orderly [].
Proof. intros before script after H. destruct before; discriminate. Qed.

Lemma orderly_single e : ~ is_spawn e -> orderly [e].
Proof.
  intros He before script after H.
  destruct before as [|e' [|? ?]]; try discriminate.
  injection H as H _. subst e. exfalso. apply He. exact I.
Qed.

Lemma orderly_app evs1 evs2 : orderly evs1 -> orderly evs2 -> orderly (evs1 ++ evs2).
Proof.
  intros H1 H2 before script after Heq.
  apply List.app_eq_app in Heq. destruct Heq as [mid [[Hevs1 Hrest]|[Hbefore Hevs2]]].
  - destruct mid as [|e mid].
    + rewrite app_nil_r in Hevs1. subst evs1. cbn in Hrest.
      destruct (H2 [] script after (eq_sym Hrest)) as [_ [earlier Hnil]].
      destruct earlier; discriminate.
    + injection Hrest as He Hafter. subst e. exact (H1 before script mid Hevs1).
  - destruct (H2 mid script after Hevs2) as [Hknown [earlier ->]].
    split; [exact Hknown|]. exists (evs1 ++ earlier). rewrite Hbefore, app_assoc.
    reflexivity.
Qed.

Lemma orderly_launch script :
  script ∈ known_scripts -> orderly [Access script; Spawn script].
Proof.
  intros Hknown before s after H.
  destruct before as [|e1 [|e2 [|? ?]]]; try discriminate.
  injection H as He1 Hs Hafter. subst. split; [exact Hknown|]. exists []. reflexivity.
Qed.

#[export] Instance launches_orderly_stepwise :
  Stepwise launches_orderly (fun e => ~ is_spawn e) (fun _ => True).
Proof.
  split; unfold launches_orderly.
  - intros w. exists []. rewrite app_nil_r. split; [reflexivity | apply orderly_nil].
  - intros w1 w2 w3 (e1 & H1 & F1) (e2 & H2 & F2). exists (e1 ++ e2).
    rewrite H2, H1, app_assoc. split; [reflexivity | apply orderly_app; assumption].
  - intros e w He. exists [e]. split; [reflexivity | apply orderly_single, He].
  - intros w. exists []. cbn. rewrite app_nil_r. split; [reflexivity | apply orderly_nil].
  - intros w line later _. exists []. cbn. rewrite app_nil_r.
    split; [reflexivity | apply orderly_nil].
  - intros w path content _. exists []. cbn. rewrite app_nil_r.
    split; [reflexivity | apply orderly_nil].
Qed.

Lemma not_spawn_print e : is_print e -> ~ is_spawn e.
Proof. destruct e; cbn; tauto. Qed.

Lemma runScript_launches_orderly mainMenu script :
  script ∈ known_scripts ->
  preserves launches_orderly mainMenu ->
  preserves launches_orderly (runScript mainMenu script).
Proof.
  intros Hknown Hk w. unfold runScript.
  match goal with |- context [try_catch (fs_access script;; (spawn_node script ≫= ?g)) ?h] =>
    assert (Hg : forall ev, preserves launches_orderly (try_catch (g ev) h));
    [|assert (Hh : forall e, preserves launches_orderly (h e));
      [|assert (Hrun :
          try_catch (fs_access script;; (spawn_node script ≫= g)) h w
          = let w1 := answered (emit (Access script) w) in
            match access w (asked w) script with
            | Some e => h e w1
            | None =>
                match child w (S (asked w)) script with
                | SpawnThrows e => h e (answered w1)
                | Spawned ev => try_catch (g ev) h (answered (emit (Spawn script) w1))
                end
            end)]]
  end.
  - intros ev. preserve; first [exact Hk | apply not_spawn_print; exact I].
  - intros e. preserve; first [exact Hk | apply not_spawn_print; exact I].
  - unfold try_catch, mbind, M_bind, fs_access, spawn_node.
    destruct (access w (asked w) script); [reflexivity|]. cbn.
    destruct (child w (S (asked w)) script); reflexivity.
  - rewrite Hrun. cbv zeta.
    assert (Hacc : launches_orderly w (answered (emit (Access script) w))).
    { exists [Access script]. split; [reflexivity|]. apply orderly_single. intros H. exact H. }
    destruct (access w (asked w) script) as [e|].
    + eapply stepwise_trans; [exact Hacc | apply Hh].
    + destruct (child w (S (asked w)) script) as [e|ev].
      * eapply stepwise_trans; [|apply Hh].
        destruct Hacc as (evs & Ht & Ho). exists evs. split; [exact Ht | exact Ho].
      * eapply stepwise_trans; [|apply Hg].
        exists [Access script; Spawn script]. split; [|apply orderly_launch, Hknown].
        cbn. rewrite <- app_assoc. reflexivity.
Qed.

(** X15.  Whatever the user types and whatever the network, the file
    system and the scripts answer: every child process the launcher
    spawns runs one of the eight transfer scripts, and it is spawned
    right after the access check of that same script. *)
Theorem launcher_spawns_checked_scripts (w : world) :
  orderly (new_events main w).
Proof.
  assert (H : preserves launches_orderly main).
  { apply keeps_main.
    - intros e He. apply not_spawn_print, He.
    - apply runScript_launches_orderly.
    - intros k1 k2 k3 H1 H2 H3. unfold mainMenu_choice.
      preserve; try (apply not_spawn_print; exact I); try assumption.
      apply keeps_checkVersion; intros; try exact I; try (intros H; exact H).
      apply not_spawn_print; assumption. }
  destruct (H w) as (evs & Ht & Ho).
  rewrite (new_events_extends _ _ _ Ht). exact Ho.
Qed.

Lemma launcher_spawns_checked_scripts_witness :
  link_script ∈ known_scripts
  /\ exists earlier,
       Log MsgStarting :: screen Root ++ screen SepoliaToHolesky ++ [Access link_script]
       = earlier ++ [Access link_script].
Proof.
  apply (launcher_spawns_checked_scripts (session [js "1"; js "2"] offline)
           (Log MsgStarting :: screen Root ++ screen SepoliaToHolesky
            ++ [Access link_script])
           link_script (screen Root)).
  vm_compute. reflexivity.
Defined.

(** ** What the launcher does not do unasked *)

#[export] Instance quietly_stepwise (P : event -> Prop) :
  Stepwise (quietly P) P (fun _ => False).
Proof.
  destruct (extends_by_stepwise P) as [Hrefl Htrans Hemit Hans Hread _].
  split; unfold quietly.
  - intros w. split; [apply Hrefl | reflexivity].
  - intros w1 w2 w3 [H1 F1] [H2 F2]. split; [eapply Htrans; eassumption | congruence].
  - intros e w He. split; [apply Hemit, He | reflexivity].
  - intros w. split; [apply Hans | reflexivity].
  - intros w line later Hin. split; [eapply Hread, Hin | reflexivity].
  - intros w path content [].
Qed.

#[export] Instance unless_stepwise (P : jsstring -> Prop)
    (R : world -> world -> Prop) allowed writable
    `{!Stepwise R allowed writable} :
  Stepwise (unless P R) allowed writable.
Proof.
  split; unfold unless.
  - intros w HP. split; [exact HP | apply stepwise_refl].
  - intros w1 w2 w3 H1 H2 HP. destruct (H1 HP) as [HP2 R12].
    destruct (H2 HP2) as [HP3 R23]. split; [exact HP3|].
    eapply stepwise_trans; eassumption.
  - intros e w He HP. split; [exact HP | apply stepwise_emit, He].
  - intros w HP. split; [exact HP | apply stepwise_answered].
  - intros w line later Hin HP. split; [|eapply stepwise_read, Hin].
    rewrite Hin in HP. inversion HP; assumption.
  - intros w path content Hw HP. split; [exact HP | apply stepwise_write, Hw].
Qed.

(** What follows a question may rely on the answer being one of the
    lines, all of which satisfy [P]. *)
Lemma unless_ask (P : jsstring -> Prop) (R : world -> world -> Prop) allowed writable
    `{!Stepwise R allowed writable} {B} (p : prompt) (f : jsstring -> M B) :
  allowed (Question p) ->
  (forall line, P line -> preserves (unless P R) (f (trim line))) ->
  preserves (unless P R) (getUserInput p ≫= f).
Proof.
  intros Hq Hf w HP. unfold mbind, M_bind, getUserInput.
  destruct (stdin w) as [|line later] eqn:Hin.
  - destruct (stdin_ended w); cbn; rewrite ?Hin;
      (split; [constructor|]); [apply stepwise_refl | apply stepwise_emit, Hq].
  - inversion HP as [|? ? Hline Hlater]; subst.
    set (w1 := with_stdin later (emit (Question p) w)).
    destruct (Hf line Hline w1 Hlater) as [HP' Hrest]. split; [exact HP'|].
    eapply stepwise_trans; [|exact Hrest].
    eapply stepwise_trans; [apply stepwise_emit, Hq|].
    apply (stepwise_read (emit (Question p) w) line later). exact Hin.
Qed.

Lemma local_print e : is_print e -> local_event e.
Proof. destruct e; cbn; unfold local_event; cbn; tauto. Qed.

Lemma reads_versions_only_print e : is_print e -> reads_versions_only e.
Proof.
  destruct e; cbn; try tauto; intros _; (split; [cbn; tauto | intros url; discriminate]).
Qed.

(** X16.  The launcher uses the network and writes local files only in
    an update check: as long as no line the user types is the choice 3,
    white space aside, a run makes no request and writes no file, and
    the local files stay as they are. *)
Theorem offline_unless_update_check (w : world) :
  Forall not_three (stdin w) ->
  Forall local_event (new_events main w)
  /\ files (snd (main w)) = files w.
Proof.
  intros HP.
  assert (H : preserves (unless not_three (quietly local_event)) main).
  { apply (keeps_main (allowed := local_event) (writable := fun _ => False)).
    - exact local_print.
    - intros k script _ Hk.
      apply (keeps_runScript (allowed := local_event) (writable := fun _ => False));
        [exact local_print | split; intros H; exact H | split; intros H; exact H
        | exact Hk].
    - intros k1 k2 k3 H1 H2 H3.
      apply (unless_ask _ _ local_event (fun _ => False)); [apply local_print; exact I|].
      intros line Hline. unfold mainMenu_choice.
      destruct (bool_decide (trim line = js "1")); [exact H2|].
      destruct (bool_decide (trim line = js "2")); [exact H3|].
      rewrite (bool_decide_eq_false_2 (trim line = js "3")) by exact Hline.
      preserve; first [apply local_print; exact I | exact H1]. }
  destruct (H w HP) as (_ & (evs & Ht & Hevs) & Hfiles).
  rewrite (new_events_extends _ _ _ Ht). split; [exact Hevs | exact Hfiles].
Qed.

Lemma offline_unless_update_check_witness :
  let w := session [js "1"; js "2"; js ""; js "9"; js " 4"] (serving feed_newer) in
  Forall local_event (new_events main w) /\ files (snd (main w)) = files w.
Proof.
  intros w. apply offline_unless_update_check.
  repeat (constructor; [vm_compute; discriminate|]). constructor.
Defined.

Lemma offer_update_unless_yes versions latest :
  preserves (unless not_yes (quietly reads_versions_only)) (offer_update versions latest).
Proof.
  unfold offer_update.
  apply preserves_bind; [apply preserves_interpolate | intros shown].
  apply preserves_bind; [preserve; apply reads_versions_only_print; exact I | intros _].
  apply preserves_bind;
    [apply (keeps_formatVersionChanges (allowed := reads_versions_only)
              (writable := fun _ => False)); exact reads_versions_only_print
    | intros _].
  apply (unless_ask _ _ reads_versions_only (fun _ => False));
    [apply reads_versions_only_print; exact I|].
  intros line [Hy HY].
  rewrite bool_decide_eq_false_2 by (rewrite lowers_to_y; tauto).
  preserve; apply reads_versions_only_print; exact I.
Qed.

Lemma checkVersion_unless_yes :
  preserves (unless not_yes (quietly reads_versions_only)) checkVersion.
Proof.
  unfold checkVersion, first_version.
  preserve; try (apply reads_versions_only_print; exact I).
  - apply (keeps_fetchVersionsJson (allowed := reads_versions_only)
             (writable := fun _ => False)); [exact reads_versions_only_print|].
    split; [intros H; exact H | intros url [= <-]; reflexivity].
  - apply (keeps_report_unable (allowed := reads_versions_only)
             (writable := fun _ => False)); exact reads_versions_only_print.
  - apply offer_update_unless_yes.
  - apply (keeps_report_latest (allowed := reads_versions_only)
             (writable := fun _ => False)); exact reads_versions_only_print.
  - apply (keeps_report_check_error (allowed := reads_versions_only)
             (writable := fun _ => False)); exact reads_versions_only_print.
Qed.

(** X17.  Nothing is downloaded or written without the user's consent:
    as long as no line the user types is [y] or [Y], white space aside,
    the only request a run makes is the one for the version file, no file
    is written, and the local files stay as they are. *)
Theorem no_sync_without_consent (w : world) :
  Forall not_yes (stdin w) ->
  Forall reads_versions_only (new_events main w)
  /\ files (snd (main w)) = files w.
Proof.
  intros HP.
  assert (H : preserves (unless not_yes (quietly reads_versions_only)) main).
  { apply (keeps_main (allowed := reads_versions_only) (writable := fun _ => False)).
    - exact reads_versions_only_print.
    - intros k script _ Hk.
      apply (keeps_runScript (allowed := reads_versions_only)
               (writable := fun _ => False));
        [exact reads_versions_only_print
        | split; [intros H; exact H | intros url; discriminate]
        | split; [intros H; exact H | intros url; discriminate]
        | exact Hk].
    - intros k1 k2 k3 H1 H2 H3. unfold mainMenu_choice.
      preserve; try (apply reads_versions_only_print; exact I); try assumption.
      apply checkVersion_unless_yes. }
  destruct (H w HP) as (_ & (evs & Ht & Hevs) & Hfiles).
  rewrite (new_events_extends _ _ _ Ht). split; [exact Hevs | exact Hfiles].
Qed.

Lemma no_sync_without_consent_witness :
  let w := session [js "3"; js "yes"; js ""; js "4"] (serving feed_newer) in
  Forall reads_versions_only (new_events main w) /\ files (snd (main w)) = files w.
Proof.
  intros w. apply no_sync_without_consent.
  repeat (constructor; [split; vm_compute; discriminate|]). constructor.
Defined.

(** ** How a run ends *)

Lemma outcome_ok_weaken {A} b w (r : result A) w' :
  outcome_ok false w r w' -> outcome_ok b w r w'.
Proof. destruct r as [a|e|[]]; cbn; intuition discriminate. Qed.

Lemma outcome_ok_from {A} b w1 w2 (r : result A) w' :
  stdin_ended w2 = stdin_ended w1 -> outcome_ok b w2 r w' -> outcome_ok b w1 r w'.
Proof. intros H. destruct r as [a|e|[]]; cbn; rewrite ?H; auto. Qed.

Lemma tame_weaken {A} b (m : M A) : tame false m -> tame b m.
Proof. intros H w. destruct (H w). split; [assumption | apply outcome_ok_weaken; assumption]. Qed.

Lemma tame_mret {A} b (a : A) : tame b (mret a : M A).
Proof. intros w. split; [reflexivity | exact I]. Qed.

Lemma tame_throw {A} e : tame true (throw e : M A).
Proof. intros w. split; [reflexivity | left; reflexivity]. Qed.

Lemma tame_out_of_fuel {A} b : tame b (stop OutOfFuel : M A).
Proof. intros w. split; [reflexivity | exact I]. Qed.

Lemma tame_bind {A B} b (m : M A) (f : A -> M B) :
  tame b m -> (forall a, tame b (f a)) -> tame b (m ≫= f).
Proof.
  intros Hm Hf w. destruct (Hm w) as [He Hok]. unfold mbind, M_bind.
  destruct (m w) as [[a|e|h] w1]; cbn [fst snd] in *; [|auto|auto].
  destruct (Hf a w1) as [He' Hok']. split; [congruence|].
  eapply outcome_ok_from; eassumption.
Qed.

Lemma tame_bind_mret {A B} b (a : A) (f : A -> M B) :
  tame b (f a) -> tame b (mret a ≫= f).
Proof. intros H w. exact (H w). Qed.

Lemma tame_bind_throw {A B} e (f : A -> M B) : tame true (throw e ≫= f).
Proof. intros w. split; [reflexivity | left; reflexivity]. Qed.

Lemma tame_try_catch {A} b (body : M A) handler :
  tame true body -> (forall e, tame b (handler e)) -> tame b (try_catch body handler).
Proof.
  intros Hm Hf w. destruct (Hm w) as [He Hok]. unfold try_catch.
  destruct (body w) as [[a|e|h] w1]; cbn [fst snd] in *.
  - split; [exact He | exact I].
  - destruct (Hf e w1) as [He' Hok']. split; [congruence|].
    eapply outcome_ok_from; eassumption.
  - split; [exact He|]. destruct h; cbn in *; auto.
Qed.

Lemma tame_detach {A} b (m : M A) : tame false m -> tame b (detach m).
Proof.
  intros Hm w. destruct (Hm w) as [He Hok]. unfold detach.
  destruct (m w) as [[a|e|h] w1]; cbn [fst snd] in *; (split; [exact He|]).
  - exact I.
  - cbn. destruct Hok as [Hok|Hok]; [discriminate | exact Hok].
  - destruct h; cbn in *; auto.
Qed.

Lemma tame_setTimeout {A} b (m : M A) ms : tame false m -> tame b (setTimeout m ms).
Proof.
  intros Hm w. unfold setTimeout.
  destruct (tame_detach b m Hm (emit (Timeout ms) w)) as [He Hok].
  split; [exact He|]. eapply outcome_ok_from; [|exact Hok]. reflexivity.
Qed.

Lemma tame_console_log b m : tame b (console_log m).
Proof. intros w. split; [reflexivity | exact I]. Qed.

Lemma tame_console_clear b : tame b console_clear.
Proof. intros w. split; [reflexivity | exact I]. Qed.

Lemma tame_axios_get url : tame true (axios_get url).
Proof.
  intros w. unfold axios_get.
  destruct (http w (asked w) url); (split; [reflexivity|]); cbn; auto.
Qed.

Lemma tame_fs_access path : tame true (fs_access path).
Proof.
  intros w. unfold fs_access.
  destruct (access w (asked w) path); (split; [reflexivity|]); cbn; auto.
Qed.

Lemma tame_fs_writeFile path content : tame true (fs_writeFile path content).
Proof.
  intros w. unfold fs_writeFile.
  destruct (write w (asked w) path); (split; [reflexivity|]); cbn; auto.
Qed.

Lemma tame_spawn_node script : tame true (spawn_node script).
Proof.
  intros w. unfold spawn_node.
  destruct (child w (asked w) script); (split; [reflexivity|]); cbn; auto.
Qed.

Lemma tame_getUserInput b p : tame b (getUserInput p).
Proof.
  intros w. unfold getUserInput.
  destruct (stdin w); [destruct (stdin_ended w) eqn:He|];
    (split; [cbn; auto|]); cbn; auto.
Qed.

Lemma tame_lift {A} (r : jserror + A) : tame true (lift r).
Proof. destruct r; [apply tame_throw | apply tame_mret]. Qed.

Lemma tame_get_prop v key : tame true (get_prop v key).
Proof. destruct v; first [apply tame_throw | apply tame_mret]. Qed.

Lemma tame_interpolate v : tame true (interpolate v).
Proof. unfold interpolate. destruct (printable v); [apply tame_mret | apply tame_throw]. Qed.

Lemma tame_path_join v : tame true (path_join v).
Proof.
  intros w. unfold path_join. destruct v; (split; [reflexivity|]); cbn; auto.
Qed.

Lemma tame_each {A B} b (f : A -> M B) l :
  (forall x, tame b (f x)) -> tame b (each f l).
Proof.
  intros Hf. induction l as [|x rest IH]; cbn [each].
  - apply tame_mret.
  - apply tame_bind; [apply Hf|]. intros y.
    apply tame_bind; [exact IH|]. intros ys. apply tame_mret.
Qed.

Lemma tame_array_map {B} receiver (f : jsval -> M B) :
  (forall x, tame true (f x)) -> tame true (array_map receiver f).
Proof. intros Hf. destruct receiver; try apply tame_throw. apply tame_each, Hf. Qed.

Lemma tame_keep p l : (forall x, tame true (p x)) -> tame true (keep p l).
Proof.
  intros Hp. induction l as [|x rest IH]; cbn [keep].
  - apply tame_mret.
  - apply tame_bind; [apply Hp|]. intros y.
    apply tame_bind; [exact IH|]. intros ys. apply tame_mret.
Qed.

Lemma tame_array_filter receiver p :
  (forall x, tame true (p x)) -> tame true (array_filter receiver p).
Proof. intros Hp. destruct receiver; try apply tame_throw. apply tame_keep, Hp. Qed.

(** The choice 4: the farewell, then status 0. *)
Lemma tame_goodbye b :
  tame b (console_log MsgGoodbye;; rl_close;; (process_exit 0 : M unit)).
Proof.
  intros w. split; [reflexivity|]. split; [reflexivity|].
  exists (trace w). unfold farewell, mbind, M_bind, console_log, rl_close. cbn.
  rewrite <- app_assoc. reflexivity.
Qed.

Ltac tame_step :=
  match goal with
  | |- tame _ (console_log MsgGoodbye;; _) => apply tame_goodbye
  | |- tame _ (mbind _ (mret _)) => apply tame_bind_mret
  | |- tame true (mbind _ (throw _)) => apply tame_bind_throw
  | |- tame _ (mbind _ _) => apply tame_bind; [|intros ?]
  | |- tame _ (try_catch _ _) => apply tame_try_catch; [|intros ?]
  | |- tame _ (detach _) => apply tame_detach
  | |- tame _ (setTimeout _ _) => apply tame_setTimeout
  | |- tame _ (mret _) => apply tame_mret
  | |- tame true (throw _) => apply tame_throw
  | |- tame _ (stop OutOfFuel) => apply tame_out_of_fuel
  | |- tame true (lift _) => apply tame_lift
  | |- tame true (get_prop _ _) => apply tame_get_prop
  | |- tame true (interpolate _) => apply tame_interpolate
  | |- tame true (path_join _) => apply tame_path_join
  | |- tame _ (console_log _) => apply tame_console_log
  | |- tame _ console_clear => apply tame_console_clear
  | |- tame true (axios_get _) => apply tame_axios_get
  | |- tame true (fs_access _) => apply tame_fs_access
  | |- tame true (fs_writeFile _ _) => apply tame_fs_writeFile
  | |- tame true (spawn_node _) => apply tame_spawn_node
  | |- tame _ (getUserInput _) => apply tame_getUserInput
  | |- tame _ (each _ _) => apply tame_each; intros ?
  | |- tame true (array_map _ _) => apply tame_array_map; intros ?
  | |- tame true (array_filter _ _) => apply tame_array_filter; intros ?
  | |- tame _ (if ?b then _ else _) => destruct b
  | |- tame _ (match ?x with _ => _ end) => destruct x
  end.

Ltac tamely := repeat tame_step.

(** The update check never throws and never stops the launcher while
    the input is open: what goes wrong inside is caught and reported. *)
Lemma tame_checkVersion b : tame b checkVersion.
Proof.
  apply tame_weaken.
  unfold checkVersion, first_version, report_unable, report_latest, offer_update,
    report_check_error, updateFiles, formatVersionChanges, fetchVersionsJson,
    fetchRepoFiles, version_entry.
  tamely.
  all: unfold downloadFile; tamely.
Qed.

Lemma tame_runScript b mainMenu scriptName :
  tame false mainMenu -> tame b (runScript mainMenu scriptName).
Proof. intros Hk. apply tame_weaken. unfold runScript. tamely; exact Hk. Qed.

Lemma tame_show fuel node : tame false (show fuel node).
Proof.
  revert node. induction fuel as [|fuel IH]; intros node; cbn [show].
  - apply tame_out_of_fuel.
  - destruct node;
      unfold mainMenu_body, sepoliaToHoleskyMenu_body, holeskyToSepoliaMenu_body,
        mainMenu_choice, sepoliaToHoleskyMenu_choice, holeskyToSepoliaMenu_choice,
        displayBanner, displayMainMenu, displayTokens;
      tamely;
      first [apply IH | apply tame_runScript, IH | apply tame_checkVersion].
Qed.


Lemma never_returns_bind {A B} (m : M A) (f : A -> M B) :
  (forall a, never_returns (f a)) -> never_returns (m ≫= f).
Proof.
  intros Hf w b. unfold mbind, M_bind.
  destruct (m w) as [[a|e|h] w1]; [apply Hf | discriminate | discriminate].
Qed.

Lemma never_returns_try_catch {A} (body : M A) handler :
  never_returns body -> (forall e, never_returns (handler e)) ->
  never_returns (try_catch body handler).
Proof.
  intros Hm Hf w a. specialize (Hm w a). unfold try_catch.
  destruct (body w) as [[a'|e|h] w1]; [exact Hm | apply Hf | discriminate].
Qed.

Lemma never_returns_detach {A} (m : M A) : never_returns m -> never_returns (detach m).
Proof.
  intros Hm w u. unfold detach.
  destruct (m w) as [[a|e|h] w1] eqn:Hrun; [|discriminate|discriminate].
  exfalso. apply (Hm w a). rewrite Hrun. reflexivity.
Qed.

Lemma never_returns_setTimeout {A} (m : M A) ms :
  never_returns m -> never_returns (setTimeout m ms).
Proof. intros Hm w. apply (never_returns_detach m Hm). Qed.

Lemma never_returns_stop {A} h : never_returns (stop h : M A).
Proof. intros w a. discriminate. Qed.

Ltac no_return_step :=
  match goal with
  | |- never_returns (mbind _ _) => apply never_returns_bind; intros ?
  | |- never_returns (try_catch _ _) => apply never_returns_try_catch; [|intros ?]
  | |- never_returns (detach _) => apply never_returns_detach
  | |- never_returns (setTimeout _ _) => apply never_returns_setTimeout
  | |- never_returns (process_exit _) => apply never_returns_stop
  | |- never_returns (stop _) => apply never_returns_stop
  | |- never_returns (if ?b then _ else _) => destruct b
  | |- never_returns (match ?x with _ => _ end) => destruct x
  end.

(** A menu never just returns: each of its branches ends in another
    menu or in the exit. *)
Lemma never_returns_show fuel node : never_returns (show fuel node).
Proof.
  revert node. induction fuel as [|fuel IH]; intros node; cbn [show].
  - apply never_returns_stop.
  - destruct node;
      unfold mainMenu_body, sepoliaToHoleskyMenu_body, holeskyToSepoliaMenu_body,
        mainMenu_choice, sepoliaToHoleskyMenu_choice, holeskyToSepoliaMenu_choice,
        runScript;
      repeat no_return_step; apply IH.
Qed.

(** The program ends as its first menu does, but for a rejection, which
    becomes the fatal error and status 1. *)
Lemma main_cases w :
  main w
  = match show (enough_fuel w) Root (emit (Log MsgStarting) w) with
    | (Throw e, w1) => (Halt (Exited 1), emit (LogError (MsgFatal e)) w1)
    | other => other
    end.
Proof.
  unfold main, mainMenu. unfold mbind at 1, M_bind at 1, try_catch, console_log at 1.
  destruct (show (enough_fuel w) Root (emit (Log MsgStarting) w)) as [[a|e|h] w1];
    reflexivity.
Qed.

(** X18.  How a run of the launcher ends.  It never returns.  As long as
    the input stream is open it neither throws nor crashes: it ends
    waiting at a question for a line that does not come, or with exit
    status 0 right after the farewell and the closing of readline.  Only
    when the input has ended can a rejection go unhandled or the start
    fail, the latter with the fatal error logged last and status 1.  No
    other exit status occurs. *)
Theorem launcher_ends_waiting_or_exits (w : world) :
  (fst (main w) = Halt Blocked
   \/ (fst (main w) = Halt (Exited 0)
       /\ exists evs, trace (snd (main w)) = evs ++ farewell)
   \/ (stdin_ended w = true
       /\ ((exists e, fst (main w) = Halt (UnhandledRejection e))
           \/ (fst (main w) = Halt (Exited 1)
               /\ exists evs e,
                    trace (snd (main w)) = evs ++ [LogError (MsgFatal e)]))))
  /\ (stdin_ended w = false ->
      fst (main w) = Halt Blocked
      \/ (fst (main w) = Halt (Exited 0)
          /\ exists evs, trace (snd (main w)) = evs ++ farewell)).
Proof.
  assert (Hcases :
    fst (main w) = Halt Blocked
    \/ (fst (main w) = Halt (Exited 0)
        /\ exists evs, trace (snd (main w)) = evs ++ farewell)
    \/ (stdin_ended w = true
        /\ ((exists e, fst (main w) = Halt (UnhandledRejection e))
            \/ (fst (main w) = Halt (Exited 1)
                /\ exists evs e,
                     trace (snd (main w)) = evs ++ [LogError (MsgFatal e)])))).
  { pose proof (main_within_budget w) as Hfuel.
    pose proof (tame_show (enough_fuel w) Root (emit (Log MsgStarting) w)) as [_ Hok].
    pose proof (never_returns_show (enough_fuel w) Root (emit (Log MsgStarting) w))
      as Hnever.
    revert Hfuel. rewrite main_cases.
    destruct (show (enough_fuel w) Root (emit (Log MsgStarting) w)) as [[a|e|h] w1];
      cbn [fst snd] in *.
    - exfalso. exact (Hnever a eq_refl).
    - intros _. right. right. destruct Hok as [Hok|Hok]; [discriminate|].
      split; [exact Hok|]. right. split; [reflexivity|].
      exists (trace w1), e. reflexivity.
    - destruct h as [|code|e|]; cbn in Hok.
      + left. reflexivity.
      + destruct Hok as [-> Hbye]. right. left. split; [reflexivity | exact Hbye].
      + right. right. split; [exact Hok|]. left. exists e. reflexivity.
      + intros Hfuel. exfalso. apply Hfuel. reflexivity. }
  split; [exact Hcases|].
  intros Hopen. destruct Hcases as [H|[H|[H _]]]; [auto | auto | congruence].
Qed.

Lemma launcher_ends_waiting_or_exits_witness :
  let w := session [js "1"; js "7"; js "5"] offline in
  fst (main w) = Halt Blocked
  \/ (fst (main w) = Halt (Exited 0)
      /\ exists evs, trace (snd (main w)) = evs ++ farewell).
Proof.
  intros w. apply launcher_ends_waiting_or_exits. reflexivity.
Defined.

(** ** The descriptors of a feed *)

(** X19.  A 200 response that carries an array, or a text that is the
    JSON of an array after the clean-up, gives one descriptor per entry,
    in the order of the feed: the entry's [VERSION], its [UPDATE_DATE] as
    formatted, its [CHANGES].  Nothing is checked: a missing property is
    [undefined] in the descriptor, and an entry that is no object gives
    a descriptor of three [undefined]. *)
Theorem fetchVersionsJson_maps_entries
    (w : world) (r : response) (items : list jsval) :
  http w (asked w) versions_url = Responded r ->
  status r = 200 ->
  received (data r) = Some (VArray items) ->
  Forall readable items ->
  fetchVersionsJson w
  = (Val (map descriptor_of items), answered (emit (HttpGet versions_url) w)).
Proof.
  intros Hr Hst Hdata Hread. rewrite fetchVersionsJson_cases. cbv zeta.
  rewrite Hr. apply Z.eqb_eq in Hst. rewrite Hst, Hdata. cbn [array_map].
  rewrite (each_pure version_entry descriptor_of); [reflexivity|].
  eapply Forall_impl; [exact Hread|]. intros item [Hnull Hundef].
  destruct item; try congruence; reflexivity.
Qed.

Lemma fetchVersionsJson_maps_entries_witness :
  let w := session [] (serving (jsq "[{'VERSION':'1.2.0','CHANGES':['usdc']}, 7]")) in
  fetchVersionsJson w
  = (Val [ {| version := VString (js "1.2.0");
              update_date := moment_format VUndefined;
              changes := VArray [VString (js "usdc")] |};
           {| version := VUndefined; update_date := moment_format VUndefined;
              changes := VUndefined |} ],
     answered (emit (HttpGet versions_url) w)).
Proof.
  intros w.
  apply (fetchVersionsJson_maps_entries w
           {| status := 200;
              data := VArray [VObject [(js "VERSION", VString (js "1.2.0"));
                                       (js "CHANGES", VArray [VString (js "usdc")])];
                              VNumber (js "7")] |}
           [VObject [(js "VERSION", VString (js "1.2.0"));
                     (js "CHANGES", VArray [VString (js "usdc")])];
            VNumber (js "7")]).
  - vm_compute. reflexivity.
  - reflexivity.
  - reflexivity.
  - repeat constructor; discriminate.
Defined.

(** ** A sync pass that goes through *)

#[export] Instance same_answers_stepwise :
  Stepwise same_answers (fun _ => True) (fun _ => True).
Proof.
  split; unfold same_answers; cbn; try tauto.
  intros w1 w2 w3 (H1 & H2 & H3 & H4) (H5 & H6 & H7 & H8).
  repeat split; congruence.
Qed.

Lemma each_downloadFile_same_answers listing w :
  same_answers w (snd (each downloadFile listing w)).
Proof.
  apply (preserves_each (R := same_answers)). intros file.
  apply (preserves_downloadFile (R := same_answers)); intros; exact I.
Qed.

Lemma each_downloadFile_same_dirname listing w :
  dirname (snd (each downloadFile listing w)) = dirname w.
Proof.
  apply (preserves_each (R := same_dirname)). intros file.
  apply (preserves_downloadFile (R := same_dirname)); intros; exact I.
Qed.

(** X20.  In a sync pass the downloads do not disturb each other: when
    the request for an entry is answered with status 200 and the write
    succeeds, the local file at the path [path.join] makes of its name
    holds the served data at the end of the pass, provided the names of
    the entries before it have string conversions, so that the pass
    gets to it, and no later entry of the listing is written to the
    same path: each is skipped as excluded or has another path.  Failed
    downloads do not matter. *)
Theorem sync_installs_served_file
    (before after : list file_entry) (file : file_entry) (s : jsstring)
    (r : response) (w : world) :
  name file = VString s ->
  s ∉ EXCLUDED_FILES ->
  Forall (fun earlier => printable (name earlier) = true) before ->
  Forall (fun later => excluded (name later) = true
                       \/ target w later <> Some (Path.join (dirname w) s)) after ->
  (forall n, http w n (download_url file) = Responded r) ->
  status r = 200 ->
  (forall n, write w n (Path.join (dirname w) s) = None) ->
  files (snd (each downloadFile (before ++ file :: after) w)) !! Path.join (dirname w) s
  = Some (data r).
Proof.
  intros Hname Hex Hbefore Hafter Hget Hst Hwrite.
  rewrite (each_downloadFile_app _ _ _ Hbefore).
  destruct (each_downloadFile_same_answers before w) as (Hhttp & _ & Hw & _).
  pose proof (each_downloadFile_same_dirname before w) as Hdir.
  set (w1 := snd (each downloadFile before w)) in *.
  cbn [each]. unfold mbind, M_bind.
  rewrite (downloadFile_goes_through file s r w1 Hname Hex);
    [|rewrite Hhttp; apply Hget | exact Hst | rewrite Hw, Hdir; apply Hwrite].
  set (w2 := emit _ _).
  assert (Hfile : files w2 !! Path.join (dirname w) s = Some (data r)).
  { subst w2. cbn [files emit with_files]. rewrite Hdir. apply lookup_insert_eq. }
  assert (Hdir2 : dirname w2 = dirname w) by exact Hdir.
  pose proof (each_downloadFile_keeps_other after _ w w2 Hdir2 Hafter) as Hkeep.
  clearbody w2.
  destruct (each downloadFile after w2) as [[l|e|h] w3]; cbn in *; congruence.
Qed.

Lemma sync_installs_served_file_witness :
  let w := session [] (repository listing_body 200 (VString (js "new content"))) in
  files (snd (each downloadFile listing_with_keys w)) !! js "/srv/union/index.js"
  = Some (VString (js "new content")).
Proof.
  intros w.
  apply (sync_installs_served_file []
           [ {| name := VString (js "private_keys.txt");
                download_url := VString (js "https://raw.example/private_keys.txt") |};
             {| name := VString (js "README.md");
                download_url := VString (js "https://raw.example/README.md") |} ]
           {| name := VString (js "index.js");
              download_url := VString (js "https://raw.example/index.js") |}
           (js "index.js")
           {| status := 200; data := VString (js "new content") |} w).
  - reflexivity.
  - apply (bool_decide_unpack _). vm_compute. exact I.
  - constructor.
  - constructor; [left; reflexivity|].
    constructor; [right; vm_compute; discriminate|]. constructor.
  - intros n. vm_compute. reflexivity.
  - reflexivity.
  - intros n. reflexivity.
Defined.

(** ** The clean-up of the version file *)

Lemma collapse_spaces_spaced s prev in_run :
  in_run = is_space prev ->
  spaced_from prev (collapse_spaces in_run s) = true.
Proof.
  revert prev in_run. induction s as [|c rest IH]; intros prev in_run Hrun; [reflexivity|].
  cbn [collapse_spaces]. destruct (is_space c) eqn:Hc.
  - destruct in_run.
    + apply IH, Hrun.
    + cbn [spaced_from]. rewrite <- Hrun. cbn. apply IH. reflexivity.
  - cbn [spaced_from]. rewrite Hc. cbn. apply IH. symmetry. exact Hc.
Qed.

Lemma drop_comma_before_pair close c d rest :
  drop_comma_before close (c :: d :: rest)
  = if ((c =? 44) && (d =? close))%N
    then close :: drop_comma_before close rest
    else c :: drop_comma_before close (d :: rest).
Proof. reflexivity. Qed.

Lemma drop_comma_before_spaced close s prev :
  is_space close = false ->
  spaced_from prev s = true ->
  spaced_from prev (drop_comma_before close s) = true.
Proof.
  intros Hclose.
  assert (H : forall n s prev, (length s <= n)%nat -> spaced_from prev s = true ->
                               spaced_from prev (drop_comma_before close s) = true);
    [|apply (H (length s)); lia].
  clear s prev. induction n as [|n IH]; intros s prev Hlen Hs.
  - destruct s; [reflexivity | cbn in Hlen; lia].
  - destruct s as [|c [|d rest]]; [reflexivity | exact Hs |].
    rewrite drop_comma_before_pair.
    cbn [spaced_from] in Hs. apply andb_true_iff in Hs. destruct Hs as [Hc Hs].
    destruct ((c =? 44) && (d =? close))%N eqn:Hpair.
    + apply andb_true_iff in Hs. destruct Hs as [_ Hs].
      apply andb_true_iff in Hpair. destruct Hpair as [_ Hd].
      apply N.eqb_eq in Hd. subst d.
      cbn [spaced_from]. rewrite Hclose, andb_true_l.
      apply IH; [cbn in Hlen; lia | exact Hs].
    + cbn [spaced_from]. rewrite Hc, andb_true_l.
      apply IH; [cbn in Hlen |- *; lia|]. exact Hs.
Qed.

Lemma collapse_spaces_fixed s prev in_run :
  in_run = is_space prev ->
  spaced_from prev s = true ->
  collapse_spaces in_run s = s.
Proof.
  revert prev in_run. induction s as [|c rest IH]; intros prev in_run Hrun Hs;
    [reflexivity|].
  cbn [spaced_from] in Hs. apply andb_true_iff in Hs. destruct Hs as [Hc Hs].
  cbn [collapse_spaces]. destruct (is_space c) eqn:Hsp.
  - apply andb_true_iff in Hc. destruct Hc as [Hc Hprev].
    apply N.eqb_eq in Hc. apply negb_true_iff in Hprev.
    rewrite Hrun, Hprev. subst c. f_equal. apply (IH 32%N); [reflexivity | exact Hs].
  - f_equal. apply (IH c); [symmetry; exact Hsp | exact Hs].
Qed.

Lemma drop_comma_before_fixed close s prev :
  close = 93%N \/ close = 125%N ->
  no_comma_before_close_from prev s = true ->
  drop_comma_before close s = s.
Proof.
  intros Hclose. revert prev. induction s as [|c rest IH]; intros prev Hs; [reflexivity|].
  cbn [no_comma_before_close_from] in Hs. apply andb_true_iff in Hs.
  destruct Hs as [_ Hs].
  destruct rest as [|d rest']; [reflexivity|]. rewrite drop_comma_before_pair.
  assert (Hpair : ((c =? 44) && (d =? close))%N = false).
  { cbn [no_comma_before_close_from] in Hs. apply andb_true_iff in Hs.
    destruct Hs as [Hcd _]. apply negb_true_iff in Hcd.
    destruct (c =? 44)%N; [|reflexivity]. cbn in *.
    destruct Hclose as [-> | ->]; destruct (d =? 93)%N, (d =? 125)%N;
      cbn in *; congruence. }
  rewrite Hpair. f_equal. apply (IH c). exact Hs.
Qed.

(** X21.  The clean-up of line 39 normalizes white space: in its result
    the only white space is the single space, never two in a row.  And
    it changes nothing else in a text that is already so and has no
    comma directly before a closing bracket or brace: such a text is
    parsed as it came. *)
Theorem cleanup_normalizes_white_space (text : jsstring) :
  spaced (cleanup text) = true
  /\ (spaced text = true -> no_comma_before_close text = true -> cleanup text = text).
Proof.
  unfold cleanup, spaced, no_comma_before_close. split.
  - apply drop_comma_before_spaced; [reflexivity|].
    apply drop_comma_before_spaced; [reflexivity|].
    apply collapse_spaces_spaced. reflexivity.
  - intros Hs Hc.
    rewrite (collapse_spaces_fixed text 0%N false eq_refl Hs).
    rewrite (drop_comma_before_fixed 93 text 0%N (or_introl eq_refl) Hc).
    apply (drop_comma_before_fixed 125 text 0%N (or_intror eq_refl) Hc).
Qed.

Lemma cleanup_normalizes_white_space_witness :
  cleanup (jsq "[{'VERSION': '1.2.0', 'CHANGES': ['usdc', 'fixes']}]")
  = jsq "[{'VERSION': '1.2.0', 'CHANGES': ['usdc', 'fixes']}]".
Proof.
  apply cleanup_normalizes_white_space; vm_compute; reflexivity.
Defined.

(** ** An empty feed, and the order of the table *)

(** X22.  A feed that is a valid but empty list is taken like a failed
    request: [checkVersion] says that it is unable to check, not that
    the local version is the latest, pauses and returns [true]. *)
Theorem empty_feed_is_unable_to_check
    (w : world) (r : response) (line : jsstring) (later : list jsstring) :
  http w (asked w) versions_url = Responded r ->
  status r = 200 ->
  received (data r) = Some (VArray []) ->
  stdin w = line :: later ->
  checkVersion w
  = (Val true,
     with_stdin later
       (emit_all ([Log MsgChecking; HttpGet versions_url; Log MsgUnableToCheck]
                  ++ pause_main) (answered w))).
Proof.
  intros Hr Hst Hdata Hin. unfold checkVersion.
  change ((console_log MsgChecking;; ?k) w) with (k (emit (Log MsgChecking) w)).
  assert (Hfetch : fetchVersionsJson (emit (Log MsgChecking) w)
                   = (Val [], answered (emit (HttpGet versions_url)
                                          (emit (Log MsgChecking) w)))).
  { rewrite fetchVersionsJson_cases. cbv zeta. rewrite http_emit, asked_emit, Hr.
    apply Z.eqb_eq in Hst. rewrite Hst, Hdata. reflexivity. }
  rewrite (try_catch_bind_val _ _ _ _ _ _ Hfetch).
  rewrite bool_decide_eq_true_2 by reflexivity.
  unfold try_catch. erewrite report_unable_reads; [reflexivity|]. exact Hin.
Qed.

Lemma empty_feed_is_unable_to_check_witness :
  let w := session [js ""] (serving (js "[]")) in
  checkVersion w
  = (Val true,
     with_stdin []
       (emit_all ([Log MsgChecking; HttpGet versions_url; Log MsgUnableToCheck]
                  ++ pause_main) (answered w))).
Proof.
  intros w.
  apply (empty_feed_is_unable_to_check w {| status := 200; data := VArray [] |}
           (js "") []); reflexivity.
Defined.

(** X23.  The table of an update offer lists the releases newest first,
    whatever their order in the feed: the sort rearranges the fetched
    list in place, and it is the sorted list that is announced and
    printed.  The first row is the release that is announced. *)
Theorem update_table_lists_newest_first
    (w w1 : world) (fetched : list descriptor) (answer : jsstring)
    (later : list jsstring) :
  fetchVersionsJson (emit (Log MsgChecking) w) = (Val fetched, w1) ->
  fetched <> [] ->
  Forall well_formed fetched ->
  stdin w1 = answer :: later ->
  exists latest older tl,
    Permutation fetched (latest :: older)
    /\ StronglySorted newer_or_same (latest :: older)
    /\ version_triple (version latest) = Some tl
    /\ (lex_lt current_triple tl ->
        exists evs,
          trace (snd (checkVersion w))
          = trace w1 ++ offer (latest :: older) latest ++ evs).
Proof.
  intros Hf Hne Hwf Hin.
  destruct (array_sort_correct fetched) as (sorted & Hsort & Hperm & Hsorted).
  { eapply Forall_impl; [exact Hwf | exact well_formed_has_triple]. }
  destruct sorted as [|latest older].
  { apply Permutation_sym, Permutation_nil in Hperm. congruence. }
  assert (Hwfs : Forall well_formed (latest :: older))
    by (eapply Permutation_Forall; eassumption).
  inversion Hwfs as [|? ? [(tl & Htl & _) _] _]; subst.
  destruct (version_triple_parts _ _ Htl) as (x & y & z & more & -> & Hparts).
  exists latest, older, (x, y, z). do 3 (split; [assumption|]).
  intros Hlt.
  rewrite (checkVersion_decides w fetched w1 latest older _ Hf Hne Hsort Hparts).
  assert (Hno : isLatest [Num 1; Num 0; Num 0] (Num x :: Num y :: Num z :: more) = false).
  { destruct (isLatest _ _) eqn:Hl; [|reflexivity].
    exfalso. apply (lex_lt_not_le _ _ Hlt).
    apply (isLatest_triple 1 0 0 [] x y z more). exact Hl. }
  rewrite Hno. cbn [negb].
  assert (Harr : Forall (fun d => presentable d = true) (latest :: older)).
  { eapply Forall_impl; [exact Hwfs | exact well_formed_presentable]. }
  unfold try_catch.
  rewrite (offer_update_asks (latest :: older) latest w1 answer later)
    by (discriminate || assumption || exact (version_parts_printable _ _ Hparts)).
  set (w2 := with_stdin later (emit_all (offer (latest :: older) latest) w1)).
  match goal with |- context [match ?body w2 with _ => _ end] =>
    change (match body w2 with
            | (Throw e, w3) => report_check_error e w3
            | other => other
            end) with (try_catch body report_check_error w2);
    assert (Hk : preserves (extends_by (fun _ => True)) (try_catch body report_check_error))
  end.
  { preserve; try exact I;
      first [ apply (preserves_updateFiles (R := extends_by (fun _ => True)))
            | apply (preserves_report_check_error (R := extends_by (fun _ => True))) ];
      intros; exact I. }
  destruct (Hk w2) as (evs & -> & _). exists evs.
  subst w2. rewrite trace_with_stdin, trace_emit_all, <- app_assoc. reflexivity.
Qed.

Lemma update_table_lists_newest_first_witness :
  let w := session [js "n"; js ""] (serving feed_newer) in
  exists evs,
    trace (snd (checkVersion w))
    = trace (answered (emit (HttpGet versions_url) (emit (Log MsgChecking) w)))
      ++ offer [release "1.2.0" "2025-07-02" ["usdc"%string; "fixes"%string];
                release "1.0.0" "2025-06-11" ["token menus"%string]]
               (release "1.2.0" "2025-07-02" ["usdc"%string; "fixes"%string])
      ++ evs.
Proof.
  intros w.
  destruct (update_table_lists_newest_first w
              (answered (emit (HttpGet versions_url) (emit (Log MsgChecking) w)))
              [release "1.0.0" "2025-06-11" ["token menus"%string];
               release "1.2.0" "2025-07-02" ["usdc"%string; "fixes"%string]]
              (js "n") [js ""])
    as (latest & older & tl & Hperm & Hsorted & Htl & Hoffer).
  - vm_compute. reflexivity.
  - discriminate.
  - repeat constructor; try (eexists; split; reflexivity);
      eexists; (split; [vm_compute; reflexivity | vm_compute; auto]).
  - reflexivity.
  - apply Permutation_length_2_inv in Hperm.
    destruct Hperm as [Hperm|Hperm]; injection Hperm as -> ->.
    + exfalso. inversion Hsorted as [|? ? _ Hfirst]; subst.
      inversion Hfirst as [|? ? (ta & tb & Ha & Hb & Hle) _]; subst.
      vm_compute in Ha, Hb. injection Ha as <-. injection Hb as <-.
      destruct Hle as [Hlt|Heq]; [unfold lex_lt in Hlt; lia | discriminate].
    + vm_compute in Htl. injection Htl as <-.
      apply Hoffer. unfold lex_lt, current_triple. lia.
Defined.
